(** * kdetools: a Gaussian KDE with cross-validated bandwidths and
      conditional resampling

    Shallow embedding of [kdetools/kde.py] (class [gaussian_kde]) and the
    properties stated about it.

    Conventions of the embedding.
    - A NumPy float is idealised as a real number ([R]); rounding, overflow
      and NaN are outside the model.  The one property that rounding
      decides, the symmetry of the data covariance, is examined on Rocq's
      primitive binary64 floats as well ([np_cov_binary64]).
    - A 1-D array is a [list R], a 2-D array a list of rows, a 3-D array a
      list of 2-D arrays.  Shapes are stated with [is_vec], [is_mat] and
      [is_ten].  Where NumPy raises on a shape mismatch the list operation
      truncates; every theorem assumes the shapes under which NumPy does not
      raise.
    - Index arrays hold natural numbers (NumPy's negative indices are not
      modelled).
    - The services the class takes from NumPy and SciPy and that are not a
      closed formula ([np.linalg.eigh], [np.linalg.inv], [scipy.linalg.cholesky],
      [scipy.optimize.minimize], the random generator) are parameters of the
      functions that call them. *)

From Stdlib Require Import PrimFloat.
From Stdlib Require Import String.
From Stdlib Require DecimalString.
From Stdlib Require Import Reals List Arith Lia Lra Bool Permutation Sorted.
Import ListNotations.

Open Scope R_scope.

(** ** NumPy arrays as lists *)

Abbreviation Vec := (list R) (only parsing).
Abbreviation Mat := (list (list R)) (only parsing).
Abbreviation Ten := (list (list (list R))) (only parsing).

Definition is_vec (n : nat) (v : Vec) : Prop := length v = n.

Definition is_mat (m n : nat) (A : Mat) : Prop :=
  length A = m /\ Forall (is_vec n) A.

Definition is_ten (m n k : nat) (T : Ten) : Prop :=
  length T = m /\ Forall (is_mat n k) T.

(** [A[i]] and [A[i, j]]. *)
Definition row (A : Mat) (i : nat) : Vec := nth i A [].
Definition entry (A : Mat) (i j : nat) : R := nth j (row A i) 0.

(** [A.shape[1]] of a 2-D array that has at least one row. *)
Definition shape1 (A : Mat) : nat :=
  match A with [] => O | r :: _ => length r end.

(** [v.sum()]. *)
Definition vsum (v : Vec) : R := fold_right Rplus 0 v.

(** [v.mean()] *)
Definition vmean (v : Vec) : R := vsum v / INR (length v).

(** Element-wise binary operation on two arrays of one length. *)
Fixpoint zipw {A B C} (f : A -> B -> C) (a : list A) (b : list B) : list C :=
  match a, b with
  | x :: a', y :: b' => f x y :: zipw f a' b'
  | _, _ => []
  end.

(** The sum of [f 0 .. f (n-1)], used to state entries index by index. *)
Definition sum_n (n : nat) (f : nat -> R) : R := vsum (map f (seq 0 n)).

(** [A[:, c]]. *)
Definition col (A : Mat) (c : nat) : Vec := map (fun r => nth c r 0) A.

(** [A.T] for a 2-D array of [n] columns. *)
Definition transpose (n : nat) (A : Mat) : Mat := map (col A) (seq 0 n).

(** [r @ U] for a 1-D [r] and a 2-D [U] of [n] columns. *)
Definition vecmat (n : nat) (r : Vec) (U : Mat) : Vec :=
  map (fun c => vsum (zipw Rmult r (col U c))) (seq 0 n).

(** [A @ B] for 2-D arrays, [B] of [n] columns. *)
Definition matmul (n : nat) (A B : Mat) : Mat := map (fun r => vecmat n r B) A.

(** [np.diag(v)] *)
Definition np_diag (v : Vec) : Mat :=
  map (fun a => map (fun b => if Nat.eqb a b then nth a v 0 else 0)
                    (seq 0 (length v)))
      (seq 0 (length v)).

(** [np.eye(d)] *)
Definition np_eye (d : nat) : Mat :=
  map (fun a => map (fun b => if Nat.eqb a b then 1 else 0) (seq 0 d)) (seq 0 d).

(** [h**2] on a 1-D array. *)
Definition vpow2 (h : Vec) : Vec := map (fun x => x ^ 2) h.

(** [A * v] with NumPy broadcasting of the 1-D [v] along the last axis: a
    one-element [v] scales every entry, a longer one scales column [c] by
    [v[c]]. *)
Definition bmul_row (r v : Vec) : Vec :=
  match v with
  | [a] => map (fun x => x * a) r
  | _ => zipw Rmult r v
  end.

Definition bmul (A : Mat) (v : Vec) : Mat := map (fun r => bmul_row r v) A.

(** [A[np.ix_(rs, cs)]] *)
Definition np_ix (A : Mat) (rs cs : list nat) : Mat :=
  map (fun a => map (fun b => entry A a b) cs) rs.

(** [A[idx]]: the rows of [A] picked by an index array. *)
Definition take_rows (A : Mat) (idx : list nat) : Mat :=
  map (row A) idx.

Definition symmetric (d : nat) (A : Mat) : Prop :=
  forall a b, (a < d)%nat -> (b < d)%nat -> entry A a b = entry A b a.

Definition diagonal (d : nat) (A : Mat) : Prop :=
  forall a b, (a < d)%nat -> (b < d)%nat -> a <> b -> entry A a b = 0.

(** ** The multivariate normal evaluator *)

(** [np.spacing(1)], the distance from 1.0 to the next double: 2^-52. *)
Definition spacing1 : R := / 2 ^ 52.

(** [s = np.abs(s) + np.spacing(1)] *)
Definition floor_eigs (s : Vec) : Vec := map (fun e => Rabs e + spacing1) s.

Section MvnEvaluator.

(** [np.linalg.eigh]: eigenvalues and a matrix whose columns are the
    eigenvectors. *)
Variable eigh : Mat -> Vec * Mat.

(** [_mvn_logpdf(self, x, mu, cov)].  [x[:,None] - mu] is the (m,p,n)
    array of all differences; [@ u], [np.square], [/ s] and
    [.sum(axis=2)] then act on its last axis. *)
Definition _mvn_logpdf (x mu cov : Mat) : Mat :=
  let k := shape1 mu in
  let '(s0, u) := eigh cov in
  let s := floor_eigs s0 in
  let klog_2pi := INR k * ln (2 * PI) in
  let log_pdet := vsum (map ln s) in
  let diffs : Ten := map (fun xi => map (fun muj => zipw Rminus xi muj) mu) x in
  let maha : Mat :=
    map (map (fun r => vsum (zipw Rdiv (map Rsqr (vecmat (shape1 u) r u)) s)))
        diffs in
  map (map (fun mh => -0.5 * (klog_2pi + log_pdet + mh))) maha.

(** [_mvn_pdf(self, x, mu, cov)] *)
Definition _mvn_pdf (x mu cov : Mat) : Mat :=
  map (map exp) (_mvn_logpdf x mu cov).

End MvnEvaluator.

(** The log-density of one pair, written entry by entry from the closed
    form: [d] dimensions, eigenvalues [s] (already floored) and eigenvector
    matrix [u]. *)
Definition maha_pair (d : nat) (xi muj s : Vec) (u : Mat) : R :=
  sum_n d (fun c =>
    Rsqr (sum_n d (fun a => (nth a xi 0 - nth a muj 0) * entry u a c))
    / nth c s 0).

Definition logpdf_pair (d : nat) (xi muj s : Vec) (u : Mat) : R :=
  -0.5 * (INR d * ln (2 * PI) + sum_n d (fun c => ln (nth c s 0))
          + maha_pair d xi muj s u).

(** The columns of [u] are orthonormal. *)
Definition orthonormal_columns (dim : nat) (u : Mat) : Prop :=
  forall c c', (c < dim)%nat -> (c' < dim)%nat ->
    sum_n dim (fun a => entry u a c * entry u a c')
    = if Nat.eqb c c' then 1 else 0.

(** Entry [a] of [(u @ diag(s) @ u.T) @ y]: the covariance rebuilt from the
    eigenvalues [s] and the eigenvectors [u], applied to [y]. *)
Definition spectral_apply (dim : nat) (s : Vec) (u : Mat) (y : Vec) (a : nat) : R :=
  sum_n dim (fun c =>
    entry u a c * (nth c s 0 * sum_n dim (fun b => entry u b c * nth b y 0))).

(** The rows of [u] are orthonormal. *)
Definition orthonormal_rows (dim : nat) (u : Mat) : Prop :=
  forall a a', (a < dim)%nat -> (a' < dim)%nat ->
    sum_n dim (fun c => entry u a c * entry u a' c)
    = if Nat.eqb a a' then 1 else 0.

(** Entry (a,b) of [u @ diag(s) @ u.T]. *)
Definition rebuilt (dim : nat) (s : Vec) (u : Mat) (a b : nat) : R :=
  sum_n dim (fun c => entry u a c * nth c s 0 * entry u b c).

(** What [np.linalg.eigh(cov)] returns for a symmetric (dim,dim) [cov]:
    [dim] eigenvalues [s0] and an orthogonal matrix [u] of eigenvectors
    with [cov = u @ diag(s0) @ u.T]. *)
Definition eigendecomposition (dim : nat) (cov : Mat) (s0 : Vec) (u : Mat) : Prop :=
  is_vec dim s0 /\ is_mat dim dim u /\
  orthonormal_columns dim u /\ orthonormal_rows dim u /\
  forall a b, (a < dim)%nat -> (b < dim)%nat ->
    entry cov a b = rebuilt dim s0 u a b.

(** [log N(x; mu, v)], the log-density at [x] of the normal distribution on
    the line with mean [mu] and variance [v], as the specification words
    the entries of the evaluator. *)
Definition normal_logpdf (x mu v : R) : R :=
  -0.5 * (ln (2 * PI) + ln v + (x - mu) ^ 2 / v).


(** ** k-fold splitting *)

Local Open Scope nat_scope.

(** [np.arange(n)] *)
Definition np_arange (n : nat) : list nat := seq 0 n.

(** [np.cumsum] *)
Fixpoint cumsum_from (acc : nat) (l : list nat) : list nat :=
  match l with
  | [] => []
  | x :: l' => (acc + x) :: cumsum_from (acc + x) l'
  end.

Definition np_cumsum (l : list nat) : list nat := cumsum_from 0 l.

(** [ary[st:end]] *)
Definition slice {A} (ary : list A) (st en : nat) : list A :=
  firstn (en - st) (skipn st ary).

(** [np.array_split(ary, k)] for an integer [k], as NumPy computes it:
    [Neach_section, extras = divmod(Ntotal, Nsections)], section sizes
    [[0] + extras * [Neach_section+1] + (Nsections-extras) * [Neach_section]],
    division points their cumulative sums.  [k <= 0] raises [ValueError]. *)
Definition section_sizes (Ntotal Nsections : nat) : list nat :=
  let Neach_section := Ntotal / Nsections in
  let extras := Ntotal mod Nsections in
  [0] ++ repeat (Neach_section + 1) extras
      ++ repeat Neach_section (Nsections - extras).

Definition np_array_split {A} (ary : list A) (k : nat) : option (list (list A)) :=
  if k =? 0 then None
  else
    let div_points := np_cumsum (section_sizes (length ary) k) in
    Some (map (fun i => slice ary (nth i div_points 0) (nth (i + 1) div_points 0))
              (seq 0 k)).

(** A fold as the source builds it: (train indices, test indices). *)
Definition Fold : Type := list nat * list nat.
Definition train (f : Fold) : list nat := fst f.
Definition test (f : Fold) : list nat := snd f.

(** [np.concatenate(arrays)]: with no array to concatenate it raises
    [ValueError] ("need at least one array to concatenate"), which [None]
    stands for. *)
Definition np_concatenate {A} (arrays : list (list A)) : option (list A) :=
  match arrays with
  | [] => None
  | _ :: _ => Some (concat arrays)
  end.

(** A list comprehension whose elements may raise: the first exception
    ends it. *)
Fixpoint comprehension {A} (l : list (option A)) : option (list A) :=
  match l with
  | [] => Some []
  | None :: _ => None
  | Some x :: l' =>
      match comprehension l' with
      | None => None
      | Some xs => Some (x :: xs)
      end
  end.

(** [kfold_split(self, X, k)].  [set(range(k)) - {j}] is a set of small
    integers, which CPython iterates in increasing order.  With [k = 1] the
    set is empty for the only fold and [np.concatenate] raises
    [ValueError]; with [k = 0] [np.array_split] raises it.  [None] stands
    for that exception. *)
Definition kfold_split {A} (X : list A) (k : nat) : option (list Fold) :=
  match np_array_split (np_arange (length X)) k with
  | None => None
  | Some splits =>
      comprehension
        (map (fun j =>
                match np_concatenate
                        (map (fun i => nth i splits [])
                             (filter (fun i => negb (i =? j)) (seq 0 k))) with
                | None => None
                | Some tr => Some (tr, nth j splits [])
                end)
             (seq 0 k))
  end.

(** The split as the specification words it: indices 1..n, [k] contiguous
    blocks, the last [n mod k] blocks one longer than the others. *)
Definition claimed_block_sizes (n k : nat) : list nat :=
  repeat (n / k) (k - n mod k) ++ repeat (n / k + 1) (n mod k).

(** Start and size of block [j] of [n] indices cut in [k] blocks. *)
Definition block_size (n k j : nat) : nat :=
  n / k + (if j <? n mod k then 1 else 0).

Definition block_start (n k j : nat) : nat :=
  j * (n / k) + Nat.min j (n mod k).

Definition block (n k j : nat) : list nat :=
  seq (block_start n k j) (block_size n k j).


Local Close Scope nat_scope.

(** ** Descriptive statistics from NumPy and SciPy *)

(** [np.sort] on a 1-D array. *)
Fixpoint insert_sorted (x : R) (l : Vec) : Vec :=
  match l with
  | [] => [x]
  | y :: l' => if Rle_dec x y then x :: l else y :: insert_sorted x l'
  end.

Definition np_sort (v : Vec) : Vec := fold_right insert_sorted [] v.

(** [np.quantile(v, num/den)] with the default linear interpolation: the
    virtual index [(n-1) * num/den] is split into its integer part and its
    fraction, and the result interpolates between the two neighbouring
    order statistics. *)
Definition np_quantile (v : Vec) (num den : nat) : R :=
  let n := length v in
  let sorted := np_sort v in
  let lo := ((n - 1) * num / den)%nat in
  let gamma := INR (((n - 1) * num) mod den) / INR den in
  let a := nth lo sorted 0 in
  let b := nth (Nat.min (lo + 1) (n - 1)) sorted 0 in
  a + (b - a) * gamma.

(** [v.std(ddof=1)] *)
Definition np_std1 (v : Vec) : R :=
  sqrt (vsum (map (fun x => Rsqr (x - vmean v)) v) / (INR (length v) - 1)).

(** [np.cov(X, rowvar=1, bias=False, aweights=w)] for a 2-D [X] whose rows
    are the variables; [w = None] is the unweighted estimator.  NumPy
    replaces a non-positive normalisation [fact] by zero. *)
Definition cov_avg (w : option Vec) (r : Vec) : R :=
  match w with
  | None => vmean r
  | Some w => vsum (zipw Rmult r w) / vsum w
  end.

Definition cov_fact (w : option Vec) (X : Mat) : R :=
  let fact :=
    match w with
    | None => INR (shape1 X) - 1
    | Some w => vsum w - 1 * vsum (zipw Rmult w w) / vsum w
    end in
  if Rle_dec fact 0 then 0 else fact.

Definition cov_weighted (w : option Vec) (r : Vec) : Vec :=
  match w with
  | None => r
  | Some w => zipw Rmult r w
  end.

Definition np_cov (X : Mat) (w : option Vec) : Mat :=
  let Xc := map (fun r => map (fun x => x - cov_avg w r) r) X in
  map (fun ra => map (fun rb => vsum (zipw Rmult ra (cov_weighted w rb))
                                * (1 / cov_fact w X))
                     Xc)
      Xc.

(** ** The data covariance in binary64 *)





(** ** The estimator object *)

(** The ways SciPy's [set_bandwidth] binds [covariance_factor], and the
    binding [lambda: self.h] made by the cross-validated selection. *)
Inductive CovFactor : Type :=
| CF_scotts
| CF_silverman
| CF_const (c : R)
| CF_callable (f : Mat -> Vec -> R)
| CF_h.

(** The attributes of a [gaussian_kde] instance.  An attribute that is
    assigned only by a method is [None] until then.  A scalar factor is
    held as a one-element array: NumPy broadcasts both alike, and
    [factor_is_scalar] tells them apart where [np.diag] does. *)
Record kde : Type := mk_kde {
  dataset : Mat;
  d : nat;
  n : nat;
  weights : Vec;
  bw_type : option String.string;
  covariance_factor : CovFactor;
  h : option Vec;
  loglike_cv : option R;
  factor : option Vec;
  _data_covariance : option Mat;
  _data_cho_cov : option Mat;
  covariance : option Mat;
  cho_cov : option Mat;
  log_det : option R
}.

(** Exceptions that reach the caller. *)
Inductive exn : Type :=
| LinAlgError
| ValueError
| AttributeError.

(** What the caller sees of a call: a value, a message printed before
    [return None], or an exception. *)
Inductive outcome (A : Type) : Type :=
| Returned (a : A)
| PrintedNone (msg : String.string)
| Raised (e : exn).
Arguments Returned {A} a.
Arguments PrintedNone {A} msg.
Arguments Raised {A} e.

(** [self.neff], SciPy's effective sample size [1 / sum(weights**2)] of the
    normalised weights. *)
Definition neff (st : kde) : R := 1 / vsum (vpow2 (weights st)).

(** [self.scotts_factor()] and [self.silverman_factor()] of SciPy. *)
Definition scotts_factor (st : kde) : R :=
  Rpower (neff st) (-1 / (INR (d st) + 4)).

Definition silverman_factor (st : kde) : R :=
  Rpower (neff st * (INR (d st) + 2) / 4) (-1 / (INR (d st) + 4)).

(** [self.covariance_factor()]; [lambda: self.h] fails when [self.h] was
    never assigned. *)
Definition call_covariance_factor (st : kde) : option Vec :=
  match covariance_factor st with
  | CF_scotts => Some [scotts_factor st]
  | CF_silverman => Some [silverman_factor st]
  | CF_const c => Some [c]
  | CF_callable f => Some [f (dataset st) (weights st)]
  | CF_h => h st
  end.

(** [silverman_factor_ref(self)] *)
Definition silverman_factor_ref (st : kde) : Vec :=
  let iqrs := map (fun r => np_quantile r 3 4 - np_quantile r 1 4) (dataset st) in
  let stds := map np_std1 (dataset st) in
  zipw Rdiv
       (map (fun x => x * Rpower (neff st) (-1 / 5))
            (map (fun x => 0.9 * x)
                 (zipw Rmin (map (fun q => q / 1.34) iqrs) stds)))
       stds.

(** The factor as the specification words it, for one dimension. *)
Definition claimed_silverman (iqr std neff_ : R) : R :=
  Rmin (iqr / 1.34) std * Rpower neff_ (-1 / 5) / std.


(** Attribute assignment, [self.attr = v]. *)
Definition set_bw_type (st : kde) (v : option String.string) : kde :=
  mk_kde (dataset st) (d st) (n st) (weights st) v (covariance_factor st)
         (h st) (loglike_cv st) (factor st) (_data_covariance st)
         (_data_cho_cov st) (covariance st) (cho_cov st) (log_det st).

Definition set_covariance_factor (st : kde) (v : CovFactor) : kde :=
  mk_kde (dataset st) (d st) (n st) (weights st) (bw_type st) v
         (h st) (loglike_cv st) (factor st) (_data_covariance st)
         (_data_cho_cov st) (covariance st) (cho_cov st) (log_det st).

Definition set_h (st : kde) (v : option Vec) : kde :=
  mk_kde (dataset st) (d st) (n st) (weights st) (bw_type st)
         (covariance_factor st) v (loglike_cv st) (factor st)
         (_data_covariance st) (_data_cho_cov st) (covariance st)
         (cho_cov st) (log_det st).

Definition set_loglike_cv (st : kde) (v : option R) : kde :=
  mk_kde (dataset st) (d st) (n st) (weights st) (bw_type st)
         (covariance_factor st) (h st) v (factor st)
         (_data_covariance st) (_data_cho_cov st) (covariance st)
         (cho_cov st) (log_det st).

Definition set_factor (st : kde) (v : option Vec) : kde :=
  mk_kde (dataset st) (d st) (n st) (weights st) (bw_type st)
         (covariance_factor st) (h st) (loglike_cv st) v
         (_data_covariance st) (_data_cho_cov st) (covariance st)
         (cho_cov st) (log_det st).

Definition set_data_covariance (st : kde) (v : option Mat) : kde :=
  mk_kde (dataset st) (d st) (n st) (weights st) (bw_type st)
         (covariance_factor st) (h st) (loglike_cv st) (factor st)
         v (_data_cho_cov st) (covariance st) (cho_cov st) (log_det st).

Definition set_data_cho_cov (st : kde) (v : option Mat) : kde :=
  mk_kde (dataset st) (d st) (n st) (weights st) (bw_type st)
         (covariance_factor st) (h st) (loglike_cv st) (factor st)
         (_data_covariance st) v (covariance st) (cho_cov st) (log_det st).

Definition set_covariance (st : kde) (v : option Mat) : kde :=
  mk_kde (dataset st) (d st) (n st) (weights st) (bw_type st)
         (covariance_factor st) (h st) (loglike_cv st) (factor st)
         (_data_covariance st) (_data_cho_cov st) v (cho_cov st) (log_det st).

Definition set_cho_cov (st : kde) (v : option Mat) : kde :=
  mk_kde (dataset st) (d st) (n st) (weights st) (bw_type st)
         (covariance_factor st) (h st) (loglike_cv st) (factor st)
         (_data_covariance st) (_data_cho_cov st) (covariance st) v
         (log_det st).

Definition set_log_det (st : kde) (v : option R) : kde :=
  mk_kde (dataset st) (d st) (n st) (weights st) (bw_type st)
         (covariance_factor st) (h st) (loglike_cv st) (factor st)
         (_data_covariance st) (_data_cho_cov st) (covariance st)
         (cho_cov st) v.

(** The [bw_method] argument: [None], a string, a scalar or a callable. *)
Inductive BwMethod : Type :=
| BwNone
| BwStr (s : String.string)
| BwScalar (c : R)
| BwCallable (f : Mat -> Vec -> R).

Definition is_str (m : BwMethod) (s : String.string) : bool :=
  match m with
  | BwStr s' => String.eqb s' s
  | _ => false
  end.

(** The kernel covariance of each bandwidth type from the squared factor:
    the three right-hand sides of [_compute_covariance] and of the
    [negloglike] closures. *)
Definition cov_diagonal (f : Vec) : Mat := np_diag (vpow2 f).
Definition cov_equal (dim : nat) (f : Vec) : Mat := bmul (np_eye dim) (vpow2 f).
Definition cov_scaled (data_cov : Mat) (f : Vec) : Mat := bmul data_cov (vpow2 f).

(** [np.diag(M)] of a 2-D array: its main diagonal. *)
Definition diag_of (M : Mat) : Vec :=
  map (fun i => entry M i i) (seq 0 (length M)).

(** Whether [self.covariance_factor()] returns a 0-d scalar.  SciPy's
    bindings (Scott, Silverman, a constant, a callable) do;
    [lambda: self.h] returns the 1-D array that the optimiser handed back. *)
Definition factor_is_scalar (st : kde) : bool :=
  match covariance_factor st with
  | CF_h => false
  | _ => true
  end.

(** The kernel covariance of the bandwidth type, as [_compute_covariance]
    and [inv_cov] both build it from the factor [f].  [np.diag] accepts
    1-D and 2-D arguments only and raises [ValueError] on a 0-d scalar:
    the one place where a scalar factor and a one-element array differ.
    A missing [bw_type] or [_data_covariance] raises [AttributeError]. *)
Definition kernel_covariance (st : kde) (f : Vec) : exn + Mat :=
  match bw_type st with
  | None => inl AttributeError
  | Some t =>
    if String.eqb t "diagonal"%string then
      if factor_is_scalar st then inl ValueError else inr (cov_diagonal f)
    else if String.eqb t "equal"%string then inr (cov_equal (d st) f)
    else match _data_covariance st with
         | Some dc => inr (cov_scaled dc f)
         | None => inl AttributeError
         end
  end.

Section Estimator.

Variable eigh : Mat -> Vec * Mat.

(** [scipy.linalg.cholesky(A, lower=True)]; [None] stands for the
    [LinAlgError] raised when [A] is not positive definite. *)
Variable cholesky : Mat -> option Mat.

(** [scipy.optimize.minimize(f, x0, method='nelder-mead')], reduced to the
    two entries of the result that are read: [res['x']] and [res['fun']]. *)
Variable minimize : (Vec -> R) -> Vec -> Vec * R.

(** The three [negloglike(h, Xeval, Xfit)] closures of [set_bandwidth]. *)
Definition negloglike_diagonal (hh : Vec) (Xeval Xfit : Mat) : R :=
  - vsum (map ln (map vmean (_mvn_pdf eigh Xeval Xfit (cov_diagonal hh)))).

Definition negloglike_covariance (hh : Vec) (Xeval Xfit : Mat) : R :=
  - vsum (map ln (map vmean
      (_mvn_pdf eigh Xeval Xfit
                (cov_scaled (np_cov (transpose (shape1 Xfit) Xfit) None) hh)))).

Definition negloglike_equal (dim : nat) (hh : Vec) (Xeval Xfit : Mat) : R :=
  - vsum (map ln (map vmean (_mvn_pdf eigh Xeval Xfit (cov_equal dim hh)))).

(** [negloglike_cv(h, X, splits)]: each split is (train, test), unpacked
    as [i, j] and used as [negloglike(h, X[j], X[i])]. *)
Definition negloglike_cv (negloglike : Vec -> Mat -> Mat -> R)
    (hh : Vec) (X : Mat) (splits : list Fold) : R :=
  vmean (map (fun s => negloglike hh (take_rows X (test s)) (take_rows X (train s)))
             splits).

(** [_compute_covariance(self)] *)
Definition _compute_covariance (st : kde) : kde * outcome unit :=
  match call_covariance_factor st with
  | None => (st, Raised AttributeError)
  | Some f =>
    let st := set_factor st (Some f) in
    let cached :=
      match _data_cho_cov st with
      | Some _ => (st, Returned tt)
      | None =>
        let dc := np_cov (dataset st) (Some (weights st)) in
        let st := set_data_covariance st (Some dc) in
        match cholesky dc with
        | None => (st, Raised LinAlgError)
        | Some L => (set_data_cho_cov st (Some L), Returned tt)
        end
      end in
    match cached with
    | (st, Returned _) =>
      match kernel_covariance st f with
      | inl e => (st, Raised e)
      | inr c =>
        let st := set_covariance st (Some c) in
        match cholesky c with
        | None => (st, Raised LinAlgError)
        | Some L =>
          let st := set_cho_cov st (Some L) in
          let ld := 2 * vsum (map ln (diag_of (map (map (fun x => x * sqrt (2 * PI))) L))) in
          (set_log_det st (Some ld), Returned tt)
        end
      end
    | other => other
    end
  end.

(** [scipy.stats.gaussian_kde.set_bandwidth], the parent's method. *)
Definition base_set_bandwidth (st : kde) (bw_method : BwMethod)
  : kde * outcome unit :=
  match bw_method with
  | BwNone => _compute_covariance st
  | BwStr s =>
    if String.eqb s "scott"%string then
      _compute_covariance (set_covariance_factor st CF_scotts)
    else if String.eqb s "silverman"%string then
      _compute_covariance (set_covariance_factor st CF_silverman)
    else (st, Raised ValueError)
  | BwScalar c => _compute_covariance (set_covariance_factor st (CF_const c))
  | BwCallable f => _compute_covariance (set_covariance_factor st (CF_callable f))
  end.

(** The initial guess [h0] and the [negloglike] closure chosen by
    [bw_type]; [None] is the final [else] branch. *)
Definition select_bw_type (st : kde) (ty : String.string)
  : option (Vec * (Vec -> Mat -> Mat -> R)) :=
  if String.eqb ty "diagonal"%string then
    Some (zipw Rmult (map np_std1 (dataset st)) (silverman_factor_ref st),
          negloglike_diagonal)
  else if String.eqb ty "covariance"%string then
    Some ([vmean (silverman_factor_ref st)], negloglike_covariance)
  else if String.eqb ty "equal"%string then
    Some ([np_std1 (concat (dataset st)) * vmean (silverman_factor_ref st)],
          negloglike_equal (d st))
  else None.

(** [set_bandwidth(self, bw_method=None, bw_type='diagonal', k=None)] *)
Definition set_bandwidth (st : kde) (bw_method : BwMethod)
    (ty : String.string) (k : option nat) : kde * outcome unit :=
  if is_str bw_method "cv"%string then
    match select_bw_type st ty with
    | None => (st, PrintedNone "bw_type must be diagonal, covariance or equal"%string)
    | Some (h0, negloglike) =>
      let st := set_bw_type st (Some ty) in
      let k := match k with
               | None => length (row (dataset st) 0)
               | Some k => k
               end in
      let X := transpose (shape1 (dataset st)) (dataset st) in
      match kfold_split X k with
      | None => (st, Raised ValueError)
      | Some splits =>
        let res := minimize (fun hh => negloglike_cv negloglike hh X splits) h0 in
        let st := set_h st (Some (fst res)) in
        let st := set_loglike_cv st (Some (- snd res)) in
        let st := set_covariance_factor st CF_h in
        _compute_covariance st
      end
    end
  else
    let st := set_bw_type st (Some "covariance_original"%string) in
    base_set_bandwidth st bw_method.

(** [np.ones(n) / n], the weights SciPy uses when none are given. *)
Definition uniform_weights (nn : nat) : Vec := repeat (1 / INR nn) nn.

(** [gaussian_kde(dataset, bw_method)]: SciPy's constructor stores the
    dataset, rejects one with fewer than two elements, sets [d] and [n]
    from its shape, rejects more dimensions than samples ([d > n]) and
    calls [self.set_bandwidth(bw_method=bw_method)],
    which is the method above; [covariance_factor] starts as the class
    default [scotts_factor]. *)
Definition gaussian_kde_init (data : Mat) (bw_method : BwMethod) : outcome kde :=
  if negb (1 <? length data * shape1 data)%nat then Raised ValueError
  else if (shape1 data <? length data)%nat then Raised ValueError
  else
    let st := mk_kde data (length data) (shape1 data)
                     (uniform_weights (shape1 data)) None CF_scotts
                     None None None None None None None None in
    match set_bandwidth st bw_method "diagonal"%string None with
    | (_, Raised e) => Raised e
    | (st', _) => Returned st'
    end.

End Estimator.


(** [inv_cov], a property: it refreshes [self.factor] and inverts the
    kernel covariance of the bandwidth type. *)
Definition inv_cov (inv : Mat -> option Mat) (st : kde) : kde * outcome Mat :=
  match call_covariance_factor st with
  | None => (st, Raised AttributeError)
  | Some f =>
    let st := set_factor st (Some f) in
    match kernel_covariance st f with
    | inl e => (st, Raised e)
    | inr c =>
      match inv c with
      | None => (st, Raised LinAlgError)
      | Some ci => (st, Returned ci)
      end
    end
  end.

(** ** Conditional resampling *)

(** The [x_cond] argument: a scalar, a 1-D or a 2-D array. *)
Inductive ndarray : Type :=
| Arr0 (x : R)
| Arr1 (v : Vec)
| Arr2 (M : Mat).

(** [np.atleast_2d(x_cond.T).T]: a 1-D array of length m becomes (m,1). *)
Definition atleast_2d_T_T (a : ndarray) : Mat :=
  match a with
  | Arr0 x => [[x]]
  | Arr1 v => map (fun x => [x]) v
  | Arr2 M => M
  end.

(** [np.setdiff1d(range(dim), dims)]: the sorted values of [range(dim)] that
    are not in [dims]. *)
Definition np_setdiff1d_range (dim : nat) (dims : list nat) : list nat :=
  filter (fun i => negb (existsb (Nat.eqb i) dims)) (seq 0 dim).

(** [v.max()] (NumPy raises on an empty array). *)
Definition vmax (v : Vec) : R :=
  match v with
  | [] => 0
  | x :: v' => fold_left Rmax v' x
  end.

(** [str(k)] for a non-negative integer. *)
Definition str_of_nat (k : nat) : string :=
  DecimalString.NilZero.string_of_uint (Nat.to_uint k).

(** The text printed on inconsistent dimensions. *)
Definition dims_message (shape0 shape1_ len : nat) : string :=
  ("Dimensions of x_cond (" ++ str_of_nat shape0 ++ ", " ++ str_of_nat shape1_
   ++ ") must be consistent with dims_cond (" ++ str_of_nat len ++ ")")%string.

(** [M.reshape(m, size, -1)] of a 2-D array of [m * size] rows. *)
Fixpoint chunks {A} (size m : nat) (l : list A) : list (list A) :=
  match m with
  | O => []
  | S m' => firstn size l :: chunks size m' (skipn size l)
  end.

(** [np.repeat(M, counts, axis=0)] for [counts] as long as [M] has rows
    (the generator returns one count per kernel). *)
Definition np_repeat_rows {A} (M : list A) (counts : list nat) : list A :=
  concat (zipw (fun r c => repeat r c) M counts).

(** The blocks of the kernel covariance:
    [A = cov[ix_(samp, samp)]], [B = cov[ix_(samp, cond)]],
    [C = cov[ix_(cond, cond)]]. *)
Definition block_A (cov : Mat) (dims_samp dims_cond : list nat) : Mat :=
  np_ix cov dims_samp dims_samp.
Definition block_B (cov : Mat) (dims_samp dims_cond : list nat) : Mat :=
  np_ix cov dims_samp dims_cond.
Definition block_C (cov : Mat) (dims_samp dims_cond : list nat) : Mat :=
  np_ix cov dims_cond dims_cond.

(** [ps]: [pdfs = np.exp(logpdfs.T - logpdfs.max(axis=1))] and
    [(pdfs / pdfs.sum(axis=0)).T]. *)
Definition kernel_probabilities (logpdfs : Mat) : Mat :=
  let maxs := map vmax logpdfs in
  let pdfs := map (fun r => map exp (zipw Rminus r maxs))
                  (transpose (shape1 logpdfs) logpdfs) in
  let sums := map (fun i => vsum (col pdfs i)) (seq 0 (shape1 pdfs)) in
  transpose (shape1 pdfs) (map (fun r => zipw Rdiv r sums) pdfs).

(** [cov = A - BCinv @ B.T] *)
Definition conditional_cov (A B BCinv : Mat) : Mat :=
  zipw (zipw Rminus) A (matmul (length B) BCinv (transpose (shape1 B) B)).

(** [mus = np.swapaxes(dataset[dims_samp] +
                       BCinv @ (x_cond[:,:,None] - dataset[dims_cond]), 1, 2)]:
    one (n, s) array of conditional means per query row. *)
Definition conditional_means (data : Mat) (dims_samp dims_cond : list nat)
    (BCinv x_cond : Mat) : Ten :=
  let nk := shape1 data in
  map (fun xi =>
         let diff := zipw (fun xb drow => map (fun v => xb - v) drow)
                          xi (take_rows data dims_cond) in
         transpose nk
           (zipw (zipw Rplus) (take_rows data dims_samp) (matmul nk BCinv diff)))
      x_cond.

Section Sampler.

Variable eigh : Mat -> Vec * Mat.

(** [np.linalg.inv]; [None] stands for the [LinAlgError] of a singular
    matrix. *)
Variable inv : Mat -> option Mat.

(** The random generator: its state, [check_random_state(seed)],
    [random_state.multinomial(size, p)] and
    [random_state.multivariate_normal(mean, cov, size=(m, size))]. *)
Variable RS : Type.
Variable Seed : Type.
Variable check_random_state : Seed -> RS.
Variable multinomial : RS -> nat -> Vec -> RS * list nat.
Variable multivariate_normal : RS -> Vec -> Mat -> nat * nat -> RS * Ten.

(** [counts = np.array([random_state.multinomial(size, p) for p in ps])] *)
Fixpoint draw_counts (rs : RS) (size : nat) (ps : Mat) : RS * list (list nat) :=
  match ps with
  | [] => (rs, [])
  | p :: ps' =>
    let '(rs1, c) := multinomial rs size p in
    let '(rs2, cs) := draw_counts rs1 size ps' in
    (rs2, c :: cs)
  end.

(** [conditional_resample(self, size, x_cond, dims_cond, seed=None)] *)
Definition conditional_resample (st : kde) (size : nat) (x_cond : ndarray)
    (dims_cond : list nat) (seed : Seed) : outcome Ten :=
  let x_cond := atleast_2d_T_T x_cond in
  if negb (shape1 x_cond =? length dims_cond)%nat then
    PrintedNone (dims_message (length x_cond) (shape1 x_cond) (length dims_cond))
  else
    let random_state := check_random_state seed in
    let dims_samp := np_setdiff1d_range (d st) dims_cond in
    match covariance st with
    | None => Raised AttributeError
    | Some cv =>
      let A := block_A cv dims_samp dims_cond in
      let B := block_B cv dims_samp dims_cond in
      let C := block_C cv dims_samp dims_cond in
      let logpdfs :=
        _mvn_logpdf eigh x_cond
          (transpose (shape1 (dataset st)) (take_rows (dataset st) dims_cond)) C in
      let ps := kernel_probabilities logpdfs in
      let '(random_state, counts) := draw_counts random_state size ps in
      match inv C with
      | None => Raised LinAlgError
      | Some Cinv =>
        let BCinv := matmul (shape1 Cinv) B Cinv in
        let cov := conditional_cov A B BCinv in
        let mus := conditional_means (dataset st) dims_samp dims_cond BCinv x_cond in
        (* [mus.reshape(-1, dims_samp.size)]: NumPy cannot infer the
           unknown dimension when the known one is zero. *)
        if (length dims_samp =? 0)%nat then Raised ValueError else
        let flat := concat mus in
        if negb (length flat =? length (concat counts))%nat then Raised ValueError
        else
          let repeated := np_repeat_rows flat (concat counts) in
          if negb (length repeated =? length x_cond * size)%nat then Raised ValueError
          else
            let mus := chunks size (length x_cond) repeated in
            let '(_, anoms) :=
              multivariate_normal random_state (repeat 0 (length cov)) cov
                                  (length x_cond, size) in
            Returned (zipw (zipw (zipw Rplus)) mus anoms)
      end
    end.

End Sampler.


(** ** The cross-validation objective as the specification words it *)

(** The covariance each [negloglike] closure hands to the evaluator for a
    trial factor [hh] and the train rows [Xfit]. *)
Definition trial_cov (t : string) (dim : nat) (hh : Vec) (Xfit : Mat) : Mat :=
  if String.eqb t "diagonal" then cov_diagonal hh
  else if String.eqb t "equal" then cov_equal dim hh
  else cov_scaled (np_cov (transpose (shape1 Xfit) Xfit) None) hh.

(** The Gaussian density of one kernel centred at [mu], evaluated at [x]. *)
Definition kernel_density (dim : nat) (s0 : Vec) (u : Mat) (x mu : Vec) : R :=
  exp (logpdf_pair dim x mu (floor_eigs s0) u).

(** Per-fold negative log-likelihood: the sum over the test points of
    [-log(density)], the density being the mean over the train kernels. *)
Definition fold_negloglike_spec (eigh : Mat -> Vec * Mat) (covf : Mat -> Mat)
    (dim : nat) (X : Mat) (f : Fold) : R :=
  let su := eigh (covf (take_rows X (train f))) in
  vsum (map (fun t =>
               - ln (vsum (map (fun r => kernel_density dim (fst su) (snd su)
                                                        (row X t) (row X r))
                               (train f))
                     / INR (length (train f))))
            (test f)).

(** The objective: the unweighted mean of the per-fold values. *)
Definition cv_objective_spec (eigh : Mat -> Vec * Mat) (covf : Mat -> Mat)
    (dim : nat) (X : Mat) (splits : list Fold) : R :=
  vsum (map (fold_negloglike_spec eigh covf dim X) splits) / INR (length splits).

(** The folds index rows of an array of [nn] rows. *)
Definition folds_in_range (nn : nat) (splits : list Fold) : Prop :=
  Forall (fun f => Forall (fun i => (i < nn)%nat) (train f) /\
                   Forall (fun i => (i < nn)%nat) (test f)) splits.

(** [eigh] returns [dim] eigenvalues and a (dim,dim) eigenvector matrix on
    the trial covariance of every fold. *)
Definition eigh_shapes (eigh : Mat -> Vec * Mat) (covf : Mat -> Mat) (dim : nat)
    (X : Mat) (splits : list Fold) : Prop :=
  Forall (fun f => let su := eigh (covf (take_rows X (train f))) in
                   is_vec dim (fst su) /\ is_mat dim dim (snd su)) splits.


(** ** Guards on the trial factor, as the specification words them *)

(** An objective [obj] with trial covariance [covb] treats a factor with a
    non-positive entry in one of the two ways the specification allows:
    its value is a fixed penalty, or the covariance is the one built from
    the factor clamped to a positive floor. *)
Definition penalised_or_clamped (obj : Vec -> R) (covb : Vec -> Mat) : Prop :=
  exists penalty floor_ : R,
    0 < floor_ /\
    forall hh, Exists (fun x => x <= 0) hh ->
      obj hh = penalty \/ covb hh = covb (map (fun x => Rmax x floor_) hh).

(** An objective that returns a penalty on a factor with a non-positive
    entry. *)
Definition has_nonpositive (hh : Vec) : bool :=
  existsb (fun x => if Rle_dec x 0 then true else false) hh.

Definition penalised (penalty : R) (obj : Vec -> R) (hh : Vec) : R :=
  if has_nonpositive hh then penalty else obj hh.


(** ** Properties of a fitted estimator *)

(** What the constructor leaves behind: [d] is the number of rows of the
    dataset, and the first [_compute_covariance] has cached the weighted
    data covariance and its Cholesky factor. *)
Definition fitted (st : kde) : Prop :=
  length (dataset st) = d st /\
  _data_covariance st = Some (np_cov (dataset st) (Some (weights st))) /\
  _data_cho_cov st <> None.


(** The three bandwidth types of the cross-validated selection. *)
Definition cv_type (t : string) : Prop :=
  t = "diagonal"%string \/ t = "covariance"%string \/ t = "equal"%string.


(** ** Contracts of the random generator and validity of a query *)

(** A vector of probabilities. *)
Definition is_probability (p : Vec) : Prop :=
  Forall (fun x => 0 <= x) p /\ vsum p = 1.

(** [multinomial(size, p)] returns one count per entry of [p], and the
    counts add up to [size]. *)
Definition multinomial_contract {RS : Type}
    (multinomial : RS -> nat -> Vec -> RS * list nat) : Prop :=
  forall rs size p, is_probability p ->
    length (snd (multinomial rs size p)) = length p /\
    list_sum (snd (multinomial rs size p)) = size.

(** [multivariate_normal(mean, cov, size=(m, size))] returns an array of
    shape (m, size, len(mean)). *)
Definition multivariate_normal_contract {RS : Type}
    (multivariate_normal : RS -> Vec -> Mat -> nat * nat -> RS * Ten) : Prop :=
  forall rs mean cov m size,
    is_mat (length mean) (length mean) cov ->
    is_ten m size (length mean) (snd (multivariate_normal rs mean cov (m, size))).

(** Entry (i, j, a) of a 3-D array. *)
Definition ten_entry (T : Ten) (i j a : nat) : R := entry (nth i T []) j a.

(** A valid conditional query on a fitted model: the kernel covariance [cv]
    is set and (d,d), the dataset is (d,n) with at least one point, the
    conditioning values form an (m,c) array with at least one row, and the
    [c] conditioning dimensions are distinct indices below [d] that leave at
    least one dimension to sample. *)
Definition valid_query (st : kde) (cv x_cond : Mat) (dims_cond : list nat)
    (m nk : nat) : Prop :=
  covariance st = Some cv /\
  is_mat (d st) (d st) cv /\
  is_mat (d st) nk (dataset st) /\ (0 < nk)%nat /\
  is_mat m (length dims_cond) x_cond /\ (0 < m)%nat /\
  NoDup dims_cond /\
  Forall (fun i => (i < d st)%nat) dims_cond /\
  (length dims_cond < d st)%nat.

(** [Cinv] is the inverse of the (c,c) matrix [C]: what [np.linalg.inv(C)]
    returns when [C] is not singular. *)
Definition inverse_of (c : nat) (C Cinv : Mat) : Prop :=
  is_mat c c Cinv /\
  (forall a b, (a < c)%nat -> (b < c)%nat ->
     sum_n c (fun e => entry Cinv a e * entry C e b)
     = if Nat.eqb a b then 1 else 0) /\
  (forall a b, (a < c)%nat -> (b < c)%nat ->
     sum_n c (fun e => entry C a e * entry Cinv e b)
     = if Nat.eqb a b then 1 else 0).

(** ** Concrete services and estimators for the examples *)

(** An eigendecomposition of a diagonal matrix: its diagonal and the
    identity. *)
Definition eigh_diagonal (c : Mat) : Vec * Mat := (diag_of c, np_eye (length c)).

(** The eigendecomposition of [[2, 1], [1, 2]]: eigenvalues 1 and 3 with
    the eigenvectors (1,-1)/sqrt(2) and (1,1)/sqrt(2) as columns. *)
Definition eigh_2_1_1_2 (c : Mat) : Vec * Mat :=
  ([1; 3], [[/ sqrt 2; / sqrt 2]; [- / sqrt 2; / sqrt 2]]).

(** A Cholesky factorisation of 1-by-1 matrices. *)
Definition cholesky_1x1 (c : Mat) : option Mat :=
  if Rlt_dec 0 (entry c 0 0) then Some [[sqrt (entry c 0 0)]] else None.

(** The inverse of a 1-by-1 matrix. *)
Definition inv_1x1 (c : Mat) : option Mat :=
  if Req_dec_T (entry c 0 0) 0 then None else Some [[/ entry c 0 0]].

(** An optimiser that stops at its starting point. *)
Definition minimize_at_start (f : Vec -> R) (x0 : Vec) : Vec * R := (x0, f x0).

(** A generator that assigns every draw to the first kernel and adds no
    noise. *)
Definition multinomial_first (rs : unit) (size : nat) (p : Vec) : unit * list nat :=
  (rs, match p with [] => [] | _ :: p' => size :: repeat O (length p') end).

Definition multivariate_normal_zero (rs : unit) (mean : Vec) (cov : Mat)
    (shape : nat * nat) : unit * Ten :=
  (rs, repeat (repeat (map (fun _ => 0) mean) (snd shape)) (fst shape)).

(** The one-dimensional estimator over the two points 0 and 1 as the
    constructor sets it up before the first [set_bandwidth]. *)
Definition two_point_kde : kde :=
  mk_kde [[0; 1]] 1 2 [1 / 2; 1 / 2] None
         CF_scotts None None None None None None None None.

(** The estimator over the points 0 and 1 after a cross-validated selection
    of type [t] that stored the factor [f]. *)
Definition two_point_cv_kde (t : string) (f : Vec) : kde :=
  mk_kde [[0; 1]] 1 2 [1 / 2; 1 / 2] (Some t) CF_h (Some f) None None
         (Some (np_cov [[0; 1]] (Some [1 / 2; 1 / 2]))) (Some [[sqrt (1 / 2)]])
         None None None.


(** A two-dimensional estimator on three points whose kernel covariance is
    the identity: type [equal] with the factor 1.  The data covariance is
    [[7/3, 1/2], [1/2, 1]]. *)
Definition three_point_kde : kde :=
  mk_kde [[0; 1; 3]; [0; 2; 1]] 2 3 [1 / 3; 1 / 3; 1 / 3]
         (Some "equal"%string) CF_h (Some [1]) None (Some [1])
         (Some (np_cov [[0; 1; 3]; [0; 2; 1]] (Some [1 / 3; 1 / 3; 1 / 3])))
         (Some [[sqrt (7 / 3); 0]; [1 / 2 / sqrt (7 / 3); sqrt (25 / 28)]])
         (Some [[1; 0]; [0; 1]]) (Some [[1; 0]; [0; 1]])
         (Some (2 * (ln (sqrt (2 * PI)) + ln (sqrt (2 * PI))))).

(** The same three points with SciPy's scalar factor 1: the kernel
    covariance is the data covariance [[7/3, 1/2], [1/2, 1]], whose
    off-diagonal entries are not zero. *)
Definition three_point_full_kde : kde :=
  mk_kde [[0; 1; 3]; [0; 2; 1]] 2 3 [1 / 3; 1 / 3; 1 / 3]
         (Some "covariance_original"%string) (CF_const 1) None None (Some [1])
         (Some (np_cov [[0; 1; 3]; [0; 2; 1]] (Some [1 / 3; 1 / 3; 1 / 3])))
         (Some [[sqrt (7 / 3); 0]; [1 / 2 / sqrt (7 / 3); sqrt (25 / 28)]])
         (Some [[7 / 3; 1 / 2]; [1 / 2; 1]])
         (Some [[sqrt (7 / 3); 0]; [1 / 2 / sqrt (7 / 3); sqrt (25 / 28)]])
         (Some (2 * (ln (sqrt (7 / 3) * sqrt (2 * PI))
                     + ln (sqrt (25 / 28) * sqrt (2 * PI))))).


(** * Part II: lemmas and theorems *)

(** ** Lemmas on arrays *)

Lemma vsum_app (a b : Vec) : vsum (a ++ b) = vsum a + vsum b.
Proof.
  unfold vsum. induction a as [|x a IH]; simpl; [lra | rewrite IH; lra].
Qed.

Lemma vsum_map_ext {A} (f g : A -> R) (l : list A) :
  (forall x, In x l -> f x = g x) -> vsum (map f l) = vsum (map g l).
Proof.
  intros H. f_equal. apply map_ext_in. exact H.
Qed.

Lemma map_nth_seq {A} (l : list A) (dflt : A) :
  map (fun i => nth i l dflt) (seq 0 (length l)) = l.
Proof.
  induction l as [|x l IH]; simpl; [reflexivity|].
  f_equal. rewrite <- seq_shift, map_map. exact IH.
Qed.

Lemma vsum_as_sum_n (v : Vec) : vsum v = sum_n (length v) (fun i => nth i v 0).
Proof. unfold sum_n. now rewrite map_nth_seq. Qed.

Lemma zipw_length {A B C} (f : A -> B -> C) (a : list A) (b : list B) :
  length (zipw f a b) = Nat.min (length a) (length b).
Proof.
  revert b. induction a as [|x a IH]; intros [|y b]; simpl; auto.
Qed.

Lemma zipw_nth (f : R -> R -> R) (a b : Vec) (i : nat) :
  (i < length a)%nat -> (i < length b)%nat ->
  nth i (zipw f a b) 0 = f (nth i a 0) (nth i b 0).
Proof.
  revert b i. induction a as [|x a IH]; intros [|y b] [|i]; simpl; intros;
    try lia; auto.
  apply IH; lia.
Qed.

Lemma vsum_zipw (f : R -> R -> R) (a b : Vec) (n : nat) :
  length a = n -> length b = n ->
  vsum (zipw f a b) = sum_n n (fun i => f (nth i a 0) (nth i b 0)).
Proof.
  intros Ha Hb. rewrite vsum_as_sum_n, zipw_length, Ha, Hb, Nat.min_id.
  unfold sum_n. apply vsum_map_ext. intros i Hi. apply in_seq in Hi.
  apply zipw_nth; lia.
Qed.

Lemma is_mat_row m n A i : is_mat m n A -> (i < m)%nat -> length (row A i) = n.
Proof.
  intros [Hl Hf] Hi. unfold row.
  rewrite Forall_forall in Hf. apply Hf, nth_In. lia.
Qed.

Lemma col_length A c : length (col A c) = length A.
Proof. unfold col. apply length_map. Qed.

Lemma nth_map_in {A B} (f : A -> B) (l : list A) (i : nat) (da : A) (db : B) :
  (i < length l)%nat -> nth i (map f l) db = f (nth i l da).
Proof.
  revert i. induction l as [|x l IH]; intros [|i] Hi; simpl in *; try lia; auto.
  apply IH. lia.
Qed.

Lemma col_nth A c a : nth a (col A c) 0 = entry A a c.
Proof.
  unfold col, entry, row.
  destruct (Nat.lt_ge_cases a (length A)) as [Hlt|Hge].
  - now rewrite (nth_map_in _ _ a []).
  - rewrite (nth_overflow (map _ A)) by (rewrite length_map; lia).
    rewrite (nth_overflow A) by lia. now destruct c.
Qed.

Lemma nth_map_seq {A} (f : nat -> A) (n i : nat) (dflt : A) :
  (i < n)%nat -> nth i (map f (seq 0 n)) dflt = f i.
Proof.
  intros Hi. rewrite (nth_map_in _ _ i O) by (now rewrite length_seq).
  now rewrite seq_nth.
Qed.

Lemma vecmat_nth n r U c :
  (c < n)%nat -> is_mat (length r) n U ->
  nth c (vecmat n r U) 0 = sum_n (length r) (fun a => nth a r 0 * entry U a c).
Proof.
  intros Hc [HU _]. unfold vecmat. rewrite nth_map_seq by assumption.
  rewrite (vsum_zipw _ _ _ (length r)); auto.
  - unfold sum_n. apply vsum_map_ext. intros a _. now rewrite col_nth.
  - now rewrite col_length.
Qed.

Lemma vecmat_length n r U : length (vecmat n r U) = n.
Proof. unfold vecmat. now rewrite length_map, length_seq. Qed.

Lemma nth2_map_map {A} (f : A -> R) (T : list (list A)) (i j : nat) (da : A) :
  (i < length T)%nat -> (j < length (nth i T []))%nat ->
  nth j (nth i (map (map f) T) []) 0 = f (nth j (nth i T []) da).
Proof.
  intros Hi Hj. rewrite (nth_map_in (map f) T i []) by assumption.
  now apply nth_map_in.
Qed.

Lemma is_mat_map_map {A} (f : A -> R) (T : list (list A)) m p :
  length T = m -> Forall (fun r => length r = p) T ->
  is_mat m p (map (map f) T).
Proof.
  intros Hl Hf. split; [now rewrite length_map|].
  apply Forall_map. eapply Forall_impl; [|exact Hf].
  intros r Hr. unfold is_vec. now rewrite length_map.
Qed.

(** ** The evaluator against the closed form *)

Lemma shape1_is_mat (m k : nat) (M : Mat) :
  is_mat m k M -> (0 < m)%nat -> shape1 M = k.
Proof.
  intros [Hl Hf] Hm. destruct M as [|r M]; simpl in *; [lia|].
  now inversion Hf.
Qed.

Lemma shape1_square (c : nat) (M : Mat) : is_mat c c M -> shape1 M = c.
Proof.
  intros HM. destruct c as [|c].
  - destruct HM as [Hl _]. destruct M; [reflexivity | discriminate].
  - apply (shape1_is_mat (S c) (S c)); [assumption | lia].
Qed.

Lemma logpdf_pair_agree (dim : nat) (xi muj s : Vec) (u : Mat) :
  length xi = dim -> length muj = dim -> length s = dim -> is_mat dim dim u ->
  -0.5 * (INR dim * ln (2 * PI) + vsum (map ln s)
          + vsum (zipw Rdiv (map Rsqr (vecmat (shape1 u) (zipw Rminus xi muj) u)) s))
  = logpdf_pair dim xi muj s u.
Proof.
  intros Hxi Hmj Hs Hu. rewrite (shape1_square dim u Hu).
  unfold logpdf_pair. f_equal. f_equal; [f_equal|].
  - rewrite vsum_as_sum_n, length_map, Hs. unfold sum_n.
    apply vsum_map_ext. intros c Hc. apply in_seq in Hc.
    apply nth_map_in. lia.
  - unfold maha_pair.
    rewrite (vsum_zipw _ _ _ dim);
      [| now rewrite length_map, vecmat_length | assumption].
    unfold sum_n. apply vsum_map_ext. intros c Hc. apply in_seq in Hc.
    f_equal. rewrite (nth_map_in _ _ c 0) by (rewrite vecmat_length; lia).
    f_equal. rewrite vecmat_nth.
    + rewrite zipw_length, Hxi, Hmj, Nat.min_id. unfold sum_n.
      apply vsum_map_ext. intros a Ha. apply in_seq in Ha.
      f_equal. apply zipw_nth; lia.
    + lia.
    + now rewrite zipw_length, Hxi, Hmj, Nat.min_id.
Qed.

Section MvnCorrect.

Variable eigh : Mat -> Vec * Mat.

Lemma mvn_logpdf_shape (x mu cov : Mat) :
  is_mat (length x) (length mu) (_mvn_logpdf eigh x mu cov).
Proof.
  unfold _mvn_logpdf. destruct (eigh cov) as [s0 u].
  split.
  - now rewrite !length_map.
  - rewrite !Forall_map. apply Forall_forall. intros xi _.
    unfold is_vec. now rewrite !length_map.
Qed.

Lemma mvn_logpdf_rows (x mu cov : Mat) (s0 : Vec) (u : Mat) (dim : nat) :
  Forall (is_vec dim) x -> Forall (is_vec dim) mu ->
  eigh cov = (s0, u) -> is_vec dim s0 -> is_mat dim dim u ->
  _mvn_logpdf eigh x mu cov
  = map (fun xi => map (fun muj => logpdf_pair dim xi muj (floor_eigs s0) u) mu) x.
Proof.
  intros Hx Hmu He Hs Hu. unfold _mvn_logpdf. rewrite He, !map_map.
  rewrite Forall_forall in Hx, Hmu.
  apply map_ext_in. intros xi Hxi. rewrite !map_map.
  apply map_ext_in. intros muj Hmuj.
  assert (Hk : shape1 mu = dim).
  { destruct mu as [|r0 mu']; [contradiction|]. apply Hmu. now left. }
  rewrite Hk. apply logpdf_pair_agree; auto.
  - now apply Hx.
  - now apply Hmu.
  - unfold floor_eigs. now rewrite length_map.
Qed.

Lemma mvn_logpdf_entry (x mu cov : Mat) (s0 : Vec) (u : Mat) (m p dim i j : nat) :
  is_mat m dim x -> is_mat p dim mu ->
  eigh cov = (s0, u) -> is_vec dim s0 -> is_mat dim dim u ->
  (i < m)%nat -> (j < p)%nat ->
  entry (_mvn_logpdf eigh x mu cov) i j
  = logpdf_pair dim (row x i) (row mu j) (floor_eigs s0) u.
Proof.
  intros [Hxl Hx] [Hml Hmu] He Hs Hu Hi Hj.
  rewrite (mvn_logpdf_rows x mu cov s0 u dim) by assumption.
  unfold entry, row.
  rewrite (nth_map_in _ x i []) by lia.
  now rewrite (nth_map_in _ mu j []) by lia.
Qed.

End MvnCorrect.

(** ** Lemmas on k-fold splitting *)

Local Open Scope nat_scope.

Lemma cumsum_from_length acc l : length (cumsum_from acc l) = length l.
Proof. revert acc. induction l; intros; simpl; auto. Qed.

Lemma cumsum_from_nth acc l i :
  i < length l ->
  nth i (cumsum_from acc l) 0 = acc + list_sum (firstn (S i) l).
Proof.
  revert acc i. induction l as [|x l IH]; intros acc i Hi; simpl in *; [lia|].
  destruct i as [|i].
  - destruct l; simpl; lia.
  - rewrite IH by lia. simpl. lia.
Qed.

Lemma list_sum_repeat a n : list_sum (repeat a n) = n * a.
Proof. induction n; simpl; lia. Qed.

Lemma firstn_repeat {A} (a : A) n i : firstn i (repeat a n) = repeat a (Nat.min i n).
Proof.
  revert i. induction n; intros [|i]; simpl; auto. now rewrite IHn.
Qed.

Lemma div_point_nth n k i :
  i <= k ->
  nth i (np_cumsum (section_sizes n k)) 0 = block_start n k i.
Proof.
  intros Hi. unfold np_cumsum, section_sizes.
  rewrite cumsum_from_nth
    by (simpl; rewrite length_app, !repeat_length; lia).
  simpl. rewrite firstn_app, list_sum_app, !firstn_repeat, !list_sum_repeat,
    repeat_length.
  unfold block_start.
  generalize (n / k) (n mod k). intros q r.
  destruct (Nat.min_spec i r) as [[? ->]|[? ->]];
    destruct (Nat.min_spec (i - r) (k - r)) as [[? ->]|[? ->]]; nia.
Qed.

Lemma block_start_succ n k j :
  block_start n k (S j) = block_start n k j + block_size n k j.
Proof.
  unfold block_start, block_size.
  destruct (Nat.ltb_spec j (n mod k)); lia.
Qed.

Lemma block_start_last n k : 0 < k -> block_start n k k = n.
Proof.
  intros Hk. unfold block_start.
  assert (n mod k < k) by (apply Nat.mod_upper_bound; lia).
  rewrite Nat.min_r by lia.
  pose proof (Nat.div_mod_eq n k). lia.
Qed.

Lemma block_start_mono n k i j : i <= j -> block_start n k i <= block_start n k j.
Proof.
  induction 1; [lia|]. rewrite block_start_succ. lia.
Qed.

Lemma firstn_seq_le a len m : m <= len -> firstn m (seq a len) = seq a m.
Proof.
  revert a len. induction m as [|m IH]; intros a [|len] H; simpl; try lia; auto.
  f_equal. apply IH. lia.
Qed.

Lemma slice_seq n st en :
  st <= en -> en <= n -> slice (seq 0 n) st en = seq st (en - st).
Proof.
  intros H1 H2. unfold slice. rewrite skipn_seq, firstn_seq_le by lia.
  reflexivity.
Qed.

Lemma array_split_blocks n k :
  0 < k ->
  np_array_split (np_arange n) k = Some (map (block n k) (seq 0 k)).
Proof.
  intros Hk. unfold np_array_split, np_arange.
  destruct (Nat.eqb_spec k 0); [lia|]. f_equal.
  apply map_ext_in. intros j Hj. apply in_seq in Hj.
  rewrite length_seq, !div_point_nth by lia.
  replace (j + 1) with (S j) by lia.
  rewrite slice_seq.
  - unfold block. f_equal. rewrite block_start_succ. lia.
  - apply block_start_mono. lia.
  - rewrite <- (block_start_last n k) at 2 by lia. apply block_start_mono. lia.
Qed.

Lemma blocks_concat n k j :
  j <= k -> concat (map (block n k) (seq 0 j)) = seq 0 (block_start n k j).
Proof.
  induction j as [|j IH]; intros Hj; [reflexivity|].
  rewrite seq_S, map_app, concat_app, IH by lia. simpl.
  rewrite app_nil_r, block_start_succ, seq_app. reflexivity.
Qed.

Lemma in_block n k j i :
  In i (block n k j) <-> block_start n k j <= i < block_start n k (S j).
Proof.
  unfold block. rewrite in_seq, block_start_succ. lia.
Qed.

Lemma in_block_unique n k j1 j2 i :
  In i (block n k j1) -> In i (block n k j2) -> j1 = j2.
Proof.
  rewrite !in_block. intros H1 H2.
  destruct (Nat.lt_trichotomy j1 j2) as [H|[H|H]]; auto; exfalso.
  - pose proof (block_start_mono n k (S j1) j2 ltac:(lia)). lia.
  - pose proof (block_start_mono n k (S j2) j1 ltac:(lia)). lia.
Qed.

Lemma in_block_exists n k i :
  0 < k -> i < n -> exists j, j < k /\ In i (block n k j).
Proof.
  intros Hk Hi.
  assert (Hin : In i (concat (map (block n k) (seq 0 k)))).
  { rewrite blocks_concat, block_start_last by lia. apply in_seq. lia. }
  apply in_concat in Hin. destruct Hin as [b [Hb Hib]].
  apply in_map_iff in Hb. destruct Hb as [j [<- Hj]].
  apply in_seq in Hj. exists j. split; [lia | assumption].
Qed.

Lemma in_block_bound n k j i : 0 < k -> j < k -> In i (block n k j) -> i < n.
Proof.
  intros Hk Hj Hin. apply in_block in Hin.
  pose proof (block_start_mono n k (S j) k ltac:(lia)).
  rewrite block_start_last in H by lia. lia.
Qed.

Lemma comprehension_all_some {A B} (f : A -> B) (l : list A) :
  comprehension (map (fun x => Some (f x)) l) = Some (map f l).
Proof.
  induction l as [|x l IH]; [reflexivity|]. simpl. now rewrite IH.
Qed.

Lemma np_concatenate_nonempty {A} (arrays : list (list A)) :
  arrays <> [] -> np_concatenate arrays = Some (concat arrays).
Proof. destruct arrays; [contradiction | reflexivity]. Qed.

Lemma other_folds_nonempty j k :
  2 <= k -> j < k -> filter (fun i => negb (i =? j)) (seq 0 k) <> [].
Proof.
  intros Hk Hj Hnil.
  assert (Hin : In (if j =? 0 then 1 else 0)
                   (filter (fun i => negb (i =? j)) (seq 0 k))).
  { apply filter_In. split.
    - apply in_seq. destruct (j =? 0); lia.
    - destruct (Nat.eqb_spec j 0) as [->|Hne]; [reflexivity|].
      apply negb_true_iff, Nat.eqb_neq. lia. }
  rewrite Hnil in Hin. contradiction.
Qed.

Lemma kfold_split_eq {A} (X : list A) k :
  2 <= k ->
  kfold_split X k =
  Some (map (fun j =>
               (concat (map (block (length X) k)
                            (filter (fun i => negb (i =? j)) (seq 0 k))),
                block (length X) k j))
            (seq 0 k)).
Proof.
  intros Hk. unfold kfold_split. rewrite array_split_blocks by lia.
  rewrite <- comprehension_all_some. f_equal.
  apply map_ext_in. intros j Hj. apply in_seq in Hj.
  rewrite np_concatenate_nonempty.
  - f_equal. f_equal.
    + f_equal. apply map_ext_in. intros i Hi. apply filter_In in Hi.
      destruct Hi as [Hi _]. apply in_seq in Hi.
      rewrite (nth_map_in _ _ i 0) by (rewrite length_seq; lia).
      now rewrite seq_nth by lia.
    + rewrite (nth_map_in _ _ j 0) by (rewrite length_seq; lia).
      now rewrite seq_nth by lia.
  - intros Hnil. apply map_eq_nil in Hnil.
    apply (other_folds_nonempty j k); [assumption | lia | assumption].
Qed.

Lemma kfold_split_too_few {A} (X : list A) k : k <= 1 -> kfold_split X k = None.
Proof.
  intros Hk. destruct k as [|[|k]]; [reflexivity | | lia].
  unfold kfold_split.
  destruct (np_array_split (np_arange (length X)) 1); reflexivity.
Qed.


Local Close Scope nat_scope.

(** ** Sums over index ranges and the spectral form of the distance *)

Lemma vsum_map_plus {A} (f g : A -> R) (l : list A) :
  vsum (map (fun x => f x + g x) l) = vsum (map f l) + vsum (map g l).
Proof.
  induction l as [|x l IH]; simpl; [lra|]. rewrite IH. lra.
Qed.

Lemma vsum_map_scale {A} (k : R) (f : A -> R) (l : list A) :
  vsum (map (fun x => k * f x) l) = k * vsum (map f l).
Proof.
  induction l as [|x l IH]; simpl; [lra|]. rewrite IH. lra.
Qed.

Lemma vsum_map_zero {A} (l : list A) : vsum (map (fun _ => 0) l) = 0.
Proof. induction l as [|x l IH]; simpl; [reflexivity|]. rewrite IH. lra. Qed.

Lemma vsum_map_swap {A B} (f : A -> B -> R) (l1 : list A) (l2 : list B) :
  vsum (map (fun a => vsum (map (fun c => f a c) l2)) l1)
  = vsum (map (fun c => vsum (map (fun a => f a c) l1)) l2).
Proof.
  induction l1 as [|a l1 IH]; simpl.
  - now rewrite vsum_map_zero.
  - rewrite IH, <- vsum_map_plus. reflexivity.
Qed.

Lemma sum_n_ext (k : nat) (f g : nat -> R) :
  (forall i, (i < k)%nat -> f i = g i) -> sum_n k f = sum_n k g.
Proof.
  intros H. unfold sum_n. apply vsum_map_ext. intros i Hi.
  apply in_seq in Hi. apply H. lia.
Qed.

Lemma sum_n_swap (k1 k2 : nat) (f : nat -> nat -> R) :
  sum_n k1 (fun a => sum_n k2 (fun c => f a c))
  = sum_n k2 (fun c => sum_n k1 (fun a => f a c)).
Proof. unfold sum_n. apply vsum_map_swap. Qed.

Lemma sum_n_scale (k : nat) (x : R) (f : nat -> R) :
  sum_n k (fun i => x * f i) = x * sum_n k f.
Proof. unfold sum_n. apply vsum_map_scale. Qed.

Lemma sum_n_scale_r (k : nat) (x : R) (f : nat -> R) :
  sum_n k (fun i => f i * x) = sum_n k f * x.
Proof.
  rewrite Rmult_comm, <- sum_n_scale. apply sum_n_ext. intros i _. lra.
Qed.

Lemma vsum_delta (c : nat) (g : nat -> R) (a k : nat) :
  vsum (map (fun c' => (if Nat.eqb c' c then 1 else 0) * g c') (seq a k))
  = if (a <=? c)%nat && (c <? a + k)%nat then g c else 0.
Proof.
  revert a. induction k as [|k IH]; intros a; simpl.
  - destruct (Nat.leb_spec a c), (Nat.ltb_spec c (a + 0)); simpl; try reflexivity; lia.
  - rewrite IH.
    destruct (Nat.eqb_spec a c) as [->|Hne].
    + rewrite (proj2 (Nat.leb_gt (S c) c)) by lia. simpl.
      rewrite Nat.leb_refl.
      rewrite (proj2 (Nat.ltb_lt c (c + S k))) by lia. simpl. lra.
    + destruct (Nat.leb_spec (S a) c), (Nat.leb_spec a c),
        (Nat.ltb_spec c (S a + k)), (Nat.ltb_spec c (a + S k));
        simpl; try lra; lia.
Qed.

Lemma sum_n_delta (k c : nat) (g : nat -> R) :
  (c < k)%nat ->
  sum_n k (fun c' => (if Nat.eqb c' c then 1 else 0) * g c') = g c.
Proof.
  intros Hc. unfold sum_n. rewrite vsum_delta. simpl.
  now rewrite (proj2 (Nat.ltb_lt c k)) by assumption.
Qed.

(** With orthonormal eigenvectors, the sum of squared projections divided
    by the eigenvalues is the quadratic form of the residual with the
    inverse of [u @ diag(s) @ u.T]: for the [y] that this matrix maps to the
    residual, it equals residual . y. *)
Lemma maha_pair_quadratic_form (dim : nat) (xi muj s y : Vec) (u : Mat) :
  orthonormal_columns dim u ->
  (forall c, (c < dim)%nat -> nth c s 0 <> 0) ->
  (forall a, (a < dim)%nat ->
     spectral_apply dim s u y a = nth a xi 0 - nth a muj 0) ->
  maha_pair dim xi muj s u
  = sum_n dim (fun a => (nth a xi 0 - nth a muj 0) * nth a y 0).
Proof.
  intros Hou Hs Hy.
  set (z := fun c => sum_n dim (fun b => entry u b c * nth b y 0)).
  assert (Hproj : forall c, (c < dim)%nat ->
            sum_n dim (fun a => (nth a xi 0 - nth a muj 0) * entry u a c)
            = nth c s 0 * z c).
  { intros c Hc.
    rewrite (sum_n_ext dim _
               (fun a => sum_n dim (fun c' =>
                  (entry u a c' * entry u a c) * (nth c' s 0 * z c')))).
    - rewrite sum_n_swap.
      rewrite (sum_n_ext dim _
                 (fun c' => (if Nat.eqb c' c then 1 else 0) * (nth c' s 0 * z c'))).
      + now apply sum_n_delta.
      + intros c' Hc'. rewrite <- (Hou c' c Hc' Hc).
        rewrite <- sum_n_scale_r. apply sum_n_ext. intros a _. reflexivity.
    - intros a Ha. rewrite <- (Hy a Ha). unfold spectral_apply.
      rewrite <- sum_n_scale_r. apply sum_n_ext. intros c' _. unfold z. ring. }
  unfold maha_pair.
  rewrite (sum_n_ext dim _ (fun c => nth c s 0 * z c * z c)).
  - rewrite (sum_n_ext dim (fun a => (nth a xi 0 - nth a muj 0) * nth a y 0)
               (fun a => sum_n dim (fun c =>
                  (nth c s 0 * z c) * (entry u a c * nth a y 0)))).
    + rewrite sum_n_swap. apply sum_n_ext. intros c _.
      rewrite sum_n_scale. reflexivity.
    + intros a Ha. rewrite <- (Hy a Ha). unfold spectral_apply.
      rewrite <- sum_n_scale_r. apply sum_n_ext. intros c _. unfold z. ring.
  - intros c Hc. rewrite (Hproj c Hc). unfold Rsqr. field. now apply Hs.
Qed.

Lemma floor_eigs_nonzero (s0 : Vec) (c : nat) :
  (c < length s0)%nat -> nth c (floor_eigs s0) 0 <> 0.
Proof.
  intros Hc. unfold floor_eigs. rewrite (nth_map_in _ _ c 0) by assumption.
  pose proof (Rabs_pos (nth c s0 0)).
  assert (0 < spacing1) by (unfold spacing1; apply Rinv_0_lt_compat, pow_lt; lra).
  lra.
Qed.


(** ** C1 *)

Lemma sum_n_plus (k : nat) (f g : nat -> R) :
  sum_n k (fun i => f i + g i) = sum_n k f + sum_n k g.
Proof. unfold sum_n. apply vsum_map_plus. Qed.

Lemma spectral_apply_rebuilt (dim : nat) (s : Vec) (u : Mat) (y : Vec) (a : nat) :
  spectral_apply dim s u y a
  = sum_n dim (fun b => rebuilt dim s u a b * nth b y 0).
Proof.
  unfold spectral_apply, rebuilt.
  rewrite (sum_n_ext dim (fun b => sum_n dim (fun c =>
                            entry u a c * nth c s 0 * entry u b c) * nth b y 0)
             (fun b => sum_n dim (fun c =>
                         entry u a c * nth c s 0 * entry u b c * nth b y 0)))
    by (intros b _; now rewrite <- sum_n_scale_r).
  rewrite sum_n_swap. apply sum_n_ext. intros c _.
  rewrite <- sum_n_scale. rewrite <- sum_n_scale.
  apply sum_n_ext. intros b _. ring.
Qed.

Lemma rebuilt_floored (dim : nat) (cov : Mat) (s0 : Vec) (u : Mat) (a b : nat) :
  eigendecomposition dim cov s0 u ->
  Forall (fun e => 0 <= e) s0 ->
  (a < dim)%nat -> (b < dim)%nat ->
  rebuilt dim (map (fun e => Rabs e + / 2 ^ 52) s0) u a b
  = entry cov a b + (if Nat.eqb a b then / 2 ^ 52 else 0).
Proof.
  intros [Hs [Hu [_ [Hrows Hcov]]]] Hpos Ha Hb.
  assert (Hd : (if Nat.eqb a b then / 2 ^ 52 else 0)
               = / 2 ^ 52 * (if Nat.eqb a b then 1 else 0))
    by (destruct (Nat.eqb a b); ring).
  rewrite Hd, (Hcov a b Ha Hb), <- (Hrows a b Ha Hb), <- sum_n_scale.
  unfold rebuilt. rewrite <- sum_n_plus.
  apply sum_n_ext. intros c Hc. unfold is_vec in Hs.
  rewrite (nth_map_in _ _ c 0) by lia.
  rewrite Rabs_right.
  - ring.
  - apply Rle_ge. rewrite Forall_forall in Hpos. apply Hpos, nth_In. lia.
Qed.

(** C1 (as the code has it).  For an (m,d) array [x], a (p,d) array [mu]
    and a (d,d) covariance [cov] of which [eigh] returns an
    eigendecomposition [cov = u @ diag(s0) @ u.T], [_mvn_logpdf] returns an
    (m,p) array whose entry (i,j) is
    [-0.5 * (d*log(2*pi) + sum(log s) + maha)] with the floored eigenvalues
    [s = |s0| + 2^-52] and [maha] the sum over the eigen-directions of the
    squared projected residual divided by [s].  That is the log-density of
    the normal distribution with mean [mu[j]] and covariance
    [cov' = u @ diag(s) @ u.T]: [maha] is the quadratic form of the residual
    with the inverse of [cov'].  For a positive semi-definite [cov],
    [cov' = cov + 2^-52 * I]; the entry is the log-density under [cov'],
    not under [cov]. *)
Theorem mvn_logpdf_closed_form
    (eigh : Mat -> Vec * Mat) (x mu cov : Mat) (s0 : Vec) (u : Mat) (m p dim : nat) :
  is_mat m dim x -> is_mat p dim mu ->
  eigh cov = (s0, u) -> eigendecomposition dim cov s0 u ->
  let s := map (fun e => Rabs e + / 2 ^ 52) s0 in
  is_mat m p (_mvn_logpdf eigh x mu cov) /\
  (forall i j, (i < m)%nat -> (j < p)%nat ->
     entry (_mvn_logpdf eigh x mu cov) i j
     = -0.5 * (INR dim * ln (2 * PI) + sum_n dim (fun c => ln (nth c s 0))
               + maha_pair dim (row x i) (row mu j) s u)) /\
  (forall i j y, (i < m)%nat -> (j < p)%nat ->
     (forall a, (a < dim)%nat ->
        sum_n dim (fun b => rebuilt dim s u a b * nth b y 0)
        = nth a (row x i) 0 - nth a (row mu j) 0) ->
     maha_pair dim (row x i) (row mu j) s u
     = sum_n dim (fun a => (nth a (row x i) 0 - nth a (row mu j) 0) * nth a y 0)) /\
  (Forall (fun e => 0 <= e) s0 ->
   forall a b, (a < dim)%nat -> (b < dim)%nat ->
     rebuilt dim s u a b = entry cov a b + (if Nat.eqb a b then / 2 ^ 52 else 0)).
Proof.
  intros Hx Hmu He Hdec s.
  pose proof Hdec as [Hs [Hu [Hou _]]].
  split; [|split; [|split]].
  - destruct Hx as [<- _]. destruct Hmu as [<- _]. apply mvn_logpdf_shape.
  - intros i j Hi Hj.
    now rewrite (mvn_logpdf_entry eigh x mu cov s0 u m p dim).
  - intros i j y Hi Hj Hy. apply maha_pair_quadratic_form; auto.
    + intros c Hc. apply floor_eigs_nonzero. unfold is_vec in Hs. lia.
    + intros a Ha. rewrite spectral_apply_rebuilt. now apply Hy.
  - intros Hpos a b Ha Hb. now apply (rebuilt_floored dim cov s0 u).
Qed.

Lemma inv_sqrt2_sqr : / sqrt 2 * / sqrt 2 = / 2.
Proof.
  rewrite <- Rinv_mult, sqrt_sqrt by lra. reflexivity.
Qed.

Lemma eigh_2_1_1_2_decomposes :
  eigendecomposition 2 [[2; 1]; [1; 2]] [1; 3]
                     [[/ sqrt 2; / sqrt 2]; [- / sqrt 2; / sqrt 2]].
Proof.
  pose proof inv_sqrt2_sqr as Hq.
  split; [reflexivity|]. split; [split; [reflexivity | repeat constructor]|].
  split; [|split].
  - intros c c' Hc Hc'.
    destruct c as [|[|c]]; destruct c' as [|[|c']]; try lia;
      unfold sum_n, entry, row; simpl; set (q := / sqrt 2) in *; nra.
  - intros a a' Ha Ha'.
    destruct a as [|[|a]]; destruct a' as [|[|a']]; try lia;
      unfold sum_n, entry, row; simpl; set (q := / sqrt 2) in *; nra.
  - intros a b Ha Hb.
    destruct a as [|[|a]]; destruct b as [|[|b]]; try lia;
      unfold rebuilt, sum_n, entry, row; simpl; set (q := / sqrt 2) in *; nra.
Qed.

Lemma mvn_logpdf_closed_form_witness :
  let x := [[1; 2]] in
  let mu := [[0; 0]; [1; 1]] in
  let cov := [[2; 1]; [1; 2]] in
  let u := [[/ sqrt 2; / sqrt 2]; [- / sqrt 2; / sqrt 2]] in
  let s := map (fun e => Rabs e + / 2 ^ 52) [1; 3] in
  is_mat 1 2 (_mvn_logpdf eigh_2_1_1_2 x mu cov) /\
  (forall i j, (i < 1)%nat -> (j < 2)%nat ->
     entry (_mvn_logpdf eigh_2_1_1_2 x mu cov) i j
     = -0.5 * (INR 2 * ln (2 * PI) + sum_n 2 (fun c => ln (nth c s 0))
               + maha_pair 2 (row x i) (row mu j) s u)) /\
  (forall i j y, (i < 1)%nat -> (j < 2)%nat ->
     (forall a, (a < 2)%nat ->
        sum_n 2 (fun b => rebuilt 2 s u a b * nth b y 0)
        = nth a (row x i) 0 - nth a (row mu j) 0) ->
     maha_pair 2 (row x i) (row mu j) s u
     = sum_n 2 (fun a => (nth a (row x i) 0 - nth a (row mu j) 0) * nth a y 0)) /\
  (Forall (fun e => 0 <= e) [1; 3] ->
   forall a b, (a < 2)%nat -> (b < 2)%nat ->
     rebuilt 2 s u a b = entry cov a b + (if Nat.eqb a b then / 2 ^ 52 else 0)).
Proof.
  intros x mu cov u.
  apply (mvn_logpdf_closed_form eigh_2_1_1_2 x mu cov [1; 3] u 1 2 2).
  - split; [reflexivity | repeat constructor].
  - split; [reflexivity | repeat constructor].
  - reflexivity.
  - exact eigh_2_1_1_2_decomposes.
Defined.

Lemma identity_1_decomposes : eigendecomposition 1 [[1]] [1] [[1]].
Proof.
  split; [reflexivity|]. split; [split; [reflexivity | repeat constructor]|].
  split; [|split]; intros a b Ha Hb;
    destruct a as [|a]; destruct b as [|b]; try lia;
    unfold rebuilt, sum_n, entry, row; simpl; lra.
Qed.

(** C1 as stated fails.  For the covariance [[1]], whose eigendecomposition
    is the eigenvalue 1 with the eigenvector (1), the entry for the point 0
    and the centre 0 is the log-density of the normal distribution with
    variance [1 + 2^-52], which is smaller than [log N(0; 0, 1)]. *)
Lemma mvn_logpdf_floor_counterexample :
  eigh_diagonal [[1]] = ([1], [[1]]) /\
  eigendecomposition 1 [[1]] [1] [[1]] /\
  entry (_mvn_logpdf eigh_diagonal [[0]] [[0]] [[1]]) 0 0
  = normal_logpdf 0 0 (1 + / 2 ^ 52) /\
  entry (_mvn_logpdf eigh_diagonal [[0]] [[0]] [[1]]) 0 0 <> normal_logpdf 0 0 1.
Proof.
  split; [reflexivity|]. split; [exact identity_1_decomposes|].
  assert (Hent : entry (_mvn_logpdf eigh_diagonal [[0]] [[0]] [[1]]) 0 0
                 = normal_logpdf 0 0 (1 + / 2 ^ 52)).
  { rewrite (mvn_logpdf_entry eigh_diagonal [[0]] [[0]] [[1]] [1] [[1]] 1 1 1);
      [| split; [reflexivity | repeat constructor]
       | split; [reflexivity | repeat constructor]
       | reflexivity | reflexivity
       | split; [reflexivity | repeat constructor] | lia | lia].
    unfold logpdf_pair, maha_pair, normal_logpdf, floor_eigs, spacing1, sum_n,
      entry, row.
    cbn [map seq nth vsum fold_right INR].
    rewrite Rabs_R1. unfold Rsqr, Rdiv. ring. }
  split; [exact Hent|].
  rewrite Hent. unfold normal_logpdf.
  assert (Heps : 0 < / 2 ^ 52) by (apply Rinv_0_lt_compat, pow_lt; lra).
  assert (Hln : ln 1 < ln (1 + / 2 ^ 52)) by (apply ln_increasing; lra).
  rewrite ln_1 in *.
  replace ((0 - 0) ^ 2 / (1 + / 2 ^ 52)) with 0 by (unfold Rdiv; ring).
  replace ((0 - 0) ^ 2 / 1) with 0 by (unfold Rdiv; ring).
  lra.
Qed.

(** ** C3 *)

Local Open Scope nat_scope.

Lemma in_train_blocks n k j i :
  In i (concat (map (block n k) (filter (fun i => negb (i =? j)) (seq 0 k))))
  <-> exists j', j' < k /\ j' <> j /\ In i (block n k j').
Proof.
  rewrite in_concat. split.
  - intros [b [Hb Hi]]. apply in_map_iff in Hb. destruct Hb as [j' [<- Hj']].
    apply filter_In in Hj'. destruct Hj' as [Hr Hne]. apply in_seq in Hr.
    exists j'. repeat split; try lia; auto.
    apply negb_true_iff, Nat.eqb_neq in Hne. assumption.
  - intros [j' [Hlt [Hne Hi]]]. exists (block n k j'). split; auto.
    apply in_map, filter_In. split; [apply in_seq; lia|].
    now apply negb_true_iff, Nat.eqb_neq.
Qed.

(** C3 (as the code has it).  For [k >= 2], [kfold_split] over the [n] rows
    of [X] returns exactly [k] folds over the indices [0 .. n-1].  The test
    set of fold [j] is the contiguous block that starts at
    [j*(n/k) + min j (n mod k)] and has [n/k + 1] indices when
    [j < n mod k] and [n/k] otherwise (the first [n mod k] blocks take the
    remainder); its train set holds exactly the indices of the other
    blocks.  Every index lies in exactly one test set, train and test of a
    fold are disjoint, and the test sets in order make up [0 .. n-1].
    With [k = 1] there is no other block to train on and the call raises
    [ValueError], as it does with [k = 0]. *)
Theorem kfold_split_partition {A} (X : list A) (k : nat) :
  2 <= k ->
  kfold_split X 0 = None /\
  kfold_split X 1 = None /\
  exists folds,
    kfold_split X k = Some folds /\
    length folds = k /\
    (forall j, j < k ->
       test (nth j folds ([], [])) = block (length X) k j /\
       length (test (nth j folds ([], []))) = block_size (length X) k j /\
       (forall i, In i (train (nth j folds ([], []))) <->
                  exists j', j' < k /\ j' <> j /\
                             In i (test (nth j' folds ([], [])))) /\
       (forall i, In i (test (nth j folds ([], []))) ->
                  ~ In i (train (nth j folds ([], []))))) /\
    (forall i, i < length X ->
       exists j, j < k /\ In i (test (nth j folds ([], []))) /\
                 forall j', j' < k -> In i (test (nth j' folds ([], []))) -> j' = j) /\
    concat (map test folds) = seq 0 (length X).
Proof.
  intros Hk.
  split; [apply kfold_split_too_few; lia|].
  split; [apply kfold_split_too_few; lia|].
  eexists. split; [apply kfold_split_eq; lia|].
  set (n := length X).
  set (mk := fun j => (concat (map (block n k)
                                   (filter (fun i => negb (i =? j)) (seq 0 k))),
                       block n k j)).
  assert (Hnth : forall j, j < k -> nth j (map mk (seq 0 k)) ([], []) = mk j).
  { intros j Hj. rewrite (nth_map_in _ _ j 0) by (rewrite length_seq; lia).
    now rewrite seq_nth by lia. }
  split; [now rewrite length_map, length_seq|].
  split; [|split].
  - intros j Hj. rewrite Hnth by assumption. simpl.
    split; [reflexivity|]. split; [unfold block; apply length_seq|]. split.
    + intros i. rewrite in_train_blocks. split.
      * intros [j' [H1 [H2 H3]]]. exists j'. rewrite Hnth by assumption. auto.
      * intros [j' [H1 [H2 H3]]]. exists j'. rewrite Hnth in H3 by assumption. auto.
    + intros i Hi Htr. apply in_train_blocks in Htr.
      destruct Htr as [j' [_ [Hne Hi']]].
      apply Hne. apply (in_block_unique n k j' j i); assumption.
  - intros i Hi. destruct (in_block_exists n k i ltac:(lia) Hi) as [j [Hj Hin]].
    exists j. rewrite Hnth by assumption. repeat split; auto.
    intros j' Hj' Hin'. rewrite Hnth in Hin' by assumption.
    apply (in_block_unique n k j' j i); [exact Hin' | exact Hin].
  - rewrite map_map. simpl. change (fun x : nat => block n k x) with (block n k).
    rewrite blocks_concat, block_start_last by lia. reflexivity.
Qed.

Lemma kfold_split_partition_witness :
  2 <= 2 /\
  kfold_split [[0%R]; [1%R]; [2%R]; [3%R]; [4%R]] 0 = None /\
  kfold_split [[0%R]; [1%R]; [2%R]; [3%R]; [4%R]] 1 = None /\
  exists folds,
    kfold_split [[0%R]; [1%R]; [2%R]; [3%R]; [4%R]] 2 = Some folds /\
    length folds = 2 /\
    (forall j, j < 2 ->
       test (nth j folds ([], [])) = block 5 2 j /\
       length (test (nth j folds ([], []))) = block_size 5 2 j /\
       (forall i, In i (train (nth j folds ([], []))) <->
                  exists j', j' < 2 /\ j' <> j /\
                             In i (test (nth j' folds ([], [])))) /\
       (forall i, In i (test (nth j folds ([], []))) ->
                  ~ In i (train (nth j folds ([], []))))) /\
    (forall i, i < 5 ->
       exists j, j < 2 /\ In i (test (nth j folds ([], []))) /\
                 forall j', j' < 2 -> In i (test (nth j' folds ([], []))) -> j' = j) /\
    concat (map test folds) = seq 0 5.
Proof.
  split; [lia|].
  apply (kfold_split_partition [[0%R]; [1%R]; [2%R]; [3%R]; [4%R]] 2). lia.
Defined.

(** C3 as stated fails: five indices in two folds give the test blocks
    [0,1,2] and [3,4].  The first block, not the last, takes the extra
    index, and the indices start at 0, so index 5 is in no test set. *)
Lemma kfold_split_last_blocks_counterexample :
  kfold_split [[0%R]; [1%R]; [2%R]; [3%R]; [4%R]] 2
    = Some [([3; 4], [0; 1; 2]); ([0; 1; 2], [3; 4])] /\
  map (fun f => length (test f)) [([3; 4], [0; 1; 2]); ([0; 1; 2], [3; 4])]
    <> claimed_block_sizes 5 2 /\
  ~ In 5 (concat (map test [([3; 4], [0; 1; 2]); ([0; 1; 2], [3; 4])])).
Proof.
  split; [reflexivity|]. split.
  - cbv. discriminate.
  - cbv. intuition lia.
Qed.

Local Close Scope nat_scope.

(** ** C4 *)

Lemma zipw_map_nth {A} (f : R -> R -> R) (g k : A -> R) (l : list A) (a : nat) (da : A) :
  (a < length l)%nat ->
  nth a (zipw f (map g l) (map k l)) 0 = f (g (nth a l da)) (k (nth a l da)).
Proof.
  intros Ha. rewrite zipw_nth by (now rewrite length_map).
  now rewrite !(nth_map_in _ l a da) by assumption.
Qed.

Lemma silverman_entry (st : kde) (a : nat) :
  (a < length (dataset st))%nat ->
  let r := row (dataset st) a in
  nth a (silverman_factor_ref st) 0
  = 0.9 * Rmin ((np_quantile r 3 4 - np_quantile r 1 4) / 1.34) (np_std1 r)
    * Rpower (neff st) (-1 / 5) / np_std1 r.
Proof.
  intros Ha r. unfold silverman_factor_ref.
  rewrite !map_map.
  rewrite zipw_nth;
    [| rewrite length_map, zipw_length, !length_map; lia
     | now rewrite length_map ].
  rewrite (nth_map_in _ _ a 0) by (rewrite zipw_length, !length_map; lia).
  rewrite (zipw_map_nth _ _ _ _ a []) by assumption.
  rewrite (nth_map_in _ _ a []) by assumption.
  reflexivity.
Qed.

(** C4 (as the code has it).  [silverman_factor_ref] returns one factor per
    dimension, and the factor of dimension [a] is
    [0.9 * min(IQR/1.34, std) * neff^(-1/5) / std] with [IQR] the distance
    between the 0.75 and 0.25 quantiles of row [a] of the dataset and [std]
    its sample standard deviation ([ddof = 1]). *)
Theorem silverman_factor_ref_entries (st : kde) :
  is_vec (length (dataset st)) (silverman_factor_ref st) /\
  forall a, (a < length (dataset st))%nat ->
    let r := row (dataset st) a in
    nth a (silverman_factor_ref st) 0
    = 0.9 * Rmin ((np_quantile r 3 4 - np_quantile r 1 4) / 1.34) (np_std1 r)
      * Rpower (neff st) (-1 / 5) / np_std1 r.
Proof.
  split.
  - unfold is_vec, silverman_factor_ref.
    rewrite zipw_length, !length_map, zipw_length, !length_map. lia.
  - intros a Ha. now apply silverman_entry.
Qed.

Lemma silverman_factor_ref_entries_witness :
  is_vec 1 (silverman_factor_ref two_point_kde) /\
  forall a, (a < 1)%nat ->
    let r := row [[0; 1]] a in
    nth a (silverman_factor_ref two_point_kde) 0
    = 0.9 * Rmin ((np_quantile r 3 4 - np_quantile r 1 4) / 1.34) (np_std1 r)
      * Rpower (neff two_point_kde) (-1 / 5) / np_std1 r.
Proof.
  exact (silverman_factor_ref_entries two_point_kde).
Defined.

Lemma np_sort_01 : np_sort [0; 1] = [0; 1].
Proof.
  unfold np_sort. simpl. destruct (Rle_dec 0 1) as [_|H]; [reflexivity|].
  exfalso. apply H. lra.
Qed.

Lemma np_quantile_01 (num : nat) :
  (num < 4)%nat -> np_quantile [0; 1] num 4 = INR num / 4.
Proof.
  intros Hn. unfold np_quantile. rewrite np_sort_01.
  change (length [0; 1]) with 2%nat.
  replace ((2 - 1) * num)%nat with num by lia.
  rewrite Nat.div_small, Nat.mod_small by lia.
  change (Nat.min (0 + 1) (2 - 1)) with 1%nat.
  cbn [nth]. change (INR 4) with (1 + 1 + 1 + 1). lra.
Qed.

Lemma np_std1_01_pos : 0 < np_std1 [0; 1].
Proof.
  unfold np_std1, vmean. simpl. apply sqrt_lt_R0. unfold Rsqr. lra.
Qed.

(** C4 as stated fails: on the dataset [[0, 1]] the factor the code returns
    differs from [min(IQR/1.34, std) * neff^(-1/5) / std], which has no
    leading 0.9. *)
Lemma silverman_factor_ref_counterexample :
  nth 0 (silverman_factor_ref two_point_kde) 0
  <> claimed_silverman (np_quantile [0; 1] 3 4 - np_quantile [0; 1] 1 4)
                       (np_std1 [0; 1]) (neff two_point_kde).
Proof.
  rewrite (silverman_entry two_point_kde 0) by (simpl; lia).
  unfold claimed_silverman. simpl row.
  change (row [[0; 1]] 0) with [0; 1].
  rewrite !np_quantile_01 by lia.
  pose proof np_std1_01_pos as Hs.
  set (s := np_std1 [0; 1]) in *.
  set (P := Rpower (neff two_point_kde) (-1 / 5)).
  assert (HP : 0 < P) by (unfold P, Rpower; apply exp_pos).
  set (m := Rmin ((INR 3 / 4 - INR 1 / 4) / 1.34) s).
  assert (Hm : 0 < m).
  { unfold m. apply Rmin_glb_lt; [simpl; lra | assumption]. }
  intros Heq.
  assert (Hv : 0 < m * P / s).
  { apply Rdiv_lt_0_compat; [apply Rmult_lt_0_compat|]; assumption. }
  replace (0.9 * m * P / s) with (0.9 * (m * P / s)) in Heq by (field; lra).
  lra.
Qed.

(** ** What the constructor establishes *)

Lemma compute_covariance_returns (cholesky : Mat -> option Mat) (st st' : kde) :
  _compute_covariance cholesky st = (st', Returned tt) ->
  _data_cho_cov st = None ->
  dataset st' = dataset st /\ weights st' = weights st /\ d st' = d st /\
  _data_covariance st' = Some (np_cov (dataset st) (Some (weights st))) /\
  _data_cho_cov st' <> None /\ covariance st' <> None.
Proof.
  unfold _compute_covariance. intros H Hnone.
  destruct (call_covariance_factor st) as [f|]; [|discriminate].
  cbn [_data_cho_cov set_factor dataset weights] in H. rewrite Hnone in H.
  destruct (cholesky (np_cov (dataset st) (Some (weights st)))) as [L0|];
    [|discriminate].
  match type of H with context [kernel_covariance ?s f] =>
    destruct (kernel_covariance s f) as [e|c] end; [discriminate|].
  destruct (cholesky c); [|discriminate].
  injection H as <-. simpl. repeat split;
    (reflexivity || (intros Hx; discriminate Hx)).
Qed.

Lemma compute_covariance_never_prints (cholesky : Mat -> option Mat) (st : kde)
    (msg : string) :
  snd (_compute_covariance cholesky st) <> PrintedNone msg.
Proof.
  unfold _compute_covariance.
  destruct (call_covariance_factor st) as [f|]; [|discriminate].
  cbn [_data_cho_cov set_factor dataset weights].
  destruct (_data_cho_cov st) as [L0|].
  - match goal with |- context [kernel_covariance ?s f] =>
      destruct (kernel_covariance s f) as [e|c] end; [discriminate|].
    destruct (cholesky c); discriminate.
  - destruct (cholesky (np_cov (dataset st) (Some (weights st)))); [|discriminate].
    match goal with |- context [kernel_covariance ?s f] =>
      destruct (kernel_covariance s f) as [e|c] end; [discriminate|].
    destruct (cholesky c); discriminate.
Qed.

Lemma gaussian_kde_init_fitted
    (eigh : Mat -> Vec * Mat) (cholesky : Mat -> option Mat)
    (minimize : (Vec -> R) -> Vec -> Vec * R)
    (data : Mat) (bw_method : BwMethod) (st : kde) :
  gaussian_kde_init eigh cholesky minimize data bw_method = Returned st ->
  fitted st /\ dataset st = data /\ covariance st <> None.
Proof.
  unfold gaussian_kde_init. destruct (negb _); [discriminate|].
  destruct (shape1 data <? length data)%nat; [discriminate|].
  set (st0 := mk_kde data (length data) (shape1 data)
                     (uniform_weights (shape1 data)) None CF_scotts
                     None None None None None None None None).
  destruct (set_bandwidth eigh cholesky minimize st0 bw_method "diagonal" None)
    as [st1 o] eqn:Hsb.
  assert (Hst1 : o <> Raised LinAlgError -> o <> Raised ValueError ->
                 o <> Raised AttributeError ->
                 fitted st1 /\ dataset st1 = data /\ covariance st1 <> None).
  { intros N1 N2 N3. unfold set_bandwidth in Hsb.
    assert (Hfin : forall stx, dataset stx = data -> weights stx = weights st0 ->
              d stx = length data -> _data_cho_cov stx = None ->
              _compute_covariance cholesky stx = (st1, o) ->
              fitted st1 /\ dataset st1 = data /\ covariance st1 <> None).
    { intros stx Hd Hw Hdd Hc Hcc. destruct o as [[]|msg|e].
      - destruct (compute_covariance_returns cholesky stx st1 Hcc Hc)
          as [E1 [E2 [E3 [E4 [E5 E6]]]]].
        unfold fitted. rewrite E1, E2, E3, E4, Hd, Hdd. auto.
      - exfalso. apply (compute_covariance_never_prints cholesky stx msg).
        now rewrite Hcc.
      - destruct e; contradiction. }
    destruct (is_str bw_method "cv").
    - change (select_bw_type eigh st0 "diagonal")
        with (Some (zipw Rmult (map np_std1 (dataset st0)) (silverman_factor_ref st0),
                    negloglike_diagonal eigh)) in Hsb.
      cbv iota beta in Hsb.
      match type of Hsb with context [kfold_split ?X ?k] =>
        destruct (kfold_split X k) as [splits|] end.
      + eapply Hfin; [| | | | exact Hsb]; reflexivity.
      + injection Hsb as _ <-. contradiction.
    - unfold base_set_bandwidth in Hsb. destruct bw_method as [|sm|c|f].
      + eapply Hfin; [| | | | exact Hsb]; reflexivity.
      + destruct (String.eqb sm "scott").
        * eapply Hfin; [| | | | exact Hsb]; reflexivity.
        * destruct (String.eqb sm "silverman").
          -- eapply Hfin; [| | | | exact Hsb]; reflexivity.
          -- injection Hsb as _ <-. contradiction.
      + eapply Hfin; [| | | | exact Hsb]; reflexivity.
      + eapply Hfin; [| | | | exact Hsb]; reflexivity. }
  intros H. destruct o as [[]|msg|e]; [| |discriminate].
  - injection H as <-. apply Hst1; discriminate.
  - injection H as <-. apply Hst1; discriminate.
Qed.


(** ** C5 *)









Lemma vsum_zipw_comm (a b : Vec) :
  vsum (zipw Rmult a b) = vsum (zipw Rmult b a).
Proof.
  revert b. induction a as [|x a IH]; intros [|y b]; simpl; auto.
  rewrite IH. lra.
Qed.

Lemma vsum_zipw_weighted_comm (a b w : Vec) :
  vsum (zipw Rmult a (zipw Rmult b w)) = vsum (zipw Rmult b (zipw Rmult a w)).
Proof.
  revert b w. induction a as [|x a IH]; intros [|y b] [|z w]; simpl; auto.
  rewrite IH. lra.
Qed.

(** Over the reals the data covariance is symmetric.  This is a fact of
    exact arithmetic only: in binary64 the two roundings of
    [X[a,k] * (X[b,k] * w[k])] do not commute, and no statement below
    relies on it. *)
Lemma np_cov_symmetric (X : Mat) (w : option Vec) :
  symmetric (length X) (np_cov X w).
Proof.
  intros a b Ha Hb. unfold entry, row, np_cov.
  set (Xc := map (fun r : list R => map (fun x : R => x - cov_avg w r) r) X).
  assert (HXc : length Xc = length X) by (unfold Xc; now rewrite length_map).
  rewrite (nth_map_in _ Xc a []), (nth_map_in _ Xc b []) by lia.
  rewrite (nth_map_in _ Xc b []), (nth_map_in _ Xc a []) by lia.
  f_equal. destruct w as [w|]; simpl.
  - apply vsum_zipw_weighted_comm.
  - apply vsum_zipw_comm.
Qed.


Lemma kernel_covariance_value (st : kde) (t : string) (f : Vec) (dc : Mat) :
  bw_type st = Some t -> _data_covariance st = Some dc ->
  (t = "diagonal"%string -> factor_is_scalar st = false) ->
  kernel_covariance st f
  = inr (if String.eqb t "diagonal" then cov_diagonal f
         else if String.eqb t "equal" then cov_equal (d st) f
         else cov_scaled dc f).
Proof.
  intros Ht Hdc Hsc. unfold kernel_covariance. rewrite Ht, Hdc.
  destruct (String.eqb_spec t "diagonal") as [E|E].
  - now rewrite (Hsc E).
  - now destruct (String.eqb t "equal").
Qed.

Lemma compute_covariance_field (cholesky : Mat -> option Mat) (st : kde)
    (f : Vec) (c : Mat) :
  call_covariance_factor st = Some f ->
  _data_cho_cov st <> None ->
  kernel_covariance st f = inr c ->
  covariance (fst (_compute_covariance cholesky st)) = Some c.
Proof.
  intros Hf Hch Hk. unfold _compute_covariance. rewrite Hf.
  destruct (_data_cho_cov st) as [L0|] eqn:HL; [|contradiction].
  cbn [_data_cho_cov set_factor]. rewrite HL.
  change (kernel_covariance (set_factor st (Some f)) f)
    with (kernel_covariance st f).
  rewrite Hk. destruct (cholesky c); reflexivity.
Qed.





(** ** C8 *)

Lemma select_bw_type_unknown (eigh : Mat -> Vec * Mat) (st : kde) (ty : string) :
  ~ cv_type ty -> select_bw_type eigh st ty = None.
Proof.
  intros Hn. unfold select_bw_type, cv_type in *.
  destruct (String.eqb_spec ty "diagonal"); [tauto|].
  destruct (String.eqb_spec ty "covariance"); [tauto|].
  destruct (String.eqb_spec ty "equal"); [tauto|].
  reflexivity.
Qed.

(** C8.  [set_bandwidth] with method ['cv'] and a bandwidth type other than
    [diagonal], [covariance] and [equal] prints
    ['bw_type must be diagonal, covariance or equal'] and returns with no
    attribute of the estimator changed: no fold is built, the optimiser is
    not run, and bandwidth type, factor, covariance, Cholesky factor and
    log-determinant are those of the state before the call. *)
Theorem set_bandwidth_unknown_type
    (eigh : Mat -> Vec * Mat) (cholesky : Mat -> option Mat)
    (minimize : (Vec -> R) -> Vec -> Vec * R)
    (st : kde) (ty : string) (k : option nat) :
  ~ cv_type ty ->
  set_bandwidth eigh cholesky minimize st (BwStr "cv") ty k
  = (st, PrintedNone "bw_type must be diagonal, covariance or equal").
Proof.
  intros Hn. unfold set_bandwidth.
  change (is_str (BwStr "cv") "cv") with true. cbv iota.
  now rewrite select_bw_type_unknown.
Qed.

Lemma set_bandwidth_unknown_type_witness :
  ~ cv_type "full" /\
  set_bandwidth eigh_diagonal cholesky_1x1 minimize_at_start two_point_kde
                (BwStr "cv") "full" None
  = (two_point_kde, PrintedNone "bw_type must be diagonal, covariance or equal").
Proof.
  assert (H : ~ cv_type "full") by (intros [H | [H | H]]; discriminate H).
  split; [exact H|].
  exact (set_bandwidth_unknown_type eigh_diagonal cholesky_1x1 minimize_at_start
           two_point_kde "full" None H).
Defined.

(** ** C10 *)

Lemma vpow2_opp (hh : Vec) : vpow2 (map Ropp hh) = vpow2 hh.
Proof.
  unfold vpow2. rewrite map_map. apply map_ext. intros x. simpl. lra.
Qed.

Lemma vpow2_abs (hh : Vec) : vpow2 (map Rabs hh) = vpow2 hh.
Proof.
  unfold vpow2. rewrite map_map. apply map_ext. intros x.
  rewrite <- !Rsqr_pow2. symmetry. apply Rsqr_abs.
Qed.

Lemma negloglike_cv_ext (nll nll' : Vec -> Mat -> Mat -> R) (h1 h2 : Vec)
    (X : Mat) (splits : list Fold) :
  (forall Xe Xf, nll h1 Xe Xf = nll' h2 Xe Xf) ->
  negloglike_cv nll h1 X splits = negloglike_cv nll' h2 X splits.
Proof.
  intros H. unfold negloglike_cv, vmean. rewrite !length_map.
  f_equal. apply vsum_map_ext. intros s _. apply H.
Qed.

Lemma negloglike_square_only (eigh : Mat -> Vec * Mat) (st : kde) (ty : string)
    (h0 : Vec) (nll : Vec -> Mat -> Mat -> R) (h1 h2 : Vec) :
  select_bw_type eigh st ty = Some (h0, nll) ->
  vpow2 h1 = vpow2 h2 ->
  forall Xe Xf, nll h1 Xe Xf = nll h2 Xe Xf.
Proof.
  unfold select_bw_type. intros Hsel Hv Xe Xf.
  destruct (String.eqb ty "diagonal");
    [|destruct (String.eqb ty "covariance");
      [|destruct (String.eqb ty "equal"); [|discriminate]]];
    injection Hsel as _ <-;
    unfold negloglike_diagonal, negloglike_covariance, negloglike_equal,
      cov_diagonal, cov_scaled, cov_equal;
    now rewrite Hv.
Qed.

Lemma compute_covariance_square_only (cholesky : Mat -> option Mat) (st : kde)
    (h1 h2 : Vec) :
  covariance_factor st = CF_h ->
  vpow2 h1 = vpow2 h2 ->
  let after hh := fst (_compute_covariance cholesky (set_h st (Some hh))) in
  covariance (after h1) = covariance (after h2) /\
  cho_cov (after h1) = cho_cov (after h2) /\
  log_det (after h1) = log_det (after h2).
Proof.
  intros Hcf Hv after. unfold after, _compute_covariance, call_covariance_factor.
  cbn [covariance_factor set_h h]. rewrite Hcf.
  cbn [_data_cho_cov set_factor set_h dataset weights].
  destruct (_data_cho_cov st) as [L0|].
  - match goal with
    | |- context [kernel_covariance ?s1 h1] =>
      match goal with
      | |- context [kernel_covariance ?s2 h2] =>
        assert (HK : kernel_covariance s1 h1 = kernel_covariance s2 h2)
      end
    end.
    { unfold kernel_covariance, factor_is_scalar, cov_diagonal, cov_equal,
        cov_scaled.
      cbn [bw_type d _data_covariance covariance_factor set_factor set_h].
      now rewrite Hv. }
    rewrite HK.
    match goal with |- context [kernel_covariance ?s2 h2] =>
      destruct (kernel_covariance s2 h2) as [e|c] end; [simpl; auto|].
    destruct (cholesky c); simpl; auto.
  - destruct (cholesky (np_cov (dataset st) (Some (weights st)))); [|simpl; auto].
    match goal with
    | |- context [kernel_covariance ?s1 h1] =>
      match goal with
      | |- context [kernel_covariance ?s2 h2] =>
        assert (HK : kernel_covariance s1 h1 = kernel_covariance s2 h2)
      end
    end.
    { unfold kernel_covariance, factor_is_scalar, cov_diagonal, cov_equal,
        cov_scaled.
      cbn [bw_type d _data_covariance covariance_factor set_factor set_h
           set_data_cho_cov set_data_covariance].
      now rewrite Hv. }
    rewrite HK.
    match goal with |- context [kernel_covariance ?s2 h2] =>
      destruct (kernel_covariance s2 h2) as [e|c] end; [simpl; auto|].
    destruct (cholesky c); simpl; auto.
Qed.

(** C10.  For every bandwidth type of the selection, every trial factor
    [hh], every data array and every split, the cross-validation objective
    at the element-wise negation of [hh] and at its element-wise absolute
    value equals the objective at [hh]; and the covariance (with its
    Cholesky factor and log-determinant) that [_compute_covariance] derives
    from a stored factor is the same for [hh], its negation and its
    absolute value. *)
Theorem bandwidth_enters_squared
    (eigh : Mat -> Vec * Mat) (cholesky : Mat -> option Mat) (st : kde)
    (ty : string) (h0 : Vec) (nll : Vec -> Mat -> Mat -> R) (hh : Vec)
    (X : Mat) (splits : list Fold) :
  select_bw_type eigh st ty = Some (h0, nll) ->
  let after v :=
    fst (_compute_covariance cholesky
           (set_h (set_covariance_factor (set_bw_type st (Some ty)) CF_h) (Some v))) in
  negloglike_cv nll (map Ropp hh) X splits = negloglike_cv nll hh X splits /\
  negloglike_cv nll (map Rabs hh) X splits = negloglike_cv nll hh X splits /\
  covariance (after (map Ropp hh)) = covariance (after hh) /\
  covariance (after (map Rabs hh)) = covariance (after hh) /\
  cho_cov (after (map Rabs hh)) = cho_cov (after hh) /\
  log_det (after (map Rabs hh)) = log_det (after hh).
Proof.
  intros Hsel after.
  split; [|split].
  - apply negloglike_cv_ext.
    apply (negloglike_square_only eigh st ty h0 nll _ _ Hsel), vpow2_opp.
  - apply negloglike_cv_ext.
    apply (negloglike_square_only eigh st ty h0 nll _ _ Hsel), vpow2_abs.
  - pose proof (compute_covariance_square_only cholesky
                  (set_covariance_factor (set_bw_type st (Some ty)) CF_h)
                  (map Ropp hh) hh eq_refl (vpow2_opp hh)) as [H1 _].
    pose proof (compute_covariance_square_only cholesky
                  (set_covariance_factor (set_bw_type st (Some ty)) CF_h)
                  (map Rabs hh) hh eq_refl (vpow2_abs hh)) as [H2 [H3 H4]].
    auto.
Qed.

Lemma bandwidth_enters_squared_witness :
  let st := two_point_kde in
  let hh := [-3] in
  let X := [[0]; [1]] in
  let splits := [([1%nat], [0%nat]); ([0%nat], [1%nat])] in
  let nll := negloglike_covariance eigh_diagonal in
  let after v :=
    fst (_compute_covariance cholesky_1x1
           (set_h (set_covariance_factor (set_bw_type st (Some "covariance"%string)) CF_h)
                  (Some v))) in
  negloglike_cv nll (map Ropp hh) X splits = negloglike_cv nll hh X splits /\
  negloglike_cv nll (map Rabs hh) X splits = negloglike_cv nll hh X splits /\
  covariance (after (map Ropp hh)) = covariance (after hh) /\
  covariance (after (map Rabs hh)) = covariance (after hh) /\
  cho_cov (after (map Rabs hh)) = cho_cov (after hh) /\
  log_det (after (map Rabs hh)) = log_det (after hh).
Proof.
  intros st hh X splits nll.
  apply (bandwidth_enters_squared eigh_diagonal cholesky_1x1 st "covariance"
           [vmean (silverman_factor_ref st)] nll hh X splits).
  reflexivity.
Defined.

(** ** C2 *)

Lemma vsum_map_opp {A} (f : A -> R) (l : list A) :
  - vsum (map f l) = vsum (map (fun x => - f x) l).
Proof.
  induction l as [|x l IH]; simpl; [lra|]. rewrite <- IH. lra.
Qed.

Lemma select_negloglike_form (eigh : Mat -> Vec * Mat) (st : kde) (ty : string)
    (h0 : Vec) (nll : Vec -> Mat -> Mat -> R) :
  select_bw_type eigh st ty = Some (h0, nll) ->
  forall hh Xe Xf,
    nll hh Xe Xf
    = - vsum (map ln (map vmean (_mvn_pdf eigh Xe Xf (trial_cov ty (d st) hh Xf)))).
Proof.
  unfold select_bw_type, trial_cov. intros Hsel hh Xe Xf.
  destruct (String.eqb_spec ty "diagonal") as [->|Hd].
  { injection Hsel as _ <-. reflexivity. }
  destruct (String.eqb_spec ty "covariance") as [->|Hc].
  { injection Hsel as _ <-. reflexivity. }
  destruct (String.eqb_spec ty "equal") as [->|He]; [|discriminate].
  injection Hsel as _ <-. reflexivity.
Qed.

Lemma take_rows_shape (X : Mat) (nn dim : nat) (idx : list nat) :
  is_mat nn dim X -> Forall (fun i => (i < nn)%nat) idx ->
  Forall (is_vec dim) (take_rows X idx).
Proof.
  intros HX Hidx. unfold take_rows. apply Forall_map.
  eapply Forall_impl; [|exact Hidx]. intros i Hi.
  unfold is_vec. eapply is_mat_row; eauto.
Qed.

Lemma fold_negloglike_agree (eigh : Mat -> Vec * Mat) (c : Mat) (dim nn : nat)
    (X : Mat) (tr te : list nat) :
  is_mat nn dim X ->
  Forall (fun i => (i < nn)%nat) tr -> Forall (fun i => (i < nn)%nat) te ->
  is_vec dim (fst (eigh c)) -> is_mat dim dim (snd (eigh c)) ->
  - vsum (map ln (map vmean (_mvn_pdf eigh (take_rows X te) (take_rows X tr) c)))
  = vsum (map (fun t =>
                 - ln (vsum (map (fun r => kernel_density dim (fst (eigh c)) (snd (eigh c))
                                                          (row X t) (row X r)) tr)
                       / INR (length tr)))
              te).
Proof.
  intros HX Htr Hte Hs Hu. unfold _mvn_pdf.
  rewrite (mvn_logpdf_rows eigh _ _ c (fst (eigh c)) (snd (eigh c)) dim);
    [| eapply take_rows_shape; eauto | eapply take_rows_shape; eauto
     | now destruct (eigh c) | assumption | assumption ].
  unfold take_rows. rewrite !map_map, vsum_map_opp.
  apply vsum_map_ext. intros t _. unfold vmean.
  now rewrite !map_map, !length_map.
Qed.

Lemma negloglike_cv_agree
    (eigh : Mat -> Vec * Mat) (st : kde) (ty : string) (h0 : Vec)
    (nll : Vec -> Mat -> Mat -> R) (hh : Vec) (X : Mat) (splits : list Fold)
    (nn : nat) :
  select_bw_type eigh st ty = Some (h0, nll) ->
  is_mat nn (d st) X ->
  folds_in_range nn splits ->
  eigh_shapes eigh (trial_cov ty (d st) hh) (d st) X splits ->
  negloglike_cv nll hh X splits
  = cv_objective_spec eigh (trial_cov ty (d st) hh) (d st) X splits.
Proof.
  intros Hsel HX Hr He. unfold negloglike_cv, cv_objective_spec, vmean.
  rewrite length_map. f_equal.
  unfold folds_in_range, eigh_shapes in *. rewrite Forall_forall in Hr, He.
  apply vsum_map_ext. intros f Hf.
  rewrite (select_negloglike_form eigh st ty h0 nll Hsel).
  destruct (Hr f Hf) as [Htr Hte]. destruct (He f Hf) as [Hs Hu].
  unfold fold_negloglike_spec.
  now apply (fold_negloglike_agree eigh _ (d st) nn).
Qed.

(** C2.  For every bandwidth type of the selection, trial factor [hh] and
    split of the rows of [X], [negloglike_cv] equals the unweighted mean
    over the folds of the per-fold negative log-likelihood; the per-fold
    value is the sum over the fold's test points of [-log(density)], and the
    density at a test point is the mean over the fold's train kernels of
    the Gaussian density of that kernel. *)
Theorem negloglike_cv_is_mean_of_folds
    (eigh : Mat -> Vec * Mat) (st : kde) (ty : string) (h0 : Vec)
    (nll : Vec -> Mat -> Mat -> R) (hh : Vec) (X : Mat) (splits : list Fold)
    (nn : nat) :
  select_bw_type eigh st ty = Some (h0, nll) ->
  is_mat nn (d st) X ->
  folds_in_range nn splits ->
  eigh_shapes eigh (trial_cov ty (d st) hh) (d st) X splits ->
  negloglike_cv nll hh X splits
  = cv_objective_spec eigh (trial_cov ty (d st) hh) (d st) X splits.
Proof. exact (negloglike_cv_agree eigh st ty h0 nll hh X splits nn). Qed.

Lemma negloglike_cv_is_mean_of_folds_witness :
  let X := [[0]; [1]] in
  let splits := [([1%nat], [0%nat]); ([0%nat], [1%nat])] in
  negloglike_cv (negloglike_diagonal eigh_diagonal) [2] X splits
  = cv_objective_spec eigh_diagonal (trial_cov "diagonal" 1 [2]) 1 X splits.
Proof.
  intros X splits.
  apply (negloglike_cv_is_mean_of_folds eigh_diagonal two_point_kde "diagonal"
           (zipw Rmult (map np_std1 (dataset two_point_kde))
                 (silverman_factor_ref two_point_kde))
           (negloglike_diagonal eigh_diagonal) [2] X splits 2).
  - reflexivity.
  - split; [reflexivity | repeat constructor].
  - repeat constructor.
  - repeat constructor.
Defined.

(** ** C9 *)

Lemma spacing1_pos : 0 < spacing1.
Proof. unfold spacing1. apply Rinv_0_lt_compat, pow_lt. lra. Qed.

Lemma floor_eigs_lower_bound (s0 : Vec) :
  Forall (fun e => spacing1 <= e) (floor_eigs s0).
Proof.
  unfold floor_eigs. apply Forall_map, Forall_forall. intros e _.
  pose proof (Rabs_pos e). lra.
Qed.

Lemma has_nonpositive_true (hh : Vec) :
  Exists (fun x => x <= 0) hh -> has_nonpositive hh = true.
Proof.
  intros H. unfold has_nonpositive. apply existsb_exists.
  apply Exists_exists in H. destruct H as [x [Hin Hx]].
  exists x. split; [assumption|]. now destruct (Rle_dec x 0).
Qed.

(** The property of the specification is met by an objective that
    penalises: it is not an empty requirement. *)
Lemma penalised_meets_the_guard (penalty : R) (obj : Vec -> R) (covb : Vec -> Mat) :
  penalised_or_clamped (penalised penalty obj) covb.
Proof.
  exists penalty, 1. split; [lra|]. intros hh Hh. left.
  unfold penalised. now rewrite has_nonpositive_true.
Qed.

Lemma compute_covariance_keeps_h (cholesky : Mat -> option Mat) (st : kde) :
  h (fst (_compute_covariance cholesky st)) = h st.
Proof.
  unfold _compute_covariance.
  destruct (call_covariance_factor st) as [f|]; [|reflexivity].
  cbn [_data_cho_cov set_factor dataset weights].
  destruct (_data_cho_cov st) as [L0|].
  - match goal with |- context [kernel_covariance ?s f] =>
      destruct (kernel_covariance s f) as [e|c] end; [reflexivity|].
    destruct (cholesky c); reflexivity.
  - destruct (cholesky (np_cov (dataset st) (Some (weights st)))); [|reflexivity].
    match goal with |- context [kernel_covariance ?s f] =>
      destruct (kernel_covariance s f) as [e|c] end; [reflexivity|].
    destruct (cholesky c); reflexivity.
Qed.

Lemma trial_cov_square_only (t : string) (dim : nat) (h1 h2 : Vec) (Xfit : Mat) :
  vpow2 h1 = vpow2 h2 -> trial_cov t dim h1 Xfit = trial_cov t dim h2 Xfit.
Proof.
  intros Hv. unfold trial_cov, cov_diagonal, cov_equal, cov_scaled.
  now rewrite Hv.
Qed.

(** C9 (as the code has it).  In a cross-validated selection of a valid
    bandwidth type, the optimiser is started at the initial guess on the
    objective [negloglike_cv] itself and the factor it returns is stored as
    it is: no bound, penalty or clamp is applied.  A trial factor enters
    the objective and the trial covariance through its element-wise square
    only, so a factor with negative entries is evaluated as its absolute
    value and a zero factor gives the zero diagonal covariance.  The one
    guard is inside the evaluator: every eigenvalue it uses is at least
    [np.spacing(1)], which is positive. *)
Theorem trial_factor_is_unguarded
    (eigh : Mat -> Vec * Mat) (cholesky : Mat -> option Mat)
    (minimize : (Vec -> R) -> Vec -> Vec * R)
    (st : kde) (ty : string) (h0 : Vec) (nll : Vec -> Mat -> Mat -> R)
    (k : option nat) (splits : list Fold) :
  select_bw_type eigh st ty = Some (h0, nll) ->
  let X := transpose (shape1 (dataset st)) (dataset st) in
  let obj := fun hh => negloglike_cv nll hh X splits in
  kfold_split X (match k with None => length (row (dataset st) 0) | Some k' => k' end)
    = Some splits ->
  h (fst (set_bandwidth eigh cholesky minimize st (BwStr "cv") ty k))
    = Some (fst (minimize obj h0)) /\
  (forall hh, obj hh = obj (map Rabs hh)) /\
  (forall hh Xfit,
     trial_cov ty (d st) hh Xfit = trial_cov ty (d st) (map Rabs hh) Xfit) /\
  (forall len, cov_diagonal (repeat 0 len) = map (fun _ => repeat 0 len) (seq 0 len)) /\
  (forall s0, Forall (fun e => spacing1 <= e) (floor_eigs s0)) /\
  0 < spacing1.
Proof.
  intros Hsel X obj Hsplit.
  split; [|split; [|split; [|split; [|split]]]].
  - unfold set_bandwidth. change (is_str (BwStr "cv") "cv") with true. cbv iota.
    rewrite Hsel. cbn [dataset set_bw_type].
    fold X. rewrite Hsplit.
    rewrite compute_covariance_keeps_h. reflexivity.
  - intros hh. unfold obj. apply negloglike_cv_ext.
    apply (negloglike_square_only eigh st ty h0 nll _ _ Hsel).
    symmetry. apply vpow2_abs.
  - intros hh Xfit. apply trial_cov_square_only. symmetry. apply vpow2_abs.
  - intros len. unfold cov_diagonal, np_diag, vpow2.
    rewrite length_map, repeat_length.
    apply map_ext_in. intros a Ha. apply in_seq in Ha.
    apply nth_ext with (d := 0) (d' := 0).
    + now rewrite length_map, length_seq, repeat_length.
    + intros b Hb. rewrite length_map, length_seq in Hb.
      rewrite nth_map_seq by assumption.
      rewrite nth_repeat.
      destruct (Nat.eqb a b); [|reflexivity].
      rewrite (nth_map_in _ _ a 0) by (rewrite repeat_length; lia).
      rewrite nth_repeat. simpl. lra.
  - apply floor_eigs_lower_bound.
  - apply spacing1_pos.
Qed.

Lemma trial_factor_is_unguarded_witness :
  let st := two_point_kde in
  let X := transpose (shape1 (dataset st)) (dataset st) in
  let splits := [([1%nat], [0%nat]); ([0%nat], [1%nat])] in
  let nll := negloglike_diagonal eigh_diagonal in
  let h0 := zipw Rmult (map np_std1 (dataset st)) (silverman_factor_ref st) in
  let obj := fun hh => negloglike_cv nll hh X splits in
  h (fst (set_bandwidth eigh_diagonal cholesky_1x1 minimize_at_start st
                        (BwStr "cv") "diagonal" None))
    = Some (fst (minimize_at_start obj h0)) /\
  (forall hh, obj hh = obj (map Rabs hh)) /\
  (forall hh Xfit,
     trial_cov "diagonal" (d st) hh Xfit
     = trial_cov "diagonal" (d st) (map Rabs hh) Xfit) /\
  (forall len, cov_diagonal (repeat 0 len) = map (fun _ => repeat 0 len) (seq 0 len)) /\
  (forall s0, Forall (fun e => spacing1 <= e) (floor_eigs s0)) /\
  0 < spacing1.
Proof.
  intros st X splits nll h0 obj.
  apply (trial_factor_is_unguarded eigh_diagonal cholesky_1x1 minimize_at_start
           st "diagonal" h0 nll None splits).
  - reflexivity.
  - reflexivity.
Defined.

Lemma objective_two_points (x : R) :
  negloglike_cv (negloglike_diagonal eigh_diagonal) [x] [[0]; [1]]
                [([1%nat], [0%nat]); ([0%nat], [1%nat])]
  = 0.5 * (ln (2 * PI)
           + (ln (Rabs (x ^ 2) + spacing1) + / (Rabs (x ^ 2) + spacing1))).
Proof.
  rewrite (negloglike_cv_agree eigh_diagonal two_point_kde "diagonal"
           (zipw Rmult (map np_std1 (dataset two_point_kde))
                 (silverman_factor_ref two_point_kde))
           (negloglike_diagonal eigh_diagonal) [x] _ _ 2);
  [| reflexivity | split; [reflexivity | repeat constructor]
   | repeat constructor | repeat constructor].
  unfold cv_objective_spec, fold_negloglike_spec, kernel_density, logpdf_pair,
    maha_pair, sum_n.
  cbn -[ln exp PI Rabs spacing1 pow Rsqr INR].
  assert (Hv : 0 < Rabs (x ^ 2) + spacing1).
  { pose proof (Rabs_pos (x ^ 2)). pose proof spacing1_pos. lra. }
  set (v := Rabs (x ^ 2) + spacing1) in *.
  set (L := ln (2 * PI)).
  change (INR 1) with 1. change (INR 2) with (1 + 1).
  rewrite !Rplus_0_r. unfold Rdiv at 2 4. rewrite Rinv_1, !Rmult_1_r.
  rewrite !ln_exp. unfold Rsqr, Rdiv. clearbody v L.
  generalize (ln v) (/ v). intros lv iv. lra.
Qed.

Lemma log_plus_inv_increasing (v1 v2 : R) :
  1 < v1 -> v1 < v2 -> ln v1 + / v1 < ln v2 + / v2.
Proof.
  intros H1 H12.
  assert (Hq : 0 < v1 * / v2).
  { apply Rmult_lt_0_compat; [lra|]. apply Rinv_0_lt_compat. lra. }
  pose proof (exp_ineq1_le (ln (v1 * / v2))) as He.
  rewrite exp_ln in He by assumption.
  rewrite ln_mult, ln_Rinv in He by (try apply Rinv_0_lt_compat; lra).
  assert (Hinv : / v2 < / v1) by (apply Rinv_0_lt_contravar; lra).
  assert (Ha : v1 * / v1 = 1) by (apply Rinv_r; lra).
  assert (Hb : 0 < / v2) by (apply Rinv_0_lt_compat; lra).
  nra.
Qed.

Lemma objective_two_points_increasing (a b : R) :
  1 <= Rabs (a ^ 2) -> Rabs (a ^ 2) < Rabs (b ^ 2) ->
  negloglike_cv (negloglike_diagonal eigh_diagonal) [a] [[0]; [1]]
                [([1%nat], [0%nat]); ([0%nat], [1%nat])]
  < negloglike_cv (negloglike_diagonal eigh_diagonal) [b] [[0]; [1]]
                  [([1%nat], [0%nat]); ([0%nat], [1%nat])].
Proof.
  intros Ha Hab. rewrite !objective_two_points.
  pose proof spacing1_pos.
  pose proof (log_plus_inv_increasing (Rabs (a ^ 2) + spacing1)
                                      (Rabs (b ^ 2) + spacing1)).
  lra.
Qed.

(** C9 as stated fails.  On the dataset of the two points 0 and 1 with
    leave-one-out folds and type [diagonal], the objective of the code and
    its trial covariance are neither penalised nor clamped: at the negative
    factors -1, -2 and -3 the objective takes three different values and
    the covariance is 1, 4 and 9. *)
Lemma trial_factor_guard_counterexample :
  ~ penalised_or_clamped
      (fun hh => negloglike_cv (negloglike_diagonal eigh_diagonal) hh [[0]; [1]]
                               [([1%nat], [0%nat]); ([0%nat], [1%nat])])
      (fun hh => trial_cov "diagonal" 1 hh [[1]]).
Proof.
  intros [P [fl [Hfl Hall]]].
  assert (Hneg : forall x, x < 0 -> Exists (fun y => y <= 0) [x])
    by (intros x Hx; constructor; lra).
  assert (Hcov : forall x, x < 0 ->
            trial_cov "diagonal" 1 [x] [[1]]
            = trial_cov "diagonal" 1 (map (fun y => Rmax y fl) [x]) [[1]] ->
            x ^ 2 = fl ^ 2).
  { intros x Hx Heq. cbn in Heq. rewrite (Rmax_right x fl) in Heq by lra.
    injection Heq as Heq. lra. }
  assert (A1 : Rabs ((-1) ^ 2) = 1) by (rewrite Rabs_right; lra).
  assert (A2 : Rabs ((-2) ^ 2) = 4) by (rewrite Rabs_right; lra).
  assert (A3 : Rabs ((-3) ^ 2) = 9) by (rewrite Rabs_right; lra).
  pose proof (objective_two_points_increasing (-1) (-2)
                ltac:(rewrite A1; lra) ltac:(rewrite A1, A2; lra)) as H12.
  pose proof (objective_two_points_increasing (-2) (-3)
                ltac:(rewrite A2; lra) ltac:(rewrite A2, A3; lra)) as H23.
  destruct (Hall [-1] (Hneg (-1) ltac:(lra))) as [E1 | E1];
    destruct (Hall [-2] (Hneg (-2) ltac:(lra))) as [E2 | E2];
    destruct (Hall [-3] (Hneg (-3) ltac:(lra))) as [E3 | E3];
    try (apply Hcov in E1; [|lra]);
    try (apply Hcov in E2; [|lra]);
    try (apply Hcov in E3; [|lra]);
    lra.
Qed.

(** ** Lemmas for the conditional sampler *)

Lemma zipw_nth_gen {A B C} (f : A -> B -> C) (l1 : list A) (l2 : list B)
    (i : nat) (da : A) (db : B) (dc : C) :
  (i < length l1)%nat -> (i < length l2)%nat ->
  nth i (zipw f l1 l2) dc = f (nth i l1 da) (nth i l2 db).
Proof.
  revert l2 i. induction l1 as [|x l1 IH]; intros [|y l2] [|i]; simpl; intros;
    try lia; auto.
  apply IH; lia.
Qed.

Lemma transpose_length (k : nat) (M : Mat) : length (transpose k M) = k.
Proof. unfold transpose. now rewrite length_map, length_seq. Qed.

Lemma transpose_row (k : nat) (M : Mat) (j : nat) :
  (j < k)%nat -> nth j (transpose k M) [] = col M j.
Proof. intros Hj. unfold transpose. now apply nth_map_seq. Qed.

Lemma transpose_rows_length (k : nat) (M : Mat) :
  Forall (is_vec (length M)) (transpose k M).
Proof.
  unfold transpose. apply Forall_map, Forall_forall. intros j _.
  unfold is_vec. apply col_length.
Qed.

Lemma is_mat_transpose (k : nat) (M : Mat) : is_mat k (length M) (transpose k M).
Proof. split; [apply transpose_length | apply transpose_rows_length]. Qed.

Lemma vsum_pos (l : Vec) : l <> [] -> Forall (fun x => 0 < x) l -> 0 < vsum l.
Proof.
  intros Hne Hf. destruct l as [|x l]; [contradiction|].
  inversion Hf as [|? ? Hx Hl]; subst. simpl.
  clear Hne Hf. revert x Hx. induction Hl as [|y l Hy Hl IH]; intros x Hx; simpl.
  - lra.
  - specialize (IH y Hy). simpl in IH. lra.
Qed.

Lemma vsum_map_div (l : Vec) (s : R) :
  vsum (map (fun x => x / s) l) = vsum l / s.
Proof.
  induction l as [|x l IH]; simpl; [unfold Rdiv; lra|].
  rewrite IH. unfold Rdiv. lra.
Qed.

Lemma normalised_column_is_probability (l : Vec) :
  l <> [] -> Forall (fun x => 0 < x) l ->
  is_probability (map (fun x => x / vsum l) l).
Proof.
  intros Hne Hf. pose proof (vsum_pos l Hne Hf) as Hs. split.
  - apply Forall_map. eapply Forall_impl; [|exact Hf].
    intros x Hx. simpl. apply Rlt_le, Rdiv_lt_0_compat; assumption.
  - rewrite vsum_map_div. field. lra.
Qed.

Lemma col_positive (P : Mat) (k i : nat) :
  Forall (is_vec k) P -> Forall (Forall (fun x => 0 < x)) P -> (i < k)%nat ->
  Forall (fun x => 0 < x) (col P i).
Proof.
  intros Hs Hp Hi. unfold col. apply Forall_map.
  rewrite Forall_forall in *. intros r Hr.
  specialize (Hs r Hr). specialize (Hp r Hr). rewrite Forall_forall in Hp.
  apply Hp, nth_In. unfold is_vec in Hs. lia.
Qed.

(** The rows of [ps]: column [i] of [pdfs] divided by its sum. *)
Lemma normalise_rows (P : Mat) (nk m i : nat) :
  is_mat nk m P -> (i < m)%nat ->
  nth i (transpose m
           (map (fun r => zipw Rdiv r (map (fun c => vsum (col P c)) (seq 0 m))) P)) []
  = map (fun x => x / vsum (col P i)) (col P i).
Proof.
  intros [Hl Hf] Hi. rewrite transpose_row by assumption.
  unfold col. rewrite !map_map. apply map_ext_in. intros r Hr.
  rewrite Forall_forall in Hf. specialize (Hf r Hr). unfold is_vec in Hf.
  rewrite zipw_nth by (rewrite ?length_map, ?length_seq; lia).
  f_equal. now rewrite nth_map_seq by assumption.
Qed.

Lemma kernel_probabilities_rows (logpdfs : Mat) (m nk : nat) :
  is_mat m nk logpdfs -> (0 < m)%nat -> (0 < nk)%nat ->
  is_mat m nk (kernel_probabilities logpdfs) /\
  Forall is_probability (kernel_probabilities logpdfs).
Proof.
  intros Hlp Hm Hn. unfold kernel_probabilities.
  rewrite (shape1_is_mat m nk logpdfs Hlp Hm).
  set (maxs := map vmax logpdfs).
  set (pdfs := map (fun r => map exp (zipw Rminus r maxs)) (transpose nk logpdfs)).
  destruct Hlp as [Hl Hrows].
  assert (Hmx : length maxs = m) by (unfold maxs; now rewrite length_map).
  assert (Hpd : is_mat nk m pdfs).
  { unfold pdfs. split; [now rewrite length_map, transpose_length|].
    apply Forall_map. pose proof (transpose_rows_length nk logpdfs) as Ht.
    eapply Forall_impl; [|exact Ht]. intros r Hr. unfold is_vec in *.
    rewrite length_map, zipw_length, Hr, Hl, Hmx. apply Nat.min_id. }
  assert (Hpos : Forall (Forall (fun x => 0 < x)) pdfs).
  { unfold pdfs. apply Forall_map, Forall_forall. intros r _.
    apply Forall_map, Forall_forall. intros x _. apply exp_pos. }
  rewrite (shape1_is_mat nk m pdfs Hpd Hn).
  assert (Hrow : forall i, (i < m)%nat ->
            nth i (transpose m
                     (map (fun r => zipw Rdiv r
                                      (map (fun c => vsum (col pdfs c)) (seq 0 m)))
                          pdfs)) []
            = map (fun x => x / vsum (col pdfs i)) (col pdfs i)).
  { intros i Hi. now apply (normalise_rows pdfs nk m i). }
  set (ps := transpose m _) in *.
  assert (Hps : length ps = m) by apply transpose_length.
  split.
  - split; [assumption|]. apply Forall_forall. intros r Hr.
    apply In_nth with (d := []) in Hr. destruct Hr as [i [Hi <-]].
    rewrite Hrow by lia. unfold is_vec.
    rewrite length_map, col_length. now destruct Hpd.
  - apply Forall_forall. intros r Hr.
    apply In_nth with (d := []) in Hr. destruct Hr as [i [Hi <-]].
    rewrite Hrow by lia. apply normalised_column_is_probability.
    + intros Hnil. apply (f_equal (@length R)) in Hnil.
      rewrite col_length in Hnil. destruct Hpd as [Hpl _]. simpl in Hnil. lia.
    + destruct Hpd as [_ Hpf]. apply (col_positive pdfs m i); auto. lia.
Qed.

Lemma draw_counts_contract {RS : Type}
    (multinomial : RS -> nat -> Vec -> RS * list nat)
    (rs : RS) (size nk : nat) (ps : Mat) :
  multinomial_contract multinomial ->
  Forall (is_vec nk) ps -> Forall is_probability ps ->
  length (snd (draw_counts RS multinomial rs size ps)) = length ps /\
  Forall (fun c => length c = nk /\ list_sum c = size)
         (snd (draw_counts RS multinomial rs size ps)).
Proof.
  intros Hc. revert rs. induction ps as [|p ps IH]; intros rs Hv Hp; simpl.
  - split; [reflexivity | constructor].
  - inversion Hv as [|? ? Hpv Hv']; subst. inversion Hp as [|? ? Hpp Hp']; subst.
    destruct (Hc rs size p Hpp) as [Hl Hs].
    destruct (multinomial rs size p) as [rs1 c] eqn:Em. simpl in Hl, Hs.
    destruct (IH rs1 Hv' Hp') as [IHl IHf].
    destruct (draw_counts RS multinomial rs1 size ps) as [rs2 cs]. simpl in *.
    split; [now rewrite IHl|]. constructor; [|assumption].
    split; [now rewrite Hl | assumption].
Qed.

Lemma list_sum_concat_const (cs : list (list nat)) (size : nat) :
  Forall (fun c => list_sum c = size) cs ->
  list_sum (concat cs) = (length cs * size)%nat.
Proof.
  induction 1 as [|c cs Hc _ IH]; simpl; [reflexivity|].
  rewrite list_sum_app, IH, Hc. lia.
Qed.

Lemma length_concat_const {A} (L : list (list A)) (k : nat) :
  Forall (fun l => length l = k) L -> length (concat L) = (length L * k)%nat.
Proof.
  induction 1 as [|l L Hl _ IH]; simpl; [reflexivity|].
  rewrite length_app, IH, Hl. lia.
Qed.

Lemma np_repeat_rows_length {A} (l : list A) (c : list nat) :
  length l = length c -> length (np_repeat_rows l c) = list_sum c.
Proof.
  unfold np_repeat_rows. revert c.
  induction l as [|x l IH]; intros [|k c] H; simpl in *; try lia.
  rewrite length_app, repeat_length, IH by lia. reflexivity.
Qed.

Lemma np_repeat_rows_Forall {A} (P : A -> Prop) (l : list A) (c : list nat) :
  Forall P l -> Forall P (np_repeat_rows l c).
Proof.
  unfold np_repeat_rows. intros H. revert c.
  induction H as [|x l Hx _ IH]; intros [|k c]; simpl; try constructor.
  apply Forall_app. split; [|apply IH].
  apply Forall_forall. intros y Hy. apply repeat_spec in Hy. now subst.
Qed.

Lemma chunks_shape {A} (P : A -> Prop) (size m : nat) (l : list A) :
  length l = (m * size)%nat -> Forall P l ->
  length (chunks size m l) = m /\
  Forall (fun ch => length ch = size /\ Forall P ch) (chunks size m l).
Proof.
  revert l. induction m as [|m IH]; intros l Hl HP; simpl.
  - split; [reflexivity | constructor].
  - destruct (IH (skipn size l)) as [IHl IHf].
    + rewrite length_skipn. lia.
    + rewrite <- (firstn_skipn size l) in HP. now apply Forall_app in HP.
    + split; [now rewrite IHl|]. constructor; [|assumption]. split.
      * rewrite length_firstn. lia.
      * rewrite <- (firstn_skipn size l) in HP. now apply Forall_app in HP.
Qed.

Lemma zipw_ten_shape (T1 T2 : Ten) (m k s : nat) :
  is_ten m k s T1 -> is_ten m k s T2 ->
  is_ten m k s (zipw (zipw (zipw Rplus)) T1 T2).
Proof.
  intros [H1l H1f] [H2l H2f]. split.
  - rewrite zipw_length. lia.
  - apply Forall_forall. intros M HM.
    apply In_nth with (d := []) in HM. destruct HM as [i [Hi <-]].
    rewrite zipw_length in Hi.
    rewrite (zipw_nth_gen _ _ _ i [] []) by lia.
    rewrite Forall_forall in H1f, H2f.
    destruct (H1f (nth i T1 [])) as [A1 A2]; [apply nth_In; lia|].
    destruct (H2f (nth i T2 [])) as [B1 B2]; [apply nth_In; lia|].
    split; [rewrite zipw_length; lia|].
    apply Forall_forall. intros r Hr.
    apply In_nth with (d := []) in Hr. destruct Hr as [j [Hj <-]].
    rewrite zipw_length in Hj.
    rewrite (zipw_nth_gen _ _ _ j [] []) by lia.
    rewrite Forall_forall in A2, B2.
    unfold is_vec. rewrite zipw_length.
    rewrite (A2 (nth j (nth i T1 []) [])) by (apply nth_In; lia).
    rewrite (B2 (nth j (nth i T2 []) [])) by (apply nth_In; lia).
    apply Nat.min_id.
Qed.

Lemma setdiff_spec (dim : nat) (dims : list nat) (i : nat) :
  In i (np_setdiff1d_range dim dims) <-> (i < dim)%nat /\ ~ In i dims.
Proof.
  unfold np_setdiff1d_range. rewrite filter_In, in_seq, negb_true_iff.
  split; intros [H1 H2]; (split; [lia|]).
  - intros Hin. assert (He : existsb (Nat.eqb i) dims = true).
    { apply existsb_exists. exists i. split; [assumption | apply Nat.eqb_refl]. }
    congruence.
  - destruct (existsb (Nat.eqb i) dims) eqn:E; [|reflexivity].
    apply existsb_exists in E. destruct E as [x [Hx Hix]].
    apply Nat.eqb_eq in Hix. subst. contradiction.
Qed.

Lemma filter_length_split {A} (f : A -> bool) (l : list A) :
  (length (filter f l) + length (filter (fun x => negb (f x)) l))%nat = length l.
Proof.
  induction l as [|x l IH]; simpl; [reflexivity|].
  destruct (f x); simpl; lia.
Qed.

Lemma setdiff_length (dim : nat) (dims : list nat) :
  NoDup dims -> Forall (fun i => (i < dim)%nat) dims ->
  length (np_setdiff1d_range dim dims) = (dim - length dims)%nat.
Proof.
  intros Hnd Hlt. unfold np_setdiff1d_range.
  pose proof (filter_length_split (fun i => existsb (Nat.eqb i) dims) (seq 0 dim)) as Hs.
  rewrite length_seq in Hs.
  assert (Hp : length (filter (fun i => existsb (Nat.eqb i) dims) (seq 0 dim))
               = length dims).
  { apply Permutation_length, NoDup_Permutation.
    - apply NoDup_filter, seq_NoDup.
    - assumption.
    - intros i. rewrite filter_In, in_seq, existsb_exists. split.
      + intros [_ [x [Hx Hix]]]. apply Nat.eqb_eq in Hix. now subst.
      + intros Hin. rewrite Forall_forall in Hlt. split; [specialize (Hlt i Hin); lia|].
        exists i. split; [assumption | apply Nat.eqb_refl]. }
  lia.
Qed.

Lemma entry_take_rows (data : Mat) (idx : list nat) (a j : nat) :
  (a < length idx)%nat ->
  entry (take_rows data idx) a j = entry data (nth a idx O) j.
Proof.
  intros Ha. unfold entry, row, take_rows.
  now rewrite (nth_map_in _ idx a O) by assumption.
Qed.

Lemma entry_np_ix (M : Mat) (rs cs : list nat) (a b : nat) :
  (a < length rs)%nat -> (b < length cs)%nat ->
  entry (np_ix M rs cs) a b = entry M (nth a rs O) (nth b cs O).
Proof.
  intros Ha Hb. unfold np_ix. unfold entry at 1. unfold row.
  rewrite (nth_map_in _ rs a O) by assumption.
  now rewrite (nth_map_in _ cs b O) by assumption.
Qed.

Lemma is_mat_np_ix (M : Mat) (rs cs : list nat) :
  is_mat (length rs) (length cs) (np_ix M rs cs).
Proof.
  unfold np_ix. split; [now rewrite length_map|].
  apply Forall_map, Forall_forall. intros a _. unfold is_vec. now rewrite length_map.
Qed.

Lemma is_mat_matmul (k : nat) (A B : Mat) : is_mat (length A) k (matmul k A B).
Proof.
  unfold matmul. split; [now rewrite length_map|].
  apply Forall_map, Forall_forall. intros r _. apply vecmat_length.
Qed.

Lemma entry_matmul (k c : nat) (A B : Mat) (a b : nat) :
  (a < length A)%nat -> (b < k)%nat -> length (row A a) = c -> is_mat c k B ->
  entry (matmul k A B) a b = sum_n c (fun e => entry A a e * entry B e b).
Proof.
  intros Ha Hb Hr HB. unfold matmul. unfold entry at 1. unfold row.
  rewrite (nth_map_in _ A a []) by assumption. fold (row A a).
  rewrite vecmat_nth by (rewrite ?Hr; assumption).
  now rewrite Hr.
Qed.

Lemma is_mat_zipw2 (f : R -> R -> R) (A B : Mat) (m k : nat) :
  is_mat m k A -> is_mat m k B -> is_mat m k (zipw (zipw f) A B).
Proof.
  intros [Al Af] [Bl Bf]. split; [rewrite zipw_length; lia|].
  apply Forall_forall. intros r Hr.
  apply In_nth with (d := []) in Hr. destruct Hr as [i [Hi <-]].
  rewrite zipw_length in Hi.
  rewrite (zipw_nth_gen _ _ _ i [] []) by lia.
  rewrite Forall_forall in Af, Bf. unfold is_vec in *. rewrite zipw_length.
  rewrite (Af (nth i A [])) by (apply nth_In; lia).
  rewrite (Bf (nth i B [])) by (apply nth_In; lia).
  apply Nat.min_id.
Qed.

Lemma entry_zipw2 (f : R -> R -> R) (A B : Mat) (m k a b : nat) :
  is_mat m k A -> is_mat m k B -> (a < m)%nat -> (b < k)%nat ->
  entry (zipw (zipw f) A B) a b = f (entry A a b) (entry B a b).
Proof.
  intros HA HB Ha Hb. unfold entry, row.
  rewrite (zipw_nth_gen _ _ _ a [] []) by (destruct HA, HB; lia).
  apply zipw_nth.
  - fold (row A a). now rewrite (is_mat_row m k A a).
  - fold (row B a). now rewrite (is_mat_row m k B a).
Qed.

Lemma is_mat_take_rows (data : Mat) (dd nk : nat) (idx : list nat) :
  is_mat dd nk data -> Forall (fun i => (i < dd)%nat) idx ->
  is_mat (length idx) nk (take_rows data idx).
Proof.
  intros Hd Hi. split; [unfold take_rows; now rewrite length_map|].
  eapply take_rows_shape; eauto.
Qed.

(** The array [x_cond[i,:,None] - dataset[dims_cond]] of one query. *)
Lemma is_mat_query_diff (xi : Vec) (Dc : Mat) (c nk : nat) :
  length xi = c -> is_mat c nk Dc ->
  is_mat c nk (zipw (fun xb drow => map (fun v => xb - v) drow) xi Dc).
Proof.
  intros Hx [Hl Hf]. split; [rewrite zipw_length; lia|].
  apply Forall_forall. intros r Hr.
  apply In_nth with (d := []) in Hr. destruct Hr as [b [Hb <-]].
  rewrite zipw_length in Hb.
  rewrite (zipw_nth_gen _ _ _ b 0 []) by lia.
  unfold is_vec. rewrite length_map.
  rewrite Forall_forall in Hf. apply Hf, nth_In. lia.
Qed.

Lemma entry_query_diff (xi : Vec) (Dc : Mat) (c nk b j : nat) :
  length xi = c -> is_mat c nk Dc -> (b < c)%nat -> (j < nk)%nat ->
  entry (zipw (fun xb drow => map (fun v => xb - v) drow) xi Dc) b j
  = nth b xi 0 - entry Dc b j.
Proof.
  intros Hx HD Hb Hj. unfold entry, row.
  rewrite (zipw_nth_gen _ _ _ b 0 []) by (destruct HD; lia).
  rewrite (nth_map_in _ _ j 0); [reflexivity|].
  fold (row Dc b). now rewrite (is_mat_row c nk Dc b).
Qed.

Lemma conditional_means_shape (data : Mat) (dims_samp dims_cond : list nat)
    (BCinv x_cond : Mat) (dd nk : nat) :
  is_mat dd nk data -> (0 < dd)%nat ->
  Forall (fun i => (i < dd)%nat) dims_samp ->
  length BCinv = length dims_samp ->
  is_ten (length x_cond) nk (length dims_samp)
         (conditional_means data dims_samp dims_cond BCinv x_cond).
Proof.
  intros Hd Hdd Hs Hb. unfold conditional_means.
  rewrite (shape1_is_mat dd nk data Hd Hdd).
  split; [now rewrite length_map|].
  apply Forall_map, Forall_forall. intros xi _.
  match goal with |- is_mat _ _ (transpose nk ?M) =>
    replace (length dims_samp) with (length M); [apply is_mat_transpose|]
  end.
  rewrite zipw_length. unfold take_rows, matmul. rewrite !length_map. lia.
Qed.

Lemma conditional_means_entry (data : Mat) (dims_samp dims_cond : list nat)
    (BCinv x_cond : Mat) (dd nk m i j a : nat) :
  is_mat dd nk data -> (0 < dd)%nat ->
  Forall (fun e => (e < dd)%nat) dims_samp ->
  Forall (fun e => (e < dd)%nat) dims_cond ->
  is_mat (length dims_samp) (length dims_cond) BCinv ->
  is_mat m (length dims_cond) x_cond ->
  (i < m)%nat -> (j < nk)%nat -> (a < length dims_samp)%nat ->
  ten_entry (conditional_means data dims_samp dims_cond BCinv x_cond) i j a
  = entry data (nth a dims_samp O) j
    + sum_n (length dims_cond)
        (fun b => entry BCinv a b
                  * (entry x_cond i b - entry data (nth b dims_cond O) j)).
Proof.
  intros Hd Hdd Hs Hc HB Hx Hi Hj Ha.
  unfold ten_entry, conditional_means.
  rewrite (shape1_is_mat dd nk data Hd Hdd).
  rewrite (nth_map_in _ x_cond i []) by (destruct Hx; lia).
  fold (row x_cond i).
  assert (Hxi : length (row x_cond i) = length dims_cond)
    by (eapply is_mat_row; eauto).
  pose proof (is_mat_take_rows data dd nk dims_cond Hd Hc) as HDc.
  pose proof (is_mat_take_rows data dd nk dims_samp Hd Hs) as HDs.
  set (diff := zipw (fun xb drow => map (fun v => xb - v) drow)
                    (row x_cond i) (take_rows data dims_cond)).
  assert (Hdiff : is_mat (length dims_cond) nk diff)
    by (apply is_mat_query_diff; assumption).
  assert (HP : is_mat (length dims_samp) nk (matmul nk BCinv diff)).
  { destruct HB as [HBl _]. rewrite <- HBl. apply is_mat_matmul. }
  unfold entry at 1. unfold row at 1.
  rewrite transpose_row by assumption. rewrite col_nth.
  rewrite (entry_zipw2 Rplus _ _ (length dims_samp) nk) by assumption.
  rewrite entry_take_rows by assumption. f_equal.
  rewrite (entry_matmul nk (length dims_cond));
    [| destruct HB; lia | assumption | eapply is_mat_row; eauto | assumption ].
  unfold sum_n. apply vsum_map_ext. intros b Hb. apply in_seq in Hb.
  f_equal. unfold diff.
  rewrite (entry_query_diff _ _ (length dims_cond) nk) by (assumption || lia).
  now rewrite entry_take_rows by lia.
Qed.

Lemma conditional_cov_shape (A B BCinv : Mat) (s : nat) :
  is_mat s s A -> length B = s -> length BCinv = s ->
  is_mat s s (conditional_cov A B BCinv).
Proof.
  intros HA HB HBC. unfold conditional_cov. apply is_mat_zipw2; [assumption|].
  rewrite HB. rewrite <- HBC at 1. apply is_mat_matmul.
Qed.

Lemma conditional_cov_entry (A B BCinv : Mat) (s c a a' : nat) :
  is_mat s s A -> is_mat s c B -> is_mat s c BCinv -> (0 < s)%nat ->
  (a < s)%nat -> (a' < s)%nat ->
  entry (conditional_cov A B BCinv) a a'
  = entry A a a' - sum_n c (fun b => entry BCinv a b * entry B a' b).
Proof.
  intros HA HB HBC Hs Ha Ha'. unfold conditional_cov.
  assert (HBl : length B = s) by (now destruct HB).
  assert (HBCl : length BCinv = s) by (now destruct HBC).
  rewrite (entry_zipw2 Rminus _ _ s s); try assumption.
  - f_equal. rewrite (shape1_is_mat s c B HB Hs).
    rewrite (entry_matmul _ c); [| lia | lia | eapply is_mat_row; eauto | ].
    + unfold sum_n. apply vsum_map_ext. intros b Hb. apply in_seq in Hb.
      f_equal. unfold entry at 1. unfold row.
      rewrite transpose_row by lia. apply col_nth.
    + apply is_mat_transpose.
  - rewrite HBl. rewrite <- HBCl at 1. apply is_mat_matmul.
Qed.

Lemma np_repeat_rows_app {A} (l1 l2 : list A) (c1 c2 : list nat) :
  length l1 = length c1 ->
  np_repeat_rows (l1 ++ l2) (c1 ++ c2)
  = np_repeat_rows l1 c1 ++ np_repeat_rows l2 c2.
Proof.
  unfold np_repeat_rows. revert c1.
  induction l1 as [|x l1 IH]; intros [|k c1] H; simpl in *; try lia; auto.
  rewrite IH by lia. now rewrite app_assoc.
Qed.

Lemma np_repeat_rows_concat {A} (L : list (list A)) (cs : list (list nat)) (nk : nat) :
  length L = length cs ->
  Forall (fun l => length l = nk) L -> Forall (fun c => length c = nk) cs ->
  np_repeat_rows (concat L) (concat cs) = concat (zipw np_repeat_rows L cs).
Proof.
  revert cs. induction L as [|l L IH]; intros [|c cs] Hl HL Hc; simpl in *;
    try lia; auto.
  inversion HL; subst. inversion Hc; subst.
  rewrite np_repeat_rows_app by lia. f_equal. apply IH; auto.
Qed.

Lemma chunks_concat {A} (size : nat) (L : list (list A)) :
  Forall (fun l => length l = size) L -> chunks size (length L) (concat L) = L.
Proof.
  induction 1 as [|l L Hl _ IH]; simpl; [reflexivity|].
  subst size.
  rewrite firstn_app, Nat.sub_diag, firstn_O, app_nil_r, firstn_all.
  rewrite skipn_app, Nat.sub_diag, skipn_O, skipn_all. simpl. now rewrite IH.
Qed.

(** Reshaping the repeated means to (m, size, s) gives, for each query row,
    the means of that row repeated by the counts drawn for it. *)
Lemma expanded_means_by_query (mus : Ten) (counts : list (list nat))
    (m nk size : nat) :
  length mus = m -> length counts = m ->
  Forall (fun M => length M = nk) mus ->
  Forall (fun c => length c = nk /\ list_sum c = size) counts ->
  chunks size m (np_repeat_rows (concat mus) (concat counts))
  = zipw np_repeat_rows mus counts.
Proof.
  intros Hm Hc Hmus Hcounts.
  rewrite (np_repeat_rows_concat mus counts nk); try lia; auto.
  - replace m with (length (zipw np_repeat_rows mus counts))
      by (rewrite zipw_length; lia).
    apply chunks_concat. apply Forall_forall. intros r Hr.
    apply In_nth with (d := []) in Hr. destruct Hr as [i [Hi <-]].
    rewrite zipw_length in Hi.
    rewrite (zipw_nth_gen _ _ _ i [] []) by lia.
    rewrite Forall_forall in Hmus, Hcounts.
    destruct (Hcounts (nth i counts [])) as [Hcl Hcs]; [apply nth_In; lia|].
    rewrite np_repeat_rows_length; [assumption|].
    rewrite Hcl. apply Hmus, nth_In. lia.
  - eapply Forall_impl; [|exact Hcounts]. now intros c [Hcl _].
Qed.


Lemma setdiff_sorted (dim : nat) (dims : list nat) :
  StronglySorted lt (np_setdiff1d_range dim dims).
Proof.
  unfold np_setdiff1d_range. generalize 0%nat as a.
  induction dim as [|dim IH]; intros a; simpl; [constructor|].
  assert (Hgt : Forall (lt a)
            (filter (fun i => negb (existsb (Nat.eqb i) dims)) (seq (S a) dim))).
  { apply Forall_forall. intros x Hx. apply filter_In in Hx.
    destruct Hx as [Hx _]. apply in_seq in Hx. lia. }
  destruct (negb (existsb (Nat.eqb a) dims)); [constructor; auto | apply IH].
Qed.

Lemma setdiff_in_range (dim : nat) (dims : list nat) :
  Forall (fun i => (i < dim)%nat) (np_setdiff1d_range dim dims).
Proof.
  apply Forall_forall. intros i Hi. now apply setdiff_spec in Hi.
Qed.

Section SamplerCorrect.

Variable eigh : Mat -> Vec * Mat.
Variable inv : Mat -> option Mat.
Variable RS : Type.
Variable Seed : Type.
Variable check_random_state : Seed -> RS.
Variable multinomial : RS -> nat -> Vec -> RS * list nat.
Variable multivariate_normal : RS -> Vec -> Mat -> nat * nat -> RS * Ten.

Lemma conditional_resample_value (st : kde) (size : nat) (x_cond : ndarray)
    (dims_cond : list nat) (seed : Seed) (cv Cinv : Mat) (m nk : nat) :
  valid_query st cv (atleast_2d_T_T x_cond) dims_cond m nk ->
  let dims_samp := np_setdiff1d_range (d st) dims_cond in
  let A := block_A cv dims_samp dims_cond in
  let B := block_B cv dims_samp dims_cond in
  let C := block_C cv dims_samp dims_cond in
  inv C = Some Cinv ->
  multinomial_contract multinomial ->
  multivariate_normal_contract multivariate_normal ->
  let x2 := atleast_2d_T_T x_cond in
  let BCinv := matmul (shape1 Cinv) B Cinv in
  let cov := conditional_cov A B BCinv in
  let mus := conditional_means (dataset st) dims_samp dims_cond BCinv x2 in
  let logpdfs :=
    _mvn_logpdf eigh x2
      (transpose (shape1 (dataset st)) (take_rows (dataset st) dims_cond)) C in
  let drawn := draw_counts RS multinomial (check_random_state seed) size
                           (kernel_probabilities logpdfs) in
  let expanded := chunks size m (np_repeat_rows (concat mus) (concat (snd drawn))) in
  let anoms := snd (multivariate_normal (fst drawn) (repeat 0 (length dims_samp))
                                        cov (m, size)) in
  conditional_resample eigh inv RS Seed check_random_state multinomial
                       multivariate_normal st size x_cond dims_cond seed
  = Returned (zipw (zipw (zipw Rplus)) expanded anoms) /\
  is_ten m size (length dims_samp) expanded /\
  is_ten m size (length dims_samp) anoms /\
  length (snd drawn) = m /\
  Forall (fun c => length c = nk /\ list_sum c = size) (snd drawn) /\
  expanded = zipw np_repeat_rows mus (snd drawn).
Proof.
  intros [Hcv [Hcvs [Hd [Hnk [Hx [Hm [Hnd [Hr Hlt]]]]]]]]
         dims_samp A B C Hinv Hmc Hnc x2 BCinv cov mus logpdfs drawn expanded anoms.
  assert (Hs : length dims_samp = (d st - length dims_cond)%nat)
    by (apply setdiff_length; assumption).
  assert (Hdd : (0 < d st)%nat) by lia.
  assert (Hnkd : shape1 (dataset st) = nk) by (eapply shape1_is_mat; eauto).
  assert (Hlp : is_mat m nk logpdfs).
  { unfold logpdfs. destruct Hx as [Hxl _]. rewrite <- Hxl.
    replace nk with
      (length (transpose (shape1 (dataset st)) (take_rows (dataset st) dims_cond)))
      by (rewrite transpose_length; assumption).
    apply mvn_logpdf_shape. }
  destruct (kernel_probabilities_rows logpdfs m nk Hlp Hm Hnk) as [[Hpl Hpv] Hpp].
  destruct (draw_counts_contract multinomial (check_random_state seed) size nk
              (kernel_probabilities logpdfs) Hmc Hpv Hpp) as [Hcl Hcf].
  fold drawn in Hcl, Hcf.
  assert (HA : is_mat (length dims_samp) (length dims_samp) A) by apply is_mat_np_ix.
  assert (HBl : length B = length dims_samp)
    by (unfold B, block_B, np_ix; now rewrite length_map).
  assert (HBCl : length BCinv = length dims_samp)
    by (unfold BCinv, matmul; now rewrite length_map).
  assert (Hcov : is_mat (length dims_samp) (length dims_samp) cov)
    by (apply conditional_cov_shape; assumption).
  assert (Hmus : is_ten (length x2) nk (length dims_samp) mus).
  { eapply conditional_means_shape; eauto. apply setdiff_in_range. }
  assert (Hx2 : length x2 = m) by (now destruct Hx).
  rewrite Hx2 in Hmus. destruct Hmus as [Hml Hmf].
  assert (Hflat : length (concat mus) = (m * nk)%nat).
  { rewrite <- Hml. apply length_concat_const.
    eapply Forall_impl; [|exact Hmf]. now intros M [HM _]. }
  assert (Hflatv : Forall (is_vec (length dims_samp)) (concat mus)).
  { apply Forall_concat. eapply Forall_impl; [|exact Hmf]. now intros M [_ HM]. }
  assert (Hcc : length (concat (snd drawn)) = (m * nk)%nat).
  { rewrite <- Hpl, <- Hcl. apply length_concat_const.
    eapply Forall_impl; [|exact Hcf]. now intros c [Hc _]. }
  assert (Hrep : length (np_repeat_rows (concat mus) (concat (snd drawn)))
                 = (m * size)%nat).
  { rewrite np_repeat_rows_length by lia.
    rewrite <- Hpl, <- Hcl. apply list_sum_concat_const.
    eapply Forall_impl; [|exact Hcf]. now intros c [_ Hc]. }
  assert (Hexp : is_ten m size (length dims_samp) expanded).
  { unfold expanded.
    destruct (chunks_shape (is_vec (length dims_samp)) size m _ Hrep
                (np_repeat_rows_Forall _ _ _ Hflatv)) as [Hel Hef].
    split; assumption. }
  assert (Han : is_ten m size (length dims_samp) anoms).
  { unfold anoms.
    pose proof (Hnc (fst drawn) (repeat 0 (length dims_samp)) cov m size) as Hn.
    rewrite repeat_length in Hn. now apply Hn. }
  assert (Hall : expanded = zipw np_repeat_rows mus (snd drawn)).
  { unfold expanded. apply (expanded_means_by_query mus (snd drawn) m nk size);
      try assumption; try lia.
    eapply Forall_impl; [|exact Hmf]. now intros M [HM _]. }
  split;
    [| split; [exact Hexp | split; [exact Han | split; [lia | split;
         [exact Hcf | exact Hall]]]]].
  clear Hall.
  unfold conditional_resample. fold x2.
  replace (shape1 x2 =? length dims_cond)%nat with true
    by (symmetry; apply Nat.eqb_eq; eapply shape1_is_mat; eauto).
  cbn [negb]. rewrite Hcv. fold dims_samp A B C logpdfs drawn.
  destruct drawn as [rs1 counts] eqn:Edrawn.
  rewrite Hinv. fold BCinv cov mus.
  replace (length dims_samp =? 0)%nat with false
    by (symmetry; apply Nat.eqb_neq; lia).
  cbn [snd] in *.
  replace (length (concat mus) =? length (concat counts))%nat with true
    by (symmetry; apply Nat.eqb_eq; lia).
  cbn [negb]. rewrite Hx2.
  replace (length (np_repeat_rows (concat mus) (concat counts)) =? m * size)%nat
    with true by (symmetry; apply Nat.eqb_eq; lia).
  cbn [negb].
  replace (length cov) with (length dims_samp) by (now destruct Hcov).
  unfold anoms, expanded. cbn [fst].
  now destruct (multivariate_normal rs1 (repeat 0 (length dims_samp)) cov (m, size)).
Qed.

End SamplerCorrect.

(** ** C7 *)

(** C7.  For a valid query (m >= 1 rows of conditioning values on distinct
    conditioning dimensions below [d] that leave a dimension to sample, a
    conditioning block that [inv] inverts, a generator that meets its
    contracts), [conditional_resample] returns an array of shape
    (m, size, |dims_samp|), where [dims_samp] is the increasing list of the
    dimensions below [d] that are not in [dims_cond] and has
    [d - len(dims_cond)] entries. *)
Theorem conditional_resample_shape
    (eigh : Mat -> Vec * Mat) (inv : Mat -> option Mat) (RS Seed : Type)
    (check_random_state : Seed -> RS)
    (multinomial : RS -> nat -> Vec -> RS * list nat)
    (multivariate_normal : RS -> Vec -> Mat -> nat * nat -> RS * Ten)
    (st : kde) (size : nat) (x_cond : ndarray) (dims_cond : list nat)
    (seed : Seed) (cv Cinv : Mat) (m nk : nat) :
  valid_query st cv (atleast_2d_T_T x_cond) dims_cond m nk ->
  inv (block_C cv (np_setdiff1d_range (d st) dims_cond) dims_cond) = Some Cinv ->
  multinomial_contract multinomial ->
  multivariate_normal_contract multivariate_normal ->
  let dims_samp := np_setdiff1d_range (d st) dims_cond in
  (exists T,
     conditional_resample eigh inv RS Seed check_random_state multinomial
                          multivariate_normal st size x_cond dims_cond seed
     = Returned T /\
     is_ten m size (length dims_samp) T) /\
  length dims_samp = (d st - length dims_cond)%nat /\
  (forall i, In i dims_samp <-> (i < d st)%nat /\ ~ In i dims_cond) /\
  StronglySorted lt dims_samp.
Proof.
  intros Hv Hinv Hmc Hnc dims_samp.
  destruct (conditional_resample_value eigh inv RS Seed check_random_state
              multinomial multivariate_normal st size x_cond dims_cond seed
              cv Cinv m nk Hv Hinv Hmc Hnc) as [Heq [Hexp [Han _]]].
  split; [|split; [|split]].
  - eexists. split; [exact Heq|]. now apply zipw_ten_shape.
  - destruct Hv as [_ [_ [_ [_ [_ [_ [Hnd [Hr _]]]]]]]].
    now apply setdiff_length.
  - intros i. apply setdiff_spec.
  - apply setdiff_sorted.
Qed.

Lemma multinomial_first_contract : multinomial_contract multinomial_first.
Proof.
  intros rs size p [_ Hsum]. unfold multinomial_first. simpl.
  destruct p as [|x p]; simpl in *; [lra|].
  rewrite repeat_length. split; [reflexivity|].
  assert (H0 : forall k, list_sum (repeat O k) = O)
    by (induction k; simpl; auto).
  rewrite H0. lia.
Qed.

Lemma multivariate_normal_zero_contract :
  multivariate_normal_contract multivariate_normal_zero.
Proof.
  intros rs mean cov m size _. unfold multivariate_normal_zero. simpl.
  split; [apply repeat_length|].
  apply Forall_forall. intros M HM. apply repeat_spec in HM. subst M.
  split; [apply repeat_length|].
  apply Forall_forall. intros r Hr. apply repeat_spec in Hr. subst r.
  unfold is_vec. apply length_map.
Qed.

Lemma three_point_query_valid :
  valid_query three_point_kde [[1; 0]; [0; 1]] [[1]; [2]] [0%nat] 2 3.
Proof.
  unfold valid_query. simpl.
  repeat split; try lia; repeat constructor; try lia.
  intros [].
Qed.

Lemma three_point_block_inverse :
  inv_1x1 (block_C [[1; 0]; [0; 1]] (np_setdiff1d_range 2 [0%nat]) [0%nat])
  = Some [[/ 1]].
Proof.
  unfold inv_1x1. cbn. destruct (Req_dec_T 1 0) as [H|_]; [lra | reflexivity].
Qed.

Lemma conditional_resample_shape_witness :
  let dims_samp := np_setdiff1d_range 2 [0%nat] in
  (exists T,
     conditional_resample eigh_diagonal inv_1x1 unit unit (fun s => s)
                          multinomial_first multivariate_normal_zero
                          three_point_kde 4 (Arr2 [[1]; [2]]) [0%nat] tt
     = Returned T /\
     is_ten 2 4 (length dims_samp) T) /\
  length dims_samp = (2 - 1)%nat /\
  (forall i, In i dims_samp <-> (i < 2)%nat /\ ~ In i [0%nat]) /\
  StronglySorted lt dims_samp.
Proof.
  exact (conditional_resample_shape eigh_diagonal inv_1x1 unit unit (fun s => s)
           multinomial_first multivariate_normal_zero three_point_kde 4
           (Arr2 [[1]; [2]]) [0%nat] tt [[1; 0]; [0; 1]] [[/ 1]] 2 3
           three_point_query_valid three_point_block_inverse
           multinomial_first_contract multivariate_normal_zero_contract).
Defined.

(** ** C6 *)

(** C6.  For a valid query, with [A], [B], [C] the samp/samp, samp/cond and
    cond/cond blocks of the kernel covariance (entry by entry:
    [A[a,a'] = cov[samp a, samp a']], [B[a,b] = cov[samp a, cond b]],
    [C[b,b'] = cov[cond b, cond b']]) and [Cinv] the inverse of [C] that
    [np.linalg.inv] returns: [BCinv = B @ Cinv] is the matrix with
    [BCinv @ C = B]; the conditional mean of query row [i] and kernel [j] is
    [dataset[samp, j] + BCinv @ (x_cond[i] - dataset[cond, j])]; the
    conditional covariance is [A - BCinv @ B.T], a single (s,s) matrix that
    depends on neither the query nor the kernel; and the value returned
    holds, for each query row, the means of that row repeated by the counts
    drawn for it from the kernel weights under [C] (one count per kernel,
    [size] in total), plus noise drawn in one call with that covariance for
    all queries and samples. *)
Theorem conditional_moments_are_schur
    (eigh : Mat -> Vec * Mat) (inv : Mat -> option Mat) (RS Seed : Type)
    (check_random_state : Seed -> RS)
    (multinomial : RS -> nat -> Vec -> RS * list nat)
    (multivariate_normal : RS -> Vec -> Mat -> nat * nat -> RS * Ten)
    (st : kde) (size : nat) (x_cond : ndarray) (dims_cond : list nat)
    (seed : Seed) (cv Cinv : Mat) (m nk : nat) :
  valid_query st cv (atleast_2d_T_T x_cond) dims_cond m nk ->
  let dims_samp := np_setdiff1d_range (d st) dims_cond in
  let c := length dims_cond in
  let s := length dims_samp in
  let A := block_A cv dims_samp dims_cond in
  let B := block_B cv dims_samp dims_cond in
  let C := block_C cv dims_samp dims_cond in
  inv C = Some Cinv ->
  inverse_of c C Cinv ->
  multinomial_contract multinomial ->
  multivariate_normal_contract multivariate_normal ->
  let x2 := atleast_2d_T_T x_cond in
  let samp a := nth a dims_samp O in
  let cond b := nth b dims_cond O in
  let BCinv := matmul (shape1 Cinv) B Cinv in
  let cov := conditional_cov A B BCinv in
  let mus := conditional_means (dataset st) dims_samp dims_cond BCinv x2 in
  let logpdfs :=
    _mvn_logpdf eigh x2
      (transpose (shape1 (dataset st)) (take_rows (dataset st) dims_cond)) C in
  let drawn := draw_counts RS multinomial (check_random_state seed) size
                           (kernel_probabilities logpdfs) in
  (is_mat s s A /\ is_mat s c B /\ is_mat c c C /\
   (forall a a', (a < s)%nat -> (a' < s)%nat ->
      entry A a a' = entry cv (samp a) (samp a')) /\
   (forall a b, (a < s)%nat -> (b < c)%nat ->
      entry B a b = entry cv (samp a) (cond b)) /\
   (forall b b', (b < c)%nat -> (b' < c)%nat ->
      entry C b b' = entry cv (cond b) (cond b'))) /\
  (forall a b, (a < s)%nat -> (b < c)%nat ->
     entry BCinv a b
     = sum_n c (fun e => entry cv (samp a) (cond e) * entry Cinv e b)) /\
  (forall a b, (a < s)%nat -> (b < c)%nat ->
     sum_n c (fun e => entry BCinv a e * entry cv (cond e) (cond b))
     = entry cv (samp a) (cond b)) /\
  (forall i j a, (i < m)%nat -> (j < nk)%nat -> (a < s)%nat ->
     ten_entry mus i j a
     = entry (dataset st) (samp a) j
       + sum_n c (fun b => entry BCinv a b
                           * (entry x2 i b - entry (dataset st) (cond b) j))) /\
  is_mat s s cov /\
  (forall a a', (a < s)%nat -> (a' < s)%nat ->
     entry cov a a'
     = entry cv (samp a) (samp a')
       - sum_n c (fun b => entry BCinv a b * entry cv (samp a') (cond b))) /\
  length (snd drawn) = m /\
  Forall (fun cn => length cn = nk /\ list_sum cn = size) (snd drawn) /\
  conditional_resample eigh inv RS Seed check_random_state multinomial
                       multivariate_normal st size x_cond dims_cond seed
  = Returned
      (zipw (zipw (zipw Rplus))
            (zipw np_repeat_rows mus (snd drawn))
            (snd (multivariate_normal (fst drawn) (repeat 0 s) cov (m, size)))).
Proof.
  intros Hv dims_samp c s A B C Hinv Hinverse Hmc Hnc x2 samp cond BCinv cov mus
    logpdfs drawn.
  pose proof Hinverse as [HCinv [Hleft _]].
  pose proof Hv as [Hcv [Hcvs [Hd [Hnk [Hx [Hm [Hnd [Hr Hlt]]]]]]]].
  assert (Hs : s = (d st - c)%nat) by (apply setdiff_length; assumption).
  assert (Hspos : (0 < s)%nat) by (unfold c in *; lia).
  assert (Hdd : (0 < d st)%nat) by lia.
  assert (HB : is_mat s c B) by apply is_mat_np_ix.
  assert (HA : is_mat s s A) by apply is_mat_np_ix.
  assert (HC : is_mat c c C) by apply is_mat_np_ix.
  assert (HAe : forall a a', (a < s)%nat -> (a' < s)%nat ->
            entry A a a' = entry cv (samp a) (samp a')).
  { intros a a' Ha Ha'. unfold A, block_A. now rewrite entry_np_ix. }
  assert (HBe : forall a b, (a < s)%nat -> (b < c)%nat ->
            entry B a b = entry cv (samp a) (cond b)).
  { intros a b Ha Hb. unfold B, block_B. now rewrite entry_np_ix. }
  assert (HCe : forall b b', (b < c)%nat -> (b' < c)%nat ->
            entry C b b' = entry cv (cond b) (cond b')).
  { intros b b' Hb Hb'. unfold C, block_C. now rewrite entry_np_ix. }
  assert (HBC : is_mat s c BCinv).
  { unfold BCinv. rewrite (shape1_square c Cinv HCinv).
    destruct HB as [HBl _]. rewrite <- HBl. apply is_mat_matmul. }
  assert (HBCe : forall a b, (a < s)%nat -> (b < c)%nat ->
            entry BCinv a b
            = sum_n c (fun e => entry cv (samp a) (cond e) * entry Cinv e b)).
  { intros a b Ha Hb. unfold BCinv. rewrite (shape1_square c Cinv HCinv).
    rewrite (entry_matmul c c);
      [| destruct HB; lia | assumption | eapply is_mat_row; eauto | assumption ].
    apply sum_n_ext. intros e He. now rewrite HBe. }
  split; [repeat split; assumption || apply HA || apply HB || apply HC|].
  split; [exact HBCe|].
  split; [|split; [|split; [|split]]].
  - intros a b Ha Hb.
    rewrite (sum_n_ext c _
               (fun e => sum_n c (fun f =>
                  entry cv (samp a) (cond f) * (entry Cinv f e * entry C e b)))).
    + rewrite sum_n_swap.
      rewrite (sum_n_ext c _
                 (fun f => (if Nat.eqb f b then 1 else 0)
                           * entry cv (samp a) (cond f))).
      * now apply (sum_n_delta c b (fun f => entry cv (samp a) (cond f))).
      * intros f Hf. rewrite sum_n_scale, (Hleft f b Hf Hb). ring.
    + intros e He. rewrite (HBCe a e Ha He), <- (HCe e b He Hb).
      rewrite <- sum_n_scale_r. apply sum_n_ext. intros f _. ring.
  - intros i j a Hi Hj Ha.
    apply (conditional_means_entry (dataset st) dims_samp dims_cond BCinv x2
             (d st) nk m i j a); auto.
    apply setdiff_in_range.
  - apply conditional_cov_shape; [assumption | now destruct HB | now destruct HBC].
  - intros a a' Ha Ha'. unfold cov.
    rewrite (conditional_cov_entry _ _ _ s c) by assumption.
    rewrite HAe by assumption. f_equal.
    apply sum_n_ext. intros b Hb. now rewrite HBe.
  - destruct (conditional_resample_value eigh inv RS Seed check_random_state
                multinomial multivariate_normal st size x_cond dims_cond seed
                cv Cinv m nk Hv Hinv Hmc Hnc) as [Heq [_ [_ [Hcl [Hcf Hexp]]]]].
    split; [exact Hcl|]. split; [exact Hcf|].
    rewrite Heq. cbv zeta. now rewrite Hexp.
Qed.

Lemma three_point_full_query_valid :
  valid_query three_point_full_kde [[7 / 3; 1 / 2]; [1 / 2; 1]] [[1]; [2]]
              [0%nat] 2 3.
Proof.
  unfold valid_query. simpl.
  repeat split; try lia; repeat constructor; try lia.
  intros [].
Qed.

Lemma three_point_full_block_inverse :
  inv_1x1 (block_C [[7 / 3; 1 / 2]; [1 / 2; 1]] (np_setdiff1d_range 2 [0%nat])
                   [0%nat])
  = Some [[/ (7 / 3)]].
Proof.
  unfold inv_1x1. cbn. destruct (Req_dec_T (7 / 3) 0) as [H|_]; [lra | reflexivity].
Qed.

Lemma three_point_full_inverse_of :
  inverse_of 1 (block_C [[7 / 3; 1 / 2]; [1 / 2; 1]] (np_setdiff1d_range 2 [0%nat])
                        [0%nat])
             [[/ (7 / 3)]].
Proof.
  split; [split; [reflexivity | repeat constructor]|].
  split; intros a b Ha Hb; destruct a as [|a]; destruct b as [|b]; try lia;
    unfold sum_n, entry, row; cbn; field.
Qed.

Lemma conditional_moments_are_schur_witness :
  let st := three_point_full_kde in
  let cv := [[7 / 3; 1 / 2]; [1 / 2; 1]] in
  let Cinv := [[/ (7 / 3)]] in
  let dims_cond := [0%nat] in
  let dims_samp := np_setdiff1d_range 2 dims_cond in
  let A := block_A cv dims_samp dims_cond in
  let B := block_B cv dims_samp dims_cond in
  let C := block_C cv dims_samp dims_cond in
  let x2 := [[1]; [2]] in
  let samp a := nth a dims_samp O in
  let cond b := nth b dims_cond O in
  let BCinv := matmul (shape1 Cinv) B Cinv in
  let cov := conditional_cov A B BCinv in
  let mus := conditional_means (dataset st) dims_samp dims_cond BCinv x2 in
  let logpdfs :=
    _mvn_logpdf eigh_diagonal x2
      (transpose (shape1 (dataset st)) (take_rows (dataset st) dims_cond)) C in
  let drawn := draw_counts unit multinomial_first tt 4
                           (kernel_probabilities logpdfs) in
  (is_mat 1 1 A /\ is_mat 1 1 B /\ is_mat 1 1 C /\
   (forall a a', (a < 1)%nat -> (a' < 1)%nat ->
      entry A a a' = entry cv (samp a) (samp a')) /\
   (forall a b, (a < 1)%nat -> (b < 1)%nat ->
      entry B a b = entry cv (samp a) (cond b)) /\
   (forall b b', (b < 1)%nat -> (b' < 1)%nat ->
      entry C b b' = entry cv (cond b) (cond b'))) /\
  (forall a b, (a < 1)%nat -> (b < 1)%nat ->
     entry BCinv a b
     = sum_n 1 (fun e => entry cv (samp a) (cond e) * entry Cinv e b)) /\
  (forall a b, (a < 1)%nat -> (b < 1)%nat ->
     sum_n 1 (fun e => entry BCinv a e * entry cv (cond e) (cond b))
     = entry cv (samp a) (cond b)) /\
  (forall i j a, (i < 2)%nat -> (j < 3)%nat -> (a < 1)%nat ->
     ten_entry mus i j a
     = entry (dataset st) (samp a) j
       + sum_n 1 (fun b => entry BCinv a b
                           * (entry x2 i b - entry (dataset st) (cond b) j))) /\
  is_mat 1 1 cov /\
  (forall a a', (a < 1)%nat -> (a' < 1)%nat ->
     entry cov a a'
     = entry cv (samp a) (samp a')
       - sum_n 1 (fun b => entry BCinv a b * entry cv (samp a') (cond b))) /\
  length (snd drawn) = 2%nat /\
  Forall (fun cn => length cn = 3%nat /\ list_sum cn = 4%nat) (snd drawn) /\
  conditional_resample eigh_diagonal inv_1x1 unit unit (fun s => s)
                       multinomial_first multivariate_normal_zero
                       st 4 (Arr2 x2) dims_cond tt
  = Returned
      (zipw (zipw (zipw Rplus))
            (zipw np_repeat_rows mus (snd drawn))
            (snd (multivariate_normal_zero (fst drawn) (repeat 0 1) cov
                                           (2%nat, 4%nat)))).
Proof.
  exact (conditional_moments_are_schur eigh_diagonal inv_1x1 unit unit (fun s => s)
           multinomial_first multivariate_normal_zero three_point_full_kde 4
           (Arr2 [[1]; [2]]) [0%nat] tt [[7 / 3; 1 / 2]; [1 / 2; 1]]
           [[/ (7 / 3)]] 2 3
           three_point_full_query_valid three_point_full_block_inverse
           three_point_full_inverse_of
           multinomial_first_contract multivariate_normal_zero_contract).
Defined.

(** * Part III: further properties of the code *)

(** ** k-fold splitting: train sets, leave-one-out, more folds than points *)

Local Open Scope nat_scope.

Lemma filter_neq_seq (j k : nat) :
  j < k ->
  filter (fun i => negb (i =? j)) (seq 0 k) = seq 0 j ++ seq (S j) (k - S j).
Proof.
  intros Hj. replace k with (j + (1 + (k - S j))) at 1 by lia.
  rewrite seq_app, seq_app, !filter_app. simpl.
  rewrite Nat.eqb_refl. simpl.
  rewrite !forallb_filter_id.
  - now rewrite Nat.add_1_r.
  - apply forallb_forall. intros i Hi. apply in_seq in Hi.
    apply negb_true_iff, Nat.eqb_neq. lia.
  - apply forallb_forall. intros i Hi. apply in_seq in Hi.
    apply negb_true_iff, Nat.eqb_neq. lia.
Qed.

Lemma blocks_concat_from (n k a len : nat) :
  concat (map (block n k) (seq a len))
  = seq (block_start n k a) (block_start n k (a + len) - block_start n k a).
Proof.
  induction len as [|len IH].
  - simpl. now rewrite Nat.add_0_r, Nat.sub_diag.
  - rewrite seq_S, map_app, concat_app, IH. simpl. rewrite app_nil_r.
    replace (a + S len) with (S (a + len)) by lia.
    unfold block at 1.
    pose proof (block_start_mono n k a (a + len) ltac:(lia)).
    pose proof (block_start_succ n k (a + len)) as Hs.
    replace (block_start n k (S (a + len)) - block_start n k a)
      with ((block_start n k (a + len) - block_start n k a) + block_size n k (a + len))
      by lia.
    rewrite seq_app. f_equal. f_equal. lia.
Qed.

Lemma kfold_train_explicit_aux (n k j : nat) :
  0 < k -> j < k ->
  concat (map (block n k) (filter (fun i => negb (i =? j)) (seq 0 k)))
  = seq 0 (block_start n k j)
    ++ seq (block_start n k (S j)) (n - block_start n k (S j)).
Proof.
  intros Hk Hj. rewrite filter_neq_seq, map_app, concat_app by assumption.
  rewrite !blocks_concat_from. simpl.
  replace (S (j + (k - S j))) with k by lia.
  rewrite (block_start_last n k Hk).
  assert (H0 : block_start n k 0 = 0) by (unfold block_start; simpl; lia).
  rewrite H0, Nat.sub_0_r. reflexivity.
Qed.

Lemma kfold_split_nth {A} (X : list A) (k j : nat) :
  2 <= k -> j < k ->
  exists folds,
    kfold_split X k = Some folds /\ length folds = k /\
    nth j folds ([], [])
    = (seq 0 (block_start (length X) k j)
         ++ seq (block_start (length X) k (S j))
                (length X - block_start (length X) k (S j)),
       block (length X) k j).
Proof.
  intros Hk Hj. eexists. split; [apply kfold_split_eq; assumption|].
  split; [now rewrite length_map, length_seq|].
  rewrite (nth_map_in _ _ j 0) by (rewrite length_seq; lia).
  rewrite seq_nth by lia. simpl.
  now rewrite kfold_train_explicit_aux by lia.
Qed.

(** X1.  For [k >= 2] the train set of fold [j] is the indices before the
    test block followed by the indices after it; train and test together
    are a rearrangement of [0 .. n-1], so every fold uses every point
    exactly once.  The order of the train indices is the increasing order
    in which CPython iterates [set(range(k)) - {j}]; the rearrangement and
    the sizes do not depend on it.  ([k = 1] raises [ValueError].) *)
Theorem kfold_split_train_is_the_rest {A} (X : list A) (k j : nat) :
  2 <= k -> j < k ->
  exists folds,
    kfold_split X k = Some folds /\
    let f := nth j folds ([], []) in
    let n := length X in
    train f = seq 0 (block_start n k j)
              ++ seq (block_start n k (S j)) (n - block_start n k (S j)) /\
    Permutation (train f ++ test f) (seq 0 n) /\
    length (train f) + length (test f) = n.
Proof.
  intros Hk Hj.
  destruct (kfold_split_nth X k j ltac:(lia) Hj) as [folds [Hf [_ Hn]]].
  exists folds. split; [assumption|]. cbv zeta. rewrite Hn.
  unfold train, test. simpl fst. simpl snd.
  set (n := length X).
  pose proof (block_start_succ n k j) as Hs.
  pose proof (block_start_mono n k (S j) k ltac:(lia)) as Hm.
  rewrite (block_start_last n k ltac:(lia)) in Hm.
  split; [reflexivity|]. split.
  - unfold block. rewrite <- app_assoc.
    replace (seq 0 n)
      with (seq 0 (block_start n k j)
              ++ seq (block_start n k j) (block_size n k j)
              ++ seq (block_start n k (S j)) (n - block_start n k (S j))).
    + apply Permutation_app_head, Permutation_app_comm.
    + rewrite Hs, <- !seq_app. f_equal. lia.
  - unfold block. rewrite length_app, !length_seq. lia.
Qed.

Lemma kfold_split_train_is_the_rest_witness :
  2 <= 2 /\ 1 < 2 /\
  exists folds,
    kfold_split [[0%R]; [1%R]; [2%R]; [3%R]; [4%R]] 2 = Some folds /\
    let f := nth 1 folds ([], []) in
    let n := 5 in
    train f = seq 0 (block_start n 2 1)
              ++ seq (block_start n 2 2) (n - block_start n 2 2) /\
    Permutation (train f ++ test f) (seq 0 n) /\
    length (train f) + length (test f) = n.
Proof.
  split; [lia|]. split; [lia|].
  apply (kfold_split_train_is_the_rest [[0%R]; [1%R]; [2%R]; [3%R]; [4%R]] 2 1); lia.
Defined.

Lemma block_start_loo (n j : nat) : 0 < n -> j <= n -> block_start n n j = j.
Proof.
  intros Hn Hj. unfold block_start.
  rewrite Nat.div_same, Nat.Div0.mod_same by lia. lia.
Qed.

Lemma block_start_many (n k j : nat) : n < k -> block_start n k j = Nat.min j n.
Proof.
  intros Hk. unfold block_start.
  rewrite Nat.div_small, Nat.mod_small by lia. lia.
Qed.

Lemma block_size_loo (n j : nat) : 0 < n -> block_size n n j = 1.
Proof.
  intros Hn. unfold block_size.
  rewrite Nat.div_same, Nat.Div0.mod_same by lia. reflexivity.
Qed.

(** The leave-one-out folds over [n] indices. *)
Lemma kfold_split_loo_eq {A} (X : list A) :
  2 <= length X ->
  kfold_split X (length X)
  = Some (map (fun j => (seq 0 j ++ seq (S j) (length X - S j), [j]))
              (seq 0 (length X))).
Proof.
  intros Hn. rewrite kfold_split_eq by lia. f_equal.
  apply map_ext_in. intros j Hj. apply in_seq in Hj.
  rewrite kfold_train_explicit_aux by lia.
  rewrite !block_start_loo by lia.
  unfold block. rewrite block_start_loo, block_size_loo by lia. reflexivity.
Qed.

(** X2.  With as many folds as points, at least two (the default
    [k = None] of [set_bandwidth]), the split is leave-one-out: fold [j]
    tests the single index [j] and trains on all the others, listed in the
    increasing order in which CPython iterates [set(range(k)) - {j}].  A
    single point cannot be split: the call raises [ValueError]. *)
Theorem kfold_split_leave_one_out {A} (X : list A) :
  2 <= length X ->
  kfold_split X (length X)
  = Some (map (fun j => (seq 0 j ++ seq (S j) (length X - S j), [j]))
              (seq 0 (length X))).
Proof. exact (kfold_split_loo_eq X). Qed.

Lemma kfold_split_leave_one_out_witness :
  2 <= 3 /\
  kfold_split [[0%R]; [1%R]; [3%R]] 3
  = Some (map (fun j => (seq 0 j ++ seq (S j) (3 - S j), [j])) (seq 0 3)).
Proof.
  split; [lia|]. apply (kfold_split_leave_one_out [[0%R]; [1%R]; [3%R]]). simpl. lia.
Defined.

(** With more folds than points, the first [n] folds are the leave-one-out
    folds and each of the others has an empty test set and trains on every
    index. *)
Lemma kfold_split_many_eq {A} (X : list A) (k : nat) :
  2 <= k -> length X < k ->
  kfold_split X k
  = Some (map (fun j => (seq 0 j ++ seq (S j) (length X - S j), [j]))
              (seq 0 (length X))
          ++ repeat (seq 0 (length X), []) (k - length X)).
Proof.
  intros Hk2 Hk. rewrite kfold_split_eq by lia.
  remember (length X) as n eqn:Hn. clear Hn X. f_equal.
  match goal with |- map ?F (seq 0 k) = _ => set (F0 := F) end.
  assert (Hsk : seq 0 k = seq 0 n ++ seq n (k - n))
    by (rewrite <- seq_app; f_equal; lia).
  rewrite Hsk, map_app. unfold F0. clear Hsk F0. f_equal.
  - apply map_ext_in. intros j Hj. apply in_seq in Hj.
    rewrite kfold_train_explicit_aux by lia.
    unfold block, block_size. rewrite !block_start_many by lia.
    rewrite Nat.div_small, Nat.mod_small by lia.
    rewrite (proj2 (Nat.ltb_lt j n)) by lia.
    rewrite !Nat.min_l by lia. reflexivity.
  - simpl.
    assert (Hgen : forall len a, n <= a -> a + len <= k ->
              map (fun j => (concat (map (block n k)
                                         (filter (fun i => negb (i =? j)) (seq 0 k))),
                             block n k j)) (seq a len)
              = repeat (seq 0 n, []) len).
    { induction len as [|len IH]; intros a Ha Hb; simpl; [reflexivity|].
      rewrite IH by lia. f_equal.
      rewrite kfold_train_explicit_aux by lia.
      unfold block, block_size. rewrite !block_start_many by lia.
      rewrite Nat.div_small, Nat.mod_small by lia.
      rewrite (proj2 (Nat.ltb_ge a n)) by lia.
      rewrite !Nat.min_r by lia. rewrite Nat.sub_diag. simpl.
      now rewrite app_nil_r. }
    apply Hgen; lia.
Qed.

Local Close Scope nat_scope.

Lemma mvn_pdf_no_points (eigh : Mat -> Vec * Mat) (mu cov : Mat) :
  _mvn_pdf eigh [] mu cov = [].
Proof.
  unfold _mvn_pdf, _mvn_logpdf. now destruct (eigh cov).
Qed.

Lemma negloglike_no_test_points (eigh : Mat -> Vec * Mat) (st : kde) (ty : string)
    (h0 : Vec) (nll : Vec -> Mat -> Mat -> R) (hh : Vec) (Xf : Mat) :
  select_bw_type eigh st ty = Some (h0, nll) -> nll hh [] Xf = 0.
Proof.
  intros Hsel. rewrite (select_negloglike_form eigh st ty h0 nll Hsel).
  rewrite mvn_pdf_no_points. simpl. lra.
Qed.

(** X3.  With more folds than points ([k > n >= 2]) the folds beyond the
    [n]-th have no test point and add nothing to the sum, so the
    cross-validation objective is the leave-one-out objective multiplied by
    [n / k]: asking for more folds than points only rescales the objective. *)
Theorem negloglike_cv_more_folds_than_points
    (eigh : Mat -> Vec * Mat) (st : kde) (ty : string) (h0 : Vec)
    (nll : Vec -> Mat -> Mat -> R) (hh : Vec) (X : Mat) (k : nat) :
  select_bw_type eigh st ty = Some (h0, nll) ->
  (2 <= length X)%nat -> (length X < k)%nat ->
  exists sk sn,
    kfold_split X k = Some sk /\
    kfold_split X (length X) = Some sn /\
    negloglike_cv nll hh X sk
    = INR (length X) / INR k * negloglike_cv nll hh X sn.
Proof.
  intros Hsel Hn Hk. eexists. eexists.
  split; [apply kfold_split_many_eq; lia|].
  split; [apply kfold_split_loo_eq; assumption|].
  unfold negloglike_cv, vmean.
  rewrite map_app, vsum_app, length_app, !length_map, length_seq,
    repeat_length.
  replace (length X + (k - length X))%nat with k by lia.
  match goal with |- (_ + ?z) / _ = _ => assert (Hz : z = 0) end.
  { induction (k - length X)%nat as [|len IH]; simpl; [reflexivity|].
    rewrite IH.
    rewrite (negloglike_no_test_points eigh st ty h0 nll hh _ Hsel). lra. }
  rewrite Hz.
  assert (INR (length X) <> 0) by (apply not_0_INR; lia).
  assert (INR k <> 0) by (apply not_0_INR; lia).
  match goal with |- (?s + 0) / _ = _ / _ * (?s' / _) =>
    change s' with s; generalize s
  end.
  intros s. field. split; assumption.
Qed.

Lemma negloglike_cv_more_folds_than_points_witness :
  let X := [[0]; [1]] in
  (2 <= length X)%nat /\ (length X < 5)%nat /\
  exists sk sn,
    kfold_split X 5 = Some sk /\
    kfold_split X (length X) = Some sn /\
    negloglike_cv (negloglike_equal eigh_diagonal 1) [2] X sk
    = INR (length X) / INR 5 * negloglike_cv (negloglike_equal eigh_diagonal 1) [2] X sn.
Proof.
  intros X. split; [simpl; lia|]. split; [simpl; lia|].
  apply (negloglike_cv_more_folds_than_points eigh_diagonal two_point_kde "equal"
           [np_std1 (concat (dataset two_point_kde))
            * vmean (silverman_factor_ref two_point_kde)]
           (negloglike_equal eigh_diagonal 1) [2] X 5).
  - reflexivity.
  - simpl. lia.
  - simpl. lia.
Defined.

(** ** The evaluator: symmetry in its two point sets, and its peak *)

Lemma sum_n_nonneg (k : nat) (f : nat -> R) :
  (forall i, (i < k)%nat -> 0 <= f i) -> 0 <= sum_n k f.
Proof.
  intros H. unfold sum_n.
  assert (G : forall l, (forall i, In i l -> 0 <= f i) -> 0 <= vsum (map f l)).
  { induction l as [|a l IH]; simpl; intros Hl; [lra|].
    pose proof (Hl a (or_introl eq_refl)).
    assert (0 <= vsum (map f l)) by (apply IH; intros; apply Hl; now right).
    lra. }
  apply G. intros i Hi. apply in_seq in Hi. apply H. lia.
Qed.

Lemma sum_n_zero (k : nat) : sum_n k (fun _ => 0) = 0.
Proof. unfold sum_n. apply vsum_map_zero. Qed.

Lemma floor_eigs_pos (s0 : Vec) (c : nat) :
  (c < length s0)%nat -> 0 < nth c (floor_eigs s0) 0.
Proof.
  intros Hc. unfold floor_eigs. rewrite (nth_map_in _ _ c 0) by assumption.
  pose proof (Rabs_pos (nth c s0 0)). pose proof spacing1_pos. lra.
Qed.

Lemma maha_pair_nonneg (dim : nat) (xi muj s0 : Vec) (u : Mat) :
  is_vec dim s0 -> 0 <= maha_pair dim xi muj (floor_eigs s0) u.
Proof.
  intros Hs. unfold maha_pair. apply sum_n_nonneg. intros c Hc.
  unfold Rdiv. apply Rmult_le_pos; [apply Rle_0_sqr|].
  left. apply Rinv_0_lt_compat, floor_eigs_pos. unfold is_vec in Hs. lia.
Qed.

Lemma maha_pair_sym (dim : nat) (xi muj s : Vec) (u : Mat) :
  maha_pair dim xi muj s u = maha_pair dim muj xi s u.
Proof.
  unfold maha_pair. apply sum_n_ext. intros c _. f_equal.
  rewrite (Rsqr_neg (sum_n dim (fun a => (nth a muj 0 - nth a xi 0) * entry u a c))).
  f_equal. rewrite <- (Rmult_1_l (sum_n dim _)) at 1.
  replace (- sum_n dim (fun a => (nth a muj 0 - nth a xi 0) * entry u a c))
    with (-1 * sum_n dim (fun a => (nth a muj 0 - nth a xi 0) * entry u a c)) by ring.
  rewrite Rmult_1_l, <- sum_n_scale. apply sum_n_ext. intros a _. ring.
Qed.

Lemma maha_pair_same (dim : nat) (xi s : Vec) (u : Mat) :
  maha_pair dim xi xi s u = 0.
Proof.
  unfold maha_pair.
  rewrite (sum_n_ext dim _ (fun _ => 0)); [apply sum_n_zero|].
  intros c _.
  rewrite (sum_n_ext dim _ (fun _ => 0)) by (intros a _; ring).
  rewrite sum_n_zero. unfold Rsqr, Rdiv. ring.
Qed.

(** X4.  The evaluator is symmetric in its two point sets: the log-density
    of the evaluation point [x[i]] under the kernel centred at [mu[j]] is
    the log-density of [mu[j]] under a kernel centred at [x[i]], so
    exchanging the roles of [x] and [mu] transposes the returned array. *)
Theorem mvn_logpdf_symmetric
    (eigh : Mat -> Vec * Mat) (x mu cov : Mat) (s0 : Vec) (u : Mat)
    (m p dim i j : nat) :
  is_mat m dim x -> is_mat p dim mu ->
  eigh cov = (s0, u) -> is_vec dim s0 -> is_mat dim dim u ->
  (i < m)%nat -> (j < p)%nat ->
  entry (_mvn_logpdf eigh x mu cov) i j = entry (_mvn_logpdf eigh mu x cov) j i.
Proof.
  intros Hx Hmu He Hs Hu Hi Hj.
  rewrite (mvn_logpdf_entry eigh x mu cov s0 u m p dim) by assumption.
  rewrite (mvn_logpdf_entry eigh mu x cov s0 u p m dim) by assumption.
  unfold logpdf_pair. now rewrite maha_pair_sym.
Qed.

Lemma mvn_logpdf_symmetric_witness :
  let x := [[1; 2]] in
  let mu := [[0; 0]; [1; 1]] in
  let cov := [[1; 0]; [0; 4]] in
  entry (_mvn_logpdf eigh_diagonal x mu cov) 0 1
  = entry (_mvn_logpdf eigh_diagonal mu x cov) 1 0.
Proof.
  intros x mu cov.
  apply (mvn_logpdf_symmetric eigh_diagonal x mu cov [1; 4] [[1; 0]; [0; 1]] 1 2 2).
  - split; [reflexivity | repeat constructor].
  - split; [reflexivity | repeat constructor].
  - reflexivity.
  - reflexivity.
  - split; [reflexivity | repeat constructor].
  - lia.
  - lia.
Defined.

(** X5.  Every entry of the returned array is at most the log-density at the
    kernel centre, [-0.5 * (d*log(2*pi) + sum(log s))] with the floored
    eigenvalues [s], and the entry of a point that coincides with the centre
    is exactly that value: whatever sign the eigenvalues returned by [eigh]
    have, the flooring makes the distance term non-negative. *)
Theorem mvn_logpdf_peak
    (eigh : Mat -> Vec * Mat) (x mu cov : Mat) (s0 : Vec) (u : Mat)
    (m p dim i j : nat) :
  is_mat m dim x -> is_mat p dim mu ->
  eigh cov = (s0, u) -> is_vec dim s0 -> is_mat dim dim u ->
  (i < m)%nat -> (j < p)%nat ->
  let peak := -0.5 * (INR dim * ln (2 * PI)
                      + sum_n dim (fun c => ln (nth c (floor_eigs s0) 0))) in
  entry (_mvn_logpdf eigh x mu cov) i j <= peak /\
  (row x i = row mu j -> entry (_mvn_logpdf eigh x mu cov) i j = peak).
Proof.
  intros Hx Hmu He Hs Hu Hi Hj peak.
  rewrite (mvn_logpdf_entry eigh x mu cov s0 u m p dim) by assumption.
  unfold logpdf_pair, peak. split.
  - pose proof (maha_pair_nonneg dim (row x i) (row mu j) s0 u Hs). lra.
  - intros ->. rewrite maha_pair_same. lra.
Qed.

Lemma mvn_logpdf_peak_witness :
  let x := [[1; 2]] in
  let mu := [[0; 0]; [1; 2]] in
  let cov := [[1; 0]; [0; -4]] in
  let peak := -0.5 * (INR 2 * ln (2 * PI)
                      + sum_n 2 (fun c => ln (nth c (floor_eigs [1; -4]) 0))) in
  entry (_mvn_logpdf eigh_diagonal x mu cov) 0 1 <= peak /\
  (row x 0 = row mu 1 -> entry (_mvn_logpdf eigh_diagonal x mu cov) 0 1 = peak).
Proof.
  intros x mu cov.
  apply (mvn_logpdf_peak eigh_diagonal x mu cov [1; -4] [[1; 0]; [0; 1]] 1 2 2).
  - split; [reflexivity | repeat constructor].
  - split; [reflexivity | repeat constructor].
  - reflexivity.
  - reflexivity.
  - split; [reflexivity | repeat constructor].
  - lia.
  - lia.
Defined.

(** ** Bandwidth selection: the state a call leaves behind *)

Lemma compute_covariance_frame (cholesky : Mat -> option Mat) (st : kde) :
  let st' := fst (_compute_covariance cholesky st) in
  dataset st' = dataset st /\ d st' = d st /\ n st' = n st /\
  weights st' = weights st /\ bw_type st' = bw_type st /\
  covariance_factor st' = covariance_factor st /\ h st' = h st /\
  loglike_cv st' = loglike_cv st.
Proof.
  unfold _compute_covariance.
  destruct (call_covariance_factor st) as [f|]; [|cbn; repeat split; reflexivity].
  cbn [_data_cho_cov set_factor dataset weights].
  destruct (_data_cho_cov st) as [L0|] eqn:Hch.
  - match goal with |- context [kernel_covariance ?s f] =>
      destruct (kernel_covariance s f) as [e|c] end;
      [cbn; repeat split; reflexivity|].
    destruct (cholesky c); cbn; repeat split; reflexivity.
  - destruct (cholesky (np_cov (dataset st) (Some (weights st))));
      [|cbn; repeat split; reflexivity].
    match goal with |- context [kernel_covariance ?s f] =>
      destruct (kernel_covariance s f) as [e|c] end;
      [cbn; repeat split; reflexivity|].
    destruct (cholesky c); cbn; repeat split; reflexivity.
Qed.

Lemma compute_covariance_keeps_cache (cholesky : Mat -> option Mat) (st : kde) :
  _data_cho_cov st <> None ->
  let st' := fst (_compute_covariance cholesky st) in
  _data_covariance st' = _data_covariance st /\
  _data_cho_cov st' = _data_cho_cov st.
Proof.
  intros Hc. unfold _compute_covariance.
  destruct (call_covariance_factor st) as [f|]; [|cbn; split; reflexivity].
  cbn [_data_cho_cov set_factor dataset weights].
  destruct (_data_cho_cov st) as [L0|] eqn:Hch; [|contradiction].
  match goal with |- context [kernel_covariance ?s f] =>
    destruct (kernel_covariance s f) as [e|c] end;
    [cbn; rewrite ?Hch; split; reflexivity|].
  destruct (cholesky c); cbn; rewrite ?Hch; split; reflexivity.
Qed.

Lemma compute_covariance_factor_field (cholesky : Mat -> option Mat) (st : kde)
    (f : Vec) :
  call_covariance_factor st = Some f ->
  factor (fst (_compute_covariance cholesky st)) = Some f.
Proof.
  intros Hf. unfold _compute_covariance. rewrite Hf.
  cbn [_data_cho_cov set_factor dataset weights].
  destruct (_data_cho_cov st) as [L0|].
  - match goal with |- context [kernel_covariance ?s f] =>
      destruct (kernel_covariance s f) as [e|c] end; [reflexivity|].
    destruct (cholesky c); reflexivity.
  - destruct (cholesky (np_cov (dataset st) (Some (weights st)))); [|reflexivity].
    match goal with |- context [kernel_covariance ?s f] =>
      destruct (kernel_covariance s f) as [e|c] end; [reflexivity|].
    destruct (cholesky c); reflexivity.
Qed.

Lemma compute_covariance_preserves_fitted (cholesky : Mat -> option Mat) (st : kde) :
  fitted st -> fitted (fst (_compute_covariance cholesky st)).
Proof.
  intros [Hd [Hdc Hch]].
  destruct (compute_covariance_frame cholesky st)
    as [E1 [E2 [_ [E4 _]]]].
  destruct (compute_covariance_keeps_cache cholesky st Hch) as [E5 E6].
  unfold fitted. rewrite E1, E2, E4, E5, E6. auto.
Qed.

(** X6.  The cached data covariance is never recomputed: on a fitted
    estimator [set_bandwidth], whatever its arguments and however it ends
    (a value, the printed message, an exception), leaves the dataset, the
    weights, [_data_covariance] and [_data_cho_cov] as they were, so the
    estimator is still fitted afterwards. *)
Theorem set_bandwidth_keeps_data_covariance
    (eigh : Mat -> Vec * Mat) (cholesky : Mat -> option Mat)
    (minimize : (Vec -> R) -> Vec -> Vec * R)
    (st : kde) (bw_method : BwMethod) (ty : string) (k : option nat) :
  fitted st ->
  let st' := fst (set_bandwidth eigh cholesky minimize st bw_method ty k) in
  fitted st' /\ dataset st' = dataset st /\ weights st' = weights st /\
  _data_covariance st' = _data_covariance st /\
  _data_cho_cov st' = _data_cho_cov st.
Proof.
  intros Hfit.
  assert (Hcc : forall stx, dataset stx = dataset st -> weights stx = weights st ->
            d stx = d st -> _data_covariance stx = _data_covariance st ->
            _data_cho_cov stx = _data_cho_cov st ->
            let st' := fst (_compute_covariance cholesky stx) in
            fitted st' /\ dataset st' = dataset st /\ weights st' = weights st /\
            _data_covariance st' = _data_covariance st /\
            _data_cho_cov st' = _data_cho_cov st).
  { intros stx H1 H2 H3 H4 H5.
    assert (Hfx : fitted stx).
    { destruct Hfit as [Hd [Hdc Hch]]. unfold fitted.
      rewrite H1, H2, H3, H4, H5. auto. }
    destruct (compute_covariance_frame cholesky stx) as [E1 [_ [_ [E4 _]]]].
    destruct (compute_covariance_keeps_cache cholesky stx (proj2 (proj2 Hfx)))
      as [E5 E6].
    cbv zeta. rewrite E1, E4, E5, E6.
    split; [now apply compute_covariance_preserves_fitted|]. auto. }
  unfold set_bandwidth. destruct (is_str bw_method "cv").
  - destruct (select_bw_type eigh st ty) as [[h0 nll]|]; [|cbn; auto].
    match goal with |- context [kfold_split ?X ?kk] =>
      destruct (kfold_split X kk) as [splits|] end.
    + apply Hcc; reflexivity.
    + cbn. destruct Hfit as [Hd [Hdc Hch]]. unfold fitted. cbn. auto.
  - unfold base_set_bandwidth. destruct bw_method as [|sm|c|f].
    + apply Hcc; reflexivity.
    + destruct (String.eqb sm "scott"); [apply Hcc; reflexivity|].
      destruct (String.eqb sm "silverman"); [apply Hcc; reflexivity|].
      cbn. destruct Hfit as [Hd [Hdc Hch]]. unfold fitted. cbn. auto.
    + apply Hcc; reflexivity.
    + apply Hcc; reflexivity.
Qed.

Lemma two_point_cv_kde_fitted (t : string) (f : Vec) : fitted (two_point_cv_kde t f).
Proof.
  unfold fitted, two_point_cv_kde. cbn.
  split; [reflexivity|]. split; [reflexivity|]. discriminate.
Qed.

Lemma set_bandwidth_keeps_data_covariance_witness :
  let st := two_point_cv_kde "equal" [2] in
  let st' := fst (set_bandwidth eigh_diagonal cholesky_1x1 minimize_at_start st
                                (BwStr "cv") "diagonal" (Some 2%nat)) in
  fitted st' /\ dataset st' = dataset st /\ weights st' = weights st /\
  _data_covariance st' = _data_covariance st /\
  _data_cho_cov st' = _data_cho_cov st.
Proof.
  intros st.
  apply (set_bandwidth_keeps_data_covariance eigh_diagonal cholesky_1x1
           minimize_at_start st (BwStr "cv") "diagonal" (Some 2%nat)).
  apply two_point_cv_kde_fitted.
Defined.

(** X7.  A cross-validated selection asked for zero folds fails half-way:
    with a valid bandwidth type and [k = 0] on a non-empty dataset the call
    raises [ValueError], and by then [bw_type] has been overwritten with the
    requested type while every other attribute, the kernel covariance
    included, is the old one. *)
Theorem set_bandwidth_cv_zero_folds
    (eigh : Mat -> Vec * Mat) (cholesky : Mat -> option Mat)
    (minimize : (Vec -> R) -> Vec -> Vec * R)
    (st : kde) (ty : string) (nk : nat) :
  cv_type ty ->
  is_mat (d st) nk (dataset st) -> (0 < d st)%nat -> (0 < nk)%nat ->
  set_bandwidth eigh cholesky minimize st (BwStr "cv") ty (Some 0%nat)
  = (set_bw_type st (Some ty), Raised ValueError).
Proof.
  intros Hty _ _ _. unfold set_bandwidth.
  change (is_str (BwStr "cv") "cv") with true. cbv iota.
  assert (Hsel : exists h0 nll, select_bw_type eigh st ty = Some (h0, nll)).
  { unfold select_bw_type.
    destruct Hty as [-> | [-> | ->]]; cbn; eauto. }
  destruct Hsel as [h0 [nll ->]].
  reflexivity.
Qed.

Lemma set_bandwidth_cv_zero_folds_witness :
  set_bandwidth eigh_diagonal cholesky_1x1 minimize_at_start
                (two_point_cv_kde "equal" [2]) (BwStr "cv") "covariance" (Some 0%nat)
  = (set_bw_type (two_point_cv_kde "equal" [2]) (Some "covariance"%string),
     Raised ValueError).
Proof.
  apply (set_bandwidth_cv_zero_folds eigh_diagonal cholesky_1x1 minimize_at_start
           (two_point_cv_kde "equal" [2]) "covariance" 2).
  - right. left. reflexivity.
  - split; [reflexivity | repeat constructor].
  - cbn. lia.
  - lia.
Defined.

(** X8.  What a cross-validated selection stores.  On a fitted estimator,
    with a valid bandwidth type and folds that could be built, the call
    records the requested type in [bw_type], the optimiser's minimiser in
    [h] and in [factor], the negated minimum in [loglike_cv], binds
    [covariance_factor] to [lambda: self.h], and stores the kernel
    covariance built from the minimiser: [diag(h^2)], [I * h^2], or for
    type [covariance] the cached weighted covariance of the whole dataset
    times [h^2].  This holds whether or not the final Cholesky
    factorisation succeeds. *)
Theorem set_bandwidth_cv_stores_result
    (eigh : Mat -> Vec * Mat) (cholesky : Mat -> option Mat)
    (minimize : (Vec -> R) -> Vec -> Vec * R)
    (st : kde) (ty : string) (k : option nat)
    (h0 : Vec) (nll : Vec -> Mat -> Mat -> R) (splits : list Fold) :
  fitted st ->
  select_bw_type eigh st ty = Some (h0, nll) ->
  let X := transpose (shape1 (dataset st)) (dataset st) in
  kfold_split X (match k with
                 | None => length (row (dataset st) 0)
                 | Some k => k
                 end) = Some splits ->
  let res := minimize (fun hh => negloglike_cv nll hh X splits) h0 in
  let st' := fst (set_bandwidth eigh cholesky minimize st (BwStr "cv") ty k) in
  bw_type st' = Some ty /\
  h st' = Some (fst res) /\
  loglike_cv st' = Some (- snd res) /\
  covariance_factor st' = CF_h /\
  factor st' = Some (fst res) /\
  covariance st'
  = Some (if String.eqb ty "diagonal" then cov_diagonal (fst res)
          else if String.eqb ty "equal" then cov_equal (d st) (fst res)
          else cov_scaled (np_cov (dataset st) (Some (weights st))) (fst res)).
Proof.
  intros [Hd [Hdc Hch]] Hsel X Hsplit res st'.
  unfold st', set_bandwidth.
  change (is_str (BwStr "cv") "cv") with true. cbv iota.
  rewrite Hsel. cbn [dataset set_bw_type]. fold X. rewrite Hsplit. fold res.
  set (stx := set_covariance_factor _ CF_h).
  destruct (compute_covariance_frame cholesky stx)
    as [_ [_ [_ [_ [E5 [E6 [E7 E8]]]]]]].
  rewrite E5, E6, E7, E8.
  split; [reflexivity|]. split; [reflexivity|]. split; [reflexivity|].
  split; [reflexivity|].
  split; [now apply compute_covariance_factor_field|].
  apply (compute_covariance_field cholesky stx (fst res)).
  - reflexivity.
  - exact Hch.
  - apply (kernel_covariance_value stx ty (fst res)
             (np_cov (dataset st) (Some (weights st)))).
    + reflexivity.
    + exact Hdc.
    + reflexivity.
Qed.

Lemma set_bandwidth_cv_stores_result_witness :
  let st := two_point_cv_kde "equal" [2] in
  let X := transpose (shape1 (dataset st)) (dataset st) in
  let h0 := zipw Rmult (map np_std1 (dataset st)) (silverman_factor_ref st) in
  let splits := [([1%nat], [0%nat]); ([0%nat], [1%nat])] in
  let res := minimize_at_start
               (fun hh => negloglike_cv (negloglike_diagonal eigh_diagonal) hh X splits)
               h0 in
  let st' := fst (set_bandwidth eigh_diagonal cholesky_1x1 minimize_at_start st
                                (BwStr "cv") "diagonal" None) in
  bw_type st' = Some "diagonal"%string /\
  h st' = Some (fst res) /\
  loglike_cv st' = Some (- snd res) /\
  covariance_factor st' = CF_h /\
  factor st' = Some (fst res) /\
  covariance st' = Some (cov_diagonal (fst res)).
Proof.
  intros st X h0 splits.
  apply (set_bandwidth_cv_stores_result eigh_diagonal cholesky_1x1
           minimize_at_start st "diagonal" None h0
           (negloglike_diagonal eigh_diagonal) splits).
  - apply two_point_cv_kde_fitted.
  - reflexivity.
  - reflexivity.
Defined.

(** X9.  Going back to a scalar bandwidth.  On a fitted estimator,
    [set_bandwidth] with a scalar [c] ignores [bw_type] and [k], sets the
    bandwidth type to ['covariance_original'], the factor to [c] and the
    kernel covariance to the cached data covariance times [c^2], whatever
    type an earlier cross-validated selection had left; the [h] and the
    [loglike_cv] of that earlier selection stay in place. *)
Theorem set_bandwidth_scalar_restores_scaling
    (eigh : Mat -> Vec * Mat) (cholesky : Mat -> option Mat)
    (minimize : (Vec -> R) -> Vec -> Vec * R)
    (st : kde) (c : R) (ty : string) (k : option nat) :
  fitted st ->
  let st' := fst (set_bandwidth eigh cholesky minimize st (BwScalar c) ty k) in
  bw_type st' = Some "covariance_original"%string /\
  covariance_factor st' = CF_const c /\
  factor st' = Some [c] /\
  covariance st'
  = Some (cov_scaled (np_cov (dataset st) (Some (weights st))) [c]) /\
  h st' = h st /\
  loglike_cv st' = loglike_cv st.
Proof.
  intros [Hd [Hdc Hch]] st'.
  unfold st', set_bandwidth, base_set_bandwidth. cbn [is_str].
  set (stx := set_covariance_factor _ (CF_const c)).
  destruct (compute_covariance_frame cholesky stx)
    as [_ [_ [_ [_ [E5 [E6 [E7 E8]]]]]]].
  rewrite E5, E6, E7, E8.
  split; [reflexivity|]. split; [reflexivity|].
  split; [now apply compute_covariance_factor_field|].
  split; [|split; reflexivity].
  apply (compute_covariance_field cholesky stx [c]).
  - reflexivity.
  - exact Hch.
  - apply (kernel_covariance_value stx "covariance_original" [c]
             (np_cov (dataset st) (Some (weights st)))).
    + reflexivity.
    + exact Hdc.
    + intros Hx. discriminate Hx.
Qed.

Lemma set_bandwidth_scalar_restores_scaling_witness :
  let st := two_point_cv_kde "diagonal" [2] in
  let st' := fst (set_bandwidth eigh_diagonal cholesky_1x1 minimize_at_start st
                                (BwScalar 3) "equal" (Some 0%nat)) in
  bw_type st' = Some "covariance_original"%string /\
  covariance_factor st' = CF_const 3 /\
  factor st' = Some [3] /\
  covariance st'
  = Some (cov_scaled (np_cov (dataset st) (Some (weights st))) [3]) /\
  h st' = h st /\
  loglike_cv st' = loglike_cv st.
Proof.
  intros st.
  apply (set_bandwidth_scalar_restores_scaling eigh_diagonal cholesky_1x1
           minimize_at_start st 3 "equal" (Some 0%nat)).
  apply two_point_cv_kde_fitted.
Defined.

(** ** The constructor *)

Lemma set_bandwidth_frame
    (eigh : Mat -> Vec * Mat) (cholesky : Mat -> option Mat)
    (minimize : (Vec -> R) -> Vec -> Vec * R)
    (st : kde) (bw_method : BwMethod) (ty : string) (k : option nat) :
  let st' := fst (set_bandwidth eigh cholesky minimize st bw_method ty k) in
  dataset st' = dataset st /\ d st' = d st /\ n st' = n st /\
  weights st' = weights st.
Proof.
  assert (Hcc : forall stx, dataset stx = dataset st -> d stx = d st ->
            n stx = n st -> weights stx = weights st ->
            let st' := fst (_compute_covariance cholesky stx) in
            dataset st' = dataset st /\ d st' = d st /\ n st' = n st /\
            weights st' = weights st).
  { intros stx H1 H2 H3 H4.
    destruct (compute_covariance_frame cholesky stx) as [E1 [E2 [E3 [E4 _]]]].
    cbv zeta. rewrite E1, E2, E3, E4. auto. }
  unfold set_bandwidth. destruct (is_str bw_method "cv").
  - destruct (select_bw_type eigh st ty) as [[h0 nll]|]; [|cbn; auto].
    match goal with |- context [kfold_split ?X ?kk] =>
      destruct (kfold_split X kk) as [splits|] end.
    + apply Hcc; reflexivity.
    + cbn. auto.
  - unfold base_set_bandwidth. destruct bw_method as [|sm|c|f].
    + apply Hcc; reflexivity.
    + destruct (String.eqb sm "scott"); [apply Hcc; reflexivity|].
      destruct (String.eqb sm "silverman"); [apply Hcc; reflexivity|].
      cbn. auto.
    + apply Hcc; reflexivity.
    + apply Hcc; reflexivity.
Qed.

Lemma set_bandwidth_bw_type
    (eigh : Mat -> Vec * Mat) (cholesky : Mat -> option Mat)
    (minimize : (Vec -> R) -> Vec -> Vec * R)
    (st : kde) (bw_method : BwMethod) (ty : string) (k : option nat) :
  cv_type ty ->
  bw_type (fst (set_bandwidth eigh cholesky minimize st bw_method ty k))
  = Some (if is_str bw_method "cv" then ty else "covariance_original"%string).
Proof.
  intros Hty.
  assert (Hcc : forall stx t, bw_type stx = Some t ->
            bw_type (fst (_compute_covariance cholesky stx)) = Some t).
  { intros stx t Ht.
    destruct (compute_covariance_frame cholesky stx) as [_ [_ [_ [_ [E5 _]]]]].
    now rewrite E5. }
  unfold set_bandwidth. destruct (is_str bw_method "cv").
  - assert (Hsel : exists h0 nll, select_bw_type eigh st ty = Some (h0, nll)).
    { unfold select_bw_type. destruct Hty as [-> | [-> | ->]]; cbn; eauto. }
    destruct Hsel as [h0 [nll ->]].
    match goal with |- context [kfold_split ?X ?kk] =>
      destruct (kfold_split X kk) as [splits|] end.
    + apply Hcc. reflexivity.
    + reflexivity.
  - unfold base_set_bandwidth. destruct bw_method as [|sm|c|f].
    + apply Hcc; reflexivity.
    + destruct (String.eqb sm "scott"); [apply Hcc; reflexivity|].
      destruct (String.eqb sm "silverman"); [apply Hcc; reflexivity|].
      reflexivity.
    + apply Hcc; reflexivity.
    + apply Hcc; reflexivity.
Qed.

Lemma vsum_repeat (x : R) (k : nat) : vsum (repeat x k) = INR k * x.
Proof.
  induction k as [|k IH]; [simpl; lra|].
  rewrite S_INR. cbn [repeat vsum fold_right]. fold (vsum (repeat x k)).
  rewrite IH. lra.
Qed.

Lemma neff_uniform (st : kde) (k : nat) :
  (0 < k)%nat -> weights st = uniform_weights k -> neff st = INR k.
Proof.
  intros Hk Hw. unfold neff, uniform_weights in *. rewrite Hw.
  unfold vpow2. rewrite map_repeat, vsum_repeat.
  assert (INR k <> 0) by (apply not_0_INR; lia).
  field. assumption.
Qed.

(** X10.  What the constructor establishes.  When [gaussian_kde(dataset,
    bw_method)] returns, the dataset has at least two elements, [d] and [n]
    are its numbers of rows and columns, the weights are uniform and the
    effective sample size is [n], the weighted data covariance and its
    Cholesky factor are cached, a kernel covariance is set, and the
    bandwidth type is ['diagonal'] when [bw_method] is ['cv'] and
    ['covariance_original'] otherwise. *)
Theorem gaussian_kde_init_establishes
    (eigh : Mat -> Vec * Mat) (cholesky : Mat -> option Mat)
    (minimize : (Vec -> R) -> Vec -> Vec * R)
    (data : Mat) (bw_method : BwMethod) (st : kde) :
  gaussian_kde_init eigh cholesky minimize data bw_method = Returned st ->
  (1 < length data * shape1 data)%nat /\
  fitted st /\ dataset st = data /\
  d st = length data /\ n st = shape1 data /\
  weights st = uniform_weights (shape1 data) /\
  neff st = INR (shape1 data) /\
  covariance st <> None /\
  bw_type st = Some (if is_str bw_method "cv" then "diagonal"%string
                     else "covariance_original"%string).
Proof.
  intros Hinit.
  destruct (gaussian_kde_init_fitted eigh cholesky minimize data bw_method st Hinit)
    as [Hfit [Hdata Hcov]].
  unfold gaussian_kde_init in Hinit.
  destruct (1 <? length data * shape1 data)%nat eqn:Hsz; [|discriminate].
  apply Nat.ltb_lt in Hsz. cbn [negb] in Hinit.
  destruct (shape1 data <? length data)%nat; [discriminate|].
  set (st0 := mk_kde data (length data) (shape1 data)
                     (uniform_weights (shape1 data)) None CF_scotts
                     None None None None None None None None) in Hinit.
  pose proof (set_bandwidth_frame eigh cholesky minimize st0 bw_method
                "diagonal" None) as Hfr.
  pose proof (set_bandwidth_bw_type eigh cholesky minimize st0 bw_method
                "diagonal" None (or_introl eq_refl)) as Hbw.
  destruct (set_bandwidth eigh cholesky minimize st0 bw_method "diagonal" None)
    as [st1 o].
  cbn [fst] in Hfr, Hbw. destruct Hfr as [_ [F2 [F3 F4]]].
  assert (Hst : st1 = st).
  { destruct o as [[]|msg|e]; [| |discriminate]; now injection Hinit. }
  subst st1. cbn [d n weights st0] in F2, F3, F4.
  split; [exact Hsz|]. split; [exact Hfit|]. split; [exact Hdata|].
  split; [exact F2|]. split; [exact F3|]. split; [exact F4|].
  split; [|split; [exact Hcov | exact Hbw]].
  apply neff_uniform; [|exact F4].
  destruct (shape1 data); [lia|lia].
Qed.

Lemma np_cov_two_points : np_cov [[0; 1]] (Some (uniform_weights 2)) = [[1 / 2]].
Proof.
  unfold np_cov, cov_avg, cov_weighted, cov_fact, uniform_weights.
  cbn [repeat map zipw vsum fold_right INR].
  destruct (Rle_dec _ 0) as [Hle|Hgt].
  - exfalso. lra.
  - f_equal. f_equal. field.
Qed.

Lemma cholesky_1x1_pos (v : R) : 0 < v -> cholesky_1x1 [[v]] = Some [[sqrt v]].
Proof.
  intros Hv. unfold cholesky_1x1, entry, row. cbn [nth].
  destruct (Rlt_dec 0 v); [reflexivity|contradiction].
Qed.

Lemma gaussian_kde_init_two_points :
  exists st,
    gaussian_kde_init eigh_diagonal cholesky_1x1 minimize_at_start
                      [[0; 1]] (BwScalar 1)
    = Returned st.
Proof.
  unfold gaussian_kde_init.
  change (negb (1 <? length [[0%R; 1%R]] * shape1 [[0%R; 1%R]])%nat) with false.
  change (shape1 [[0%R; 1%R]] <? length [[0%R; 1%R]])%nat with false.
  cbv iota.
  unfold set_bandwidth, base_set_bandwidth. cbn [is_str].
  unfold _compute_covariance.
  cbn [call_covariance_factor covariance_factor set_covariance_factor set_bw_type
       set_factor _data_cho_cov dataset weights].
  change (shape1 [[0; 1]]) with 2%nat.
  rewrite np_cov_two_points.
  rewrite (cholesky_1x1_pos (1 / 2)) by lra. cbv iota beta.
  unfold kernel_covariance.
  cbn [bw_type set_data_cho_cov set_data_covariance set_factor
       set_covariance_factor set_bw_type _data_covariance].
  change (String.eqb "covariance_original" "diagonal") with false.
  change (String.eqb "covariance_original" "equal") with false. cbv iota.
  unfold cov_scaled, bmul, bmul_row, vpow2. cbn [map length].
  rewrite (cholesky_1x1_pos (1 / 2 * 1 ^ 2)) by lra. cbv iota beta.
  eexists. reflexivity.
Qed.

Lemma gaussian_kde_init_establishes_witness :
  exists st,
    gaussian_kde_init eigh_diagonal cholesky_1x1 minimize_at_start
                      [[0; 1]] (BwScalar 1)
    = Returned st /\
    (1 < length [[0%R; 1%R]] * shape1 [[0%R; 1%R]])%nat /\
    fitted st /\ dataset st = [[0; 1]] /\
    d st = length [[0; 1]] /\ n st = shape1 [[0; 1]] /\
    weights st = uniform_weights (shape1 [[0; 1]]) /\
    neff st = INR (shape1 [[0; 1]]) /\
    covariance st <> None /\
    bw_type st = Some "covariance_original"%string.
Proof.
  destruct gaussian_kde_init_two_points as [st Hst].
  exists st. split; [exact Hst|].
  exact (gaussian_kde_init_establishes eigh_diagonal cholesky_1x1
           minimize_at_start [[0; 1]] (BwScalar 1) st Hst).
Defined.

(** ** The log-determinant and the inverse of the stored covariance *)

Lemma set_factor_same (s : kde) (f : Vec) :
  factor s = Some f -> set_factor s (Some f) = s.
Proof. destruct s. cbn. intros ->. reflexivity. Qed.

Lemma set_results_twice (s : kde) (c L : option Mat) (ld : option R) :
  let s' := set_log_det (set_cho_cov (set_covariance s c) L) ld in
  set_log_det (set_cho_cov (set_covariance s' c) L) ld = s'.
Proof. destruct s. reflexivity. Qed.

Lemma compute_covariance_last_step (cholesky : Mat -> option Mat)
    (stx st' : kde) (f : Vec) (c : Mat) :
  call_covariance_factor stx = Some f -> factor stx = Some f ->
  _data_cho_cov stx <> None ->
  kernel_covariance stx f = inr c ->
  match cholesky c with
  | Some L =>
    (set_log_det (set_cho_cov (set_covariance stx (Some c)) (Some L))
       (Some (2 * vsum (map ln (diag_of
                         (map (map (fun x => x * sqrt (2 * PI))) L))))),
     Returned tt)
  | None => (set_covariance stx (Some c), Raised LinAlgError)
  end = (st', Returned tt) ->
  exists L,
    covariance st' = Some c /\ cholesky c = Some L /\ cho_cov st' = Some L /\
    log_det st'
    = Some (2 * vsum (map ln (diag_of (map (map (fun x => x * sqrt (2 * PI))) L)))) /\
    (forall inv,
       inv_cov inv st'
       = (st', match inv c with
               | Some ci => Returned ci
               | None => Raised LinAlgError
               end)) /\
    _compute_covariance cholesky st' = (st', Returned tt).
Proof.
  intros Hcf Hfa Hch Hk Hres.
  destruct (cholesky c) as [L|] eqn:HL; [|discriminate].
  injection Hres as <-. exists L.
  split; [reflexivity|]. split; [reflexivity|].
  split; [reflexivity|]. split; [reflexivity|].
  set (ld := Some (2 * vsum (map ln (diag_of
                     (map (map (fun x => x * sqrt (2 * PI))) L))))).
  set (S := set_log_det (set_cho_cov (set_covariance stx (Some c)) (Some L)) ld).
  assert (HS : call_covariance_factor S = Some f) by exact Hcf.
  assert (HSf : factor S = Some f) by exact Hfa.
  assert (HSk : kernel_covariance S f = inr c) by exact Hk.
  split.
  - intros inv. unfold inv_cov. rewrite HS.
    rewrite (set_factor_same S f HSf), HSk. now destruct (inv c).
  - unfold _compute_covariance. rewrite HS.
    rewrite (set_factor_same S f HSf).
    destruct (_data_cho_cov S) as [L0|] eqn:HSc; [|contradiction].
    rewrite HSk, HL. fold ld.
    f_equal; apply (set_results_twice stx (Some c) (Some L) ld).
Qed.

Lemma compute_covariance_returned_fields (cholesky : Mat -> option Mat)
    (st st' : kde) :
  _compute_covariance cholesky st = (st', Returned tt) ->
  exists c L,
    covariance st' = Some c /\ cholesky c = Some L /\ cho_cov st' = Some L /\
    log_det st'
    = Some (2 * vsum (map ln (diag_of (map (map (fun x => x * sqrt (2 * PI))) L)))) /\
    (forall inv,
       inv_cov inv st'
       = (st', match inv c with
               | Some ci => Returned ci
               | None => Raised LinAlgError
               end)) /\
    _compute_covariance cholesky st' = (st', Returned tt).
Proof.
  unfold _compute_covariance at 1. intros H.
  destruct (call_covariance_factor st) as [f|] eqn:Hf; [|discriminate].
  cbn [_data_cho_cov set_factor dataset weights] in H.
  destruct (_data_cho_cov st) as [L0|] eqn:HL0.
  - destruct (kernel_covariance (set_factor st (Some f)) f) as [e|c] eqn:Hk;
      [discriminate|].
    exists c.
    apply (compute_covariance_last_step cholesky (set_factor st (Some f)) st' f c
             Hf eq_refl); [|exact Hk|exact H].
    cbn [_data_cho_cov set_factor]. rewrite HL0. discriminate.
  - destruct (cholesky (np_cov (dataset st) (Some (weights st)))) as [L1|];
      [|discriminate].
    match type of H with context [kernel_covariance ?s f] =>
      destruct (kernel_covariance s f) as [e|c] eqn:Hk end; [discriminate|].
    exists c.
    apply (compute_covariance_last_step cholesky
             (set_data_cho_cov
                (set_data_covariance (set_factor st (Some f))
                   (Some (np_cov (dataset st) (Some (weights st)))))
                (Some L1)) st' f c Hf eq_refl); [|exact Hk|exact H].
    cbn [_data_cho_cov set_data_cho_cov]. discriminate.
Qed.

Lemma diag_of_scaled (L : Mat) (k : R) :
  diag_of (map (map (fun x => x * k)) L) = map (fun x => x * k) (diag_of L).
Proof.
  unfold diag_of. rewrite length_map, map_map.
  apply map_ext_in. intros i Hi. apply in_seq in Hi.
  unfold entry, row.
  rewrite (nth_map_in _ L i []) by lia.
  replace 0 with (0 * k) at 1 by ring.
  apply (map_nth (fun x => x * k)).
Qed.

Lemma vsum_ln_scaled (l : Vec) (k : R) :
  0 < k -> Forall (fun x => 0 < x) l ->
  vsum (map ln (map (fun x => x * k) l)) = vsum (map ln l) + INR (length l) * ln k.
Proof.
  intros Hk Hl. induction Hl as [|x l Hx Hl IH].
  - simpl. lra.
  - cbn [map vsum fold_right length]. fold (vsum (map ln (map (fun x => x * k) l))).
    fold (vsum (map ln l)). rewrite IH, S_INR, ln_mult by assumption. lra.
Qed.

Lemma ln_sqrt_half (x : R) : 0 < x -> ln (sqrt x) = ln x / 2.
Proof.
  intros Hx. pose proof (sqrt_lt_R0 x Hx) as Hs.
  rewrite <- (sqrt_sqrt x) at 2 by lra.
  rewrite ln_mult by assumption. lra.
Qed.

(** X11.  The stored log-determinant.  When [_compute_covariance] returns
    and the Cholesky factor [L] it stored has a positive diagonal, [log_det]
    is [d * log(2*pi) + 2 * sum(log(diag(L)))], with [d] the number of rows
    of [L]: the logarithm of the determinant of [2*pi] times the kernel
    covariance [L @ L.T]. *)
Theorem compute_covariance_log_det (cholesky : Mat -> option Mat)
    (st st' : kde) (L : Mat) :
  _compute_covariance cholesky st = (st', Returned tt) ->
  cho_cov st' = Some L ->
  Forall (fun x => 0 < x) (diag_of L) ->
  log_det st'
  = Some (INR (length L) * ln (2 * PI) + 2 * vsum (map ln (diag_of L))).
Proof.
  intros H HL Hpos.
  destruct (compute_covariance_returned_fields cholesky st st' H)
    as [c [L' [_ [_ [HL' [Hld _]]]]]].
  rewrite HL' in HL. injection HL as ->.
  rewrite Hld. f_equal.
  rewrite diag_of_scaled.
  assert (H2pi : 0 < 2 * PI) by (pose proof PI_RGT_0; lra).
  rewrite vsum_ln_scaled; [|now apply sqrt_lt_R0|assumption].
  rewrite ln_sqrt_half by assumption.
  unfold diag_of at 2. rewrite length_map, length_seq. lra.
Qed.

Lemma cholesky_1x1_entry (c : Mat) :
  0 < entry c 0 0 -> cholesky_1x1 c = Some [[sqrt (entry c 0 0)]].
Proof.
  intros Hv. unfold cholesky_1x1.
  destruct (Rlt_dec 0 (entry c 0 0)); [reflexivity|contradiction].
Qed.

Lemma compute_covariance_two_points_equal :
  exists st',
    _compute_covariance cholesky_1x1 (two_point_cv_kde "equal" [2])
    = (st', Returned tt) /\
    covariance st' = Some (cov_equal 1 [2]) /\
    cho_cov st' = Some [[sqrt (entry (cov_equal 1 [2]) 0 0)]].
Proof.
  unfold _compute_covariance, kernel_covariance, two_point_cv_kde.
  cbn [call_covariance_factor covariance_factor h set_factor _data_cho_cov
       bw_type d _data_covariance].
  change (String.eqb "equal" "diagonal") with false.
  change (String.eqb "equal" "equal") with true. cbv iota.
  assert (Hpos : 0 < entry (cov_equal 1 [2]) 0 0).
  { unfold cov_equal, bmul, bmul_row, vpow2, np_eye, entry, row. cbn. lra. }
  rewrite (cholesky_1x1_entry _ Hpos).
  eexists. split; [reflexivity|]. split; reflexivity.
Qed.

Lemma compute_covariance_log_det_witness :
  exists st' L,
    _compute_covariance cholesky_1x1 (two_point_cv_kde "equal" [2])
    = (st', Returned tt) /\
    cho_cov st' = Some L /\
    Forall (fun x => 0 < x) (diag_of L) /\
    log_det st'
    = Some (INR (length L) * ln (2 * PI) + 2 * vsum (map ln (diag_of L))).
Proof.
  destruct compute_covariance_two_points_equal as [st' [Hst [Hcov Hcho]]].
  assert (Hpos : Forall (fun x => 0 < x)
                   (diag_of [[sqrt (entry (cov_equal 1 [2]) 0 0)]])).
  { repeat constructor. cbn [entry row nth].
    apply sqrt_lt_R0.
    unfold cov_equal, bmul, bmul_row, vpow2, np_eye, entry, row. cbn. lra. }
  exists st', [[sqrt (entry (cov_equal 1 [2]) 0 0)]].
  split; [exact Hst|]. split; [exact Hcho|]. split; [exact Hpos|].
  exact (compute_covariance_log_det cholesky_1x1 (two_point_cv_kde "equal" [2])
           st' _ Hst Hcho Hpos).
Defined.

(** X12.  [inv_cov] inverts the covariance that [_compute_covariance]
    stored.  Read after a successful [_compute_covariance], the property
    hands [np.linalg.inv] exactly the matrix held in [covariance], returns
    its inverse (or raises [LinAlgError] when there is none) and leaves
    every attribute as it was. *)
Theorem inv_cov_inverts_stored_covariance
    (cholesky inv : Mat -> option Mat) (st st' : kde) (c : Mat) :
  _compute_covariance cholesky st = (st', Returned tt) ->
  covariance st' = Some c ->
  inv_cov inv st'
  = (st', match inv c with
          | Some ci => Returned ci
          | None => Raised LinAlgError
          end).
Proof.
  intros H Hc.
  destruct (compute_covariance_returned_fields cholesky st st' H)
    as [c' [L [Hc' [_ [_ [_ [Hinv _]]]]]]].
  rewrite Hc' in Hc. injection Hc as ->. apply Hinv.
Qed.

Lemma inv_cov_inverts_stored_covariance_witness :
  exists st',
    _compute_covariance cholesky_1x1 (two_point_cv_kde "equal" [2])
    = (st', Returned tt) /\
    covariance st' = Some (cov_equal 1 [2]) /\
    inv_cov inv_1x1 st'
    = (st', match inv_1x1 (cov_equal 1 [2]) with
            | Some ci => Returned ci
            | None => Raised LinAlgError
            end).
Proof.
  destruct compute_covariance_two_points_equal as [st' [Hst [Hcov Hcho]]].
  exists st'. split; [exact Hst|]. split; [exact Hcov|].
  exact (inv_cov_inverts_stored_covariance cholesky_1x1 inv_1x1
           (two_point_cv_kde "equal" [2]) st' _ Hst Hcov).
Defined.

(** ** Conditional resampling: kernel weights, query shapes, diagonal kernels *)

Lemma sum_n_pos (k : nat) (f : nat -> R) :
  (0 < k)%nat -> (forall i, (i < k)%nat -> 0 < f i) -> 0 < sum_n k f.
Proof.
  intros Hk Hf. unfold sum_n. apply vsum_pos.
  - intros Hnil. apply (f_equal (@length R)) in Hnil.
    rewrite length_map, length_seq in Hnil. simpl in Hnil. lia.
  - apply Forall_map, Forall_forall. intros i Hi. apply in_seq in Hi.
    apply Hf. lia.
Qed.

Lemma kernel_probabilities_entry (logpdfs : Mat) (m nk i j : nat) :
  is_mat m nk logpdfs -> (i < m)%nat -> (j < nk)%nat ->
  entry (kernel_probabilities logpdfs) i j
  = exp (entry logpdfs i j) / sum_n nk (fun k => exp (entry logpdfs i k)).
Proof.
  intros Hlp Hi Hj.
  assert (Hm : (0 < m)%nat) by lia. assert (Hn : (0 < nk)%nat) by lia.
  unfold kernel_probabilities.
  rewrite (shape1_is_mat m nk logpdfs Hlp Hm).
  set (maxs := map vmax logpdfs).
  set (pdfs := map (fun r => map exp (zipw Rminus r maxs)) (transpose nk logpdfs)).
  destruct Hlp as [Hl Hrows].
  assert (Hmx : length maxs = m) by (unfold maxs; now rewrite length_map).
  assert (Hpd : is_mat nk m pdfs).
  { unfold pdfs. split; [now rewrite length_map, transpose_length|].
    apply Forall_map. pose proof (transpose_rows_length nk logpdfs) as Ht.
    eapply Forall_impl; [|exact Ht]. intros r Hr. unfold is_vec in *.
    rewrite length_map, zipw_length, Hr, Hl, Hmx. apply Nat.min_id. }
  rewrite (shape1_is_mat nk m pdfs Hpd Hn).
  unfold entry at 1, row. rewrite (normalise_rows pdfs nk m i Hpd Hi).
  assert (Hcl : length (col pdfs i) = nk)
    by (rewrite col_length; now destruct Hpd).
  rewrite (nth_map_in _ _ j 0) by lia.
  set (M := vmax (row logpdfs i)).
  assert (Hent : forall k, (k < nk)%nat ->
            nth k (col pdfs i) 0 = exp (entry logpdfs i k - M)).
  { intros k Hk. rewrite col_nth. unfold pdfs, entry, row.
    rewrite (nth_map_in _ _ k []) by (now rewrite transpose_length).
    rewrite transpose_row by assumption.
    rewrite (nth_map_in _ _ i 0)
      by (rewrite zipw_length, col_length, Hmx, Hl, Nat.min_id; lia).
    rewrite zipw_nth by (rewrite ?col_length, ?Hmx; lia).
    rewrite col_nth. unfold maxs, M, entry, row.
    now rewrite (nth_map_in _ logpdfs i []) by lia. }
  rewrite (Hent j Hj), vsum_as_sum_n, Hcl.
  rewrite (sum_n_ext nk _ (fun k => exp (entry logpdfs i k) * exp (- M))).
  - rewrite sum_n_scale_r. unfold Rminus. rewrite exp_plus.
    assert (0 < sum_n nk (fun k => exp (entry logpdfs i k)))
      by (apply sum_n_pos; [assumption | intros; apply exp_pos]).
    pose proof (exp_pos (- M)).
    field. split; lra.
  - intros k Hk. rewrite (Hent k Hk). unfold Rminus. apply exp_plus.
Qed.

(** X13.  The kernel weights of a query are the softmax of its row of
    log-densities: entry (i,j) of [ps] is
    [exp(logpdfs[i,j]) / sum_k exp(logpdfs[i,k])].  Subtracting the row
    maximum before exponentiating changes no weight. *)
Theorem kernel_probabilities_softmax (logpdfs : Mat) (m nk i j : nat) :
  is_mat m nk logpdfs -> (i < m)%nat -> (j < nk)%nat ->
  entry (kernel_probabilities logpdfs) i j
  = exp (entry logpdfs i j) / sum_n nk (fun k => exp (entry logpdfs i k)).
Proof. apply kernel_probabilities_entry. Qed.

Lemma kernel_probabilities_softmax_witness :
  entry (kernel_probabilities [[1; 2; 3]; [0; 0; 5]]) 1 2
  = exp (entry [[1; 2; 3]; [0; 0; 5]] 1 2)
    / sum_n 3 (fun k => exp (entry [[1; 2; 3]; [0; 0; 5]] 1 k)).
Proof.
  apply (kernel_probabilities_softmax [[1; 2; 3]; [0; 0; 5]] 2 3 1 2).
  - split; [reflexivity | repeat constructor].
  - lia.
  - lia.
Defined.

(** X14.  A one-dimensional [x_cond] is read as a column of one-dimensional
    queries: [np.atleast_2d(x_cond.T).T] turns its [m >= 1] entries into an
    (m,1) array.  With any number of conditioning dimensions other than one
    the call prints the dimension message and returns [None], so a single
    query point on several dimensions has to be passed as a (1,c) array;
    with one conditioning dimension the entries are [m] separate queries. *)
Theorem conditional_resample_flat_query
    (eigh : Mat -> Vec * Mat) (inv : Mat -> option Mat) (RS Seed : Type)
    (check_random_state : Seed -> RS)
    (multinomial : RS -> nat -> Vec -> RS * list nat)
    (multivariate_normal : RS -> Vec -> Mat -> nat * nat -> RS * Ten)
    (st : kde) (size : nat) (v : Vec) (dims_cond : list nat) (seed : Seed) :
  v <> [] ->
  is_mat (length v) 1 (atleast_2d_T_T (Arr1 v)) /\
  (length dims_cond <> 1%nat ->
   conditional_resample eigh inv RS Seed check_random_state multinomial
                        multivariate_normal st size (Arr1 v) dims_cond seed
   = PrintedNone (dims_message (length v) 1 (length dims_cond))) /\
  conditional_resample eigh inv RS Seed check_random_state multinomial
                       multivariate_normal st size (Arr1 v) dims_cond seed
  = conditional_resample eigh inv RS Seed check_random_state multinomial
                         multivariate_normal st size
                         (Arr2 (map (fun x => [x]) v)) dims_cond seed.
Proof.
  intros Hv.
  assert (Hmat : is_mat (length v) 1 (atleast_2d_T_T (Arr1 v))).
  { cbn [atleast_2d_T_T]. split; [apply length_map|].
    apply Forall_map, Forall_forall. intros x _. reflexivity. }
  split; [exact Hmat|]. split; [|reflexivity].
  intros Hc. unfold conditional_resample.
  assert (Hlen : (0 < length v)%nat) by (destruct v; [contradiction | simpl; lia]).
  rewrite (shape1_is_mat (length v) 1 _ Hmat Hlen).
  destruct (Nat.eqb_spec 1 (length dims_cond)) as [E|E]; [congruence|].
  cbn [negb]. now destruct Hmat as [-> _].
Qed.

Lemma conditional_resample_flat_query_witness :
  is_mat (length [1; 2]) 1 (atleast_2d_T_T (Arr1 [1; 2])) /\
  (length [0%nat; 1%nat] <> 1%nat ->
   conditional_resample eigh_diagonal inv_1x1 unit unit (fun s => s)
                        multinomial_first multivariate_normal_zero
                        three_point_kde 4 (Arr1 [1; 2]) [0%nat; 1%nat] tt
   = PrintedNone (dims_message (length [1; 2]) 1 (length [0%nat; 1%nat]))) /\
  conditional_resample eigh_diagonal inv_1x1 unit unit (fun s => s)
                       multinomial_first multivariate_normal_zero
                       three_point_kde 4 (Arr1 [1; 2]) [0%nat; 1%nat] tt
  = conditional_resample eigh_diagonal inv_1x1 unit unit (fun s => s)
                         multinomial_first multivariate_normal_zero
                         three_point_kde 4 (Arr2 (map (fun x => [x]) [1; 2]))
                         [0%nat; 1%nat] tt.
Proof.
  apply (conditional_resample_flat_query eigh_diagonal inv_1x1 unit unit
           (fun s => s) multinomial_first multivariate_normal_zero
           three_point_kde 4 [1; 2] [0%nat; 1%nat] tt).
  discriminate.
Defined.

(** X15.  With a diagonal kernel covariance (bandwidth types [diagonal] and
    [equal]) conditioning moves no kernel: the samp/cond block [B] is zero,
    so the conditional mean of every kernel is its own coordinates on the
    sampled dimensions, whatever the conditioning values, and the
    conditional covariance is the samp/samp block of the kernel covariance.
    The conditioning values act only through the kernel weights. *)
Theorem diagonal_kernel_means_uncorrected
    (st : kde) (cv Cinv x_cond : Mat) (dims_cond : list nat) (m nk : nat) :
  valid_query st cv x_cond dims_cond m nk ->
  diagonal (d st) cv ->
  let dims_samp := np_setdiff1d_range (d st) dims_cond in
  let c := length dims_cond in
  let s := length dims_samp in
  is_mat c c Cinv ->
  let B := block_B cv dims_samp dims_cond in
  let BCinv := matmul (shape1 Cinv) B Cinv in
  (forall a b, (a < s)%nat -> (b < c)%nat -> entry BCinv a b = 0) /\
  (forall i j a, (i < m)%nat -> (j < nk)%nat -> (a < s)%nat ->
     ten_entry (conditional_means (dataset st) dims_samp dims_cond BCinv x_cond) i j a
     = entry (dataset st) (nth a dims_samp O) j) /\
  (forall a a', (a < s)%nat -> (a' < s)%nat ->
     entry (conditional_cov (block_A cv dims_samp dims_cond) B BCinv) a a'
     = entry cv (nth a dims_samp O) (nth a' dims_samp O)).
Proof.
  intros Hv Hdiag dims_samp c s HCinv B BCinv.
  pose proof Hv as [Hcv [Hcvs [Hd [Hnk [Hx [Hm [Hnd [Hr Hlt]]]]]]]].
  assert (Hs : s = (d st - c)%nat) by (apply setdiff_length; assumption).
  assert (Hspos : (0 < s)%nat) by (unfold c in *; lia).
  assert (Hdd : (0 < d st)%nat) by lia.
  assert (HB : is_mat s c B) by apply is_mat_np_ix.
  assert (HA : is_mat s s (block_A cv dims_samp dims_cond)) by apply is_mat_np_ix.
  assert (HBC : is_mat s c BCinv).
  { unfold BCinv. rewrite (shape1_square c Cinv HCinv).
    destruct HB as [HBl _]. rewrite <- HBl. apply is_mat_matmul. }
  assert (HBz : forall a b, (a < s)%nat -> (b < c)%nat -> entry B a b = 0).
  { intros a b Ha Hb. unfold B, block_B. rewrite entry_np_ix by assumption.
    assert (Hin : In (nth a dims_samp O) dims_samp) by (apply nth_In; exact Ha).
    apply setdiff_spec in Hin. destruct Hin as [Hlo Hnot].
    assert (Hinc : In (nth b dims_cond O) dims_cond) by (apply nth_In; exact Hb).
    rewrite Forall_forall in Hr.
    apply Hdiag; [assumption | now apply Hr |].
    intros E. apply Hnot. now rewrite E. }
  assert (HBCz : forall a b, (a < s)%nat -> (b < c)%nat -> entry BCinv a b = 0).
  { intros a b Ha Hb. unfold BCinv. rewrite (shape1_square c Cinv HCinv).
    rewrite (entry_matmul c c);
      [| destruct HB; lia | assumption | eapply is_mat_row; eauto | assumption ].
    rewrite (sum_n_ext c _ (fun _ => 0)); [apply sum_n_zero|].
    intros e He. rewrite (HBz a e Ha He). ring. }
  split; [exact HBCz|]. split.
  - intros i j a Hi Hj Ha.
    rewrite (conditional_means_entry (dataset st) dims_samp dims_cond BCinv x_cond
               (d st) nk m i j a); auto; [|apply setdiff_in_range].
    rewrite (sum_n_ext (length dims_cond) _ (fun _ => 0)).
    + rewrite sum_n_zero. lra.
    + intros b Hb. rewrite (HBCz a b Ha Hb). ring.
  - intros a a' Ha Ha'.
    rewrite (conditional_cov_entry _ _ _ s c) by assumption.
    unfold block_A at 1. rewrite entry_np_ix by assumption.
    rewrite (sum_n_ext c _ (fun _ => 0)).
    + rewrite sum_n_zero. lra.
    + intros b Hb. rewrite (HBCz a b Ha Hb). ring.
Qed.

Lemma identity_2_diagonal : diagonal 2 [[1; 0]; [0; 1]].
Proof.
  intros a b Ha Hb Hne.
  destruct a as [|[|a]]; destruct b as [|[|b]]; try lia; reflexivity.
Qed.

Lemma diagonal_kernel_means_uncorrected_witness :
  let st := three_point_kde in
  let cv := [[1; 0]; [0; 1]] in
  let Cinv := [[/ 1]] in
  let x_cond := [[1]; [2]] in
  let dims_cond := [0%nat] in
  let dims_samp := np_setdiff1d_range (d st) dims_cond in
  let B := block_B cv dims_samp dims_cond in
  let BCinv := matmul (shape1 Cinv) B Cinv in
  (forall a b, (a < length dims_samp)%nat -> (b < length dims_cond)%nat ->
     entry BCinv a b = 0) /\
  (forall i j a, (i < 2)%nat -> (j < 3)%nat -> (a < length dims_samp)%nat ->
     ten_entry (conditional_means (dataset st) dims_samp dims_cond BCinv x_cond) i j a
     = entry (dataset st) (nth a dims_samp O) j) /\
  (forall a a', (a < length dims_samp)%nat -> (a' < length dims_samp)%nat ->
     entry (conditional_cov (block_A cv dims_samp dims_cond) B BCinv) a a'
     = entry cv (nth a dims_samp O) (nth a' dims_samp O)).
Proof.
  assert (HC : is_mat 1 1 [[/ 1]]) by (split; [reflexivity | repeat constructor]).
  exact (diagonal_kernel_means_uncorrected three_point_kde [[1; 0]; [0; 1]]
           [[/ 1]] [[1]; [2]] [0%nat] 2 3
           three_point_query_valid identity_2_diagonal HC).
Defined.

(** ** The refined Silverman factor is dimensionless *)

Lemma insert_sorted_affine (a b x : R) (l : Vec) :
  0 < a ->
  insert_sorted (a * x + b) (map (fun y => a * y + b) l)
  = map (fun y => a * y + b) (insert_sorted x l).
Proof.
  intros Ha. induction l as [|y l IH]; [reflexivity|].
  cbn [map insert_sorted].
  destruct (Rle_dec x y) as [Hxy|Hxy];
    destruct (Rle_dec (a * x + b) (a * y + b)) as [Hg|Hg].
  - reflexivity.
  - exfalso. apply Hg. nra.
  - exfalso. apply Hxy. nra.
  - cbn [map]. now rewrite IH.
Qed.

Lemma np_sort_affine (a b : R) (v : Vec) :
  0 < a ->
  np_sort (map (fun y => a * y + b) v) = map (fun y => a * y + b) (np_sort v).
Proof.
  intros Ha. unfold np_sort. induction v as [|x v IH]; [reflexivity|].
  cbn [map fold_right]. rewrite IH. now apply insert_sorted_affine.
Qed.

Lemma insert_sorted_length (x : R) (l : Vec) :
  length (insert_sorted x l) = S (length l).
Proof.
  induction l as [|y l IH]; [reflexivity|].
  cbn [insert_sorted]. destruct (Rle_dec x y); cbn [length]; [reflexivity|].
  now rewrite IH.
Qed.

Lemma np_sort_length (v : Vec) : length (np_sort v) = length v.
Proof.
  unfold np_sort. induction v as [|x v IH]; [reflexivity|].
  cbn [fold_right length]. now rewrite insert_sorted_length, IH.
Qed.

Lemma np_quantile_affine (a b : R) (v : Vec) (num den : nat) :
  0 < a -> v <> [] -> (num <= den)%nat -> (0 < den)%nat ->
  np_quantile (map (fun y => a * y + b) v) num den
  = a * np_quantile v num den + b.
Proof.
  intros Ha Hv Hnum Hden. unfold np_quantile.
  rewrite length_map, np_sort_affine by assumption.
  assert (Hlen : (0 < length v)%nat) by (destruct v; [contradiction | simpl; lia]).
  assert (Hlo : ((length v - 1) * num / den < length v)%nat).
  { apply Nat.le_lt_trans with (length v - 1)%nat; [|lia].
    apply Nat.Div0.div_le_upper_bound. nia. }
  rewrite !(nth_map_in _ (np_sort v) _ 0) by (rewrite np_sort_length; lia).
  ring.
Qed.

Lemma vsum_map_affine (a b : R) (v : Vec) :
  vsum (map (fun y => a * y + b) v) = a * vsum v + INR (length v) * b.
Proof.
  induction v as [|x v IH]; [simpl; lra|].
  cbn [map vsum fold_right length]. rewrite S_INR.
  fold (vsum (map (fun y => a * y + b) v)). fold (vsum v). rewrite IH. lra.
Qed.

Lemma vmean_affine (a b : R) (v : Vec) :
  v <> [] -> vmean (map (fun y => a * y + b) v) = a * vmean v + b.
Proof.
  intros Hv. unfold vmean. rewrite vsum_map_affine, length_map.
  assert (INR (length v) <> 0).
  { apply not_0_INR. destruct v; [contradiction | discriminate]. }
  field. assumption.
Qed.

Lemma np_std1_affine (a b : R) (v : Vec) :
  0 < a -> v <> [] ->
  np_std1 (map (fun y => a * y + b) v) = a * np_std1 v.
Proof.
  intros Ha Hv. unfold np_std1.
  rewrite vmean_affine by assumption. rewrite map_map, length_map.
  rewrite (vsum_map_ext _ (fun x => a ^ 2 * Rsqr (x - vmean v)))
    by (intros x _; unfold Rsqr; ring).
  rewrite vsum_map_scale.
  replace (a ^ 2 * vsum (map (fun x => Rsqr (x - vmean v)) v)
           / (INR (length v) - 1))
    with (a ^ 2 * (vsum (map (fun x => Rsqr (x - vmean v)) v)
                   / (INR (length v) - 1)))
    by (unfold Rdiv; ring).
  rewrite sqrt_mult_alt by (apply pow2_ge_0).
  rewrite sqrt_pow2 by lra. reflexivity.
Qed.

Lemma Rmin_scale (a x y : R) : 0 <= a -> Rmin (a * x) (a * y) = a * Rmin x y.
Proof.
  intros Ha. unfold Rmin.
  destruct (Rle_dec (a * x) (a * y)) as [H1|H1];
    destruct (Rle_dec x y) as [H2|H2]; try reflexivity; nra.
Qed.

(** X16.  The refined Silverman factor is dimensionless: moving the data by
    a positive affine map [x -> a*x + b] (a change of unit or of origin)
    multiplies the interquartile range and the standard deviation of every
    dimension by [a] and leaves every factor unchanged. *)
Theorem silverman_factor_ref_affine_invariant (st st' : kde) (a b : R) :
  0 < a ->
  Forall (fun r => r <> []) (dataset st) ->
  dataset st' = map (map (fun x => a * x + b)) (dataset st) ->
  weights st' = weights st ->
  silverman_factor_ref st' = silverman_factor_ref st.
Proof.
  intros Ha Hne Hdata Hw.
  assert (Hlen : forall s, length (silverman_factor_ref s) = length (dataset s)).
  { intros s. unfold silverman_factor_ref.
    rewrite zipw_length, !length_map, zipw_length, !length_map. lia. }
  assert (Hl : length (dataset st') = length (dataset st))
    by (rewrite Hdata; apply length_map).
  apply (nth_ext _ _ 0 0); [now rewrite !Hlen|].
  intros j Hj. rewrite Hlen in Hj.
  rewrite (silverman_entry st' j Hj), (silverman_entry st j) by lia.
  cbv zeta.
  assert (Hrow : row (dataset st') j = map (fun x => a * x + b) (row (dataset st) j)).
  { unfold row. rewrite Hdata. apply nth_map_in. lia. }
  assert (Hrne : row (dataset st) j <> []).
  { rewrite Forall_forall in Hne. apply Hne. unfold row. apply nth_In. lia. }
  rewrite Hrow, !np_quantile_affine, np_std1_affine by (assumption || lia).
  unfold neff. rewrite Hw.
  set (r := row (dataset st) j). set (P := Rpower _ _).
  set (q3 := np_quantile r 3 4). set (q1 := np_quantile r 1 4).
  set (sd := np_std1 r).
  replace ((a * q3 + b - (a * q1 + b)) / 1.34) with (a * ((q3 - q1) / 1.34))
    by (unfold Rdiv; ring).
  rewrite Rmin_scale by lra.
  unfold Rdiv. rewrite Rinv_mult.
  generalize (/ sd). intros isd. field. lra.
Qed.

Lemma silverman_factor_ref_affine_invariant_witness :
  silverman_factor_ref
    (mk_kde (map (map (fun x => 2 * x + 3)) [[0; 1]]) 1 2 [1 / 2; 1 / 2] None
            CF_scotts None None None None None None None None)
  = silverman_factor_ref two_point_kde.
Proof.
  apply (silverman_factor_ref_affine_invariant two_point_kde _ 2 3).
  - lra.
  - repeat constructor. discriminate.
  - reflexivity.
  - reflexivity.
Defined.

(** ** Kernel weights of a conditional query *)

(** X17.  The weight that a conditional query gives to a kernel depends on
    the pair only through its squared Mahalanobis distance: for the
    log-densities that the evaluator returns, the weight of kernel [j] for
    query [i] is [exp(-maha(i,j)/2) / sum_k exp(-maha(i,k)/2)].  The terms
    [d*log(2*pi)] and [sum(log s)] of the log-density cancel, and the
    weights of the dataset ([self.weights]) do not enter. *)
Theorem kernel_weights_from_distances
    (eigh : Mat -> Vec * Mat) (x mu cov : Mat) (s0 : Vec) (u : Mat)
    (m p dim i j : nat) :
  is_mat m dim x -> is_mat p dim mu ->
  eigh cov = (s0, u) -> is_vec dim s0 -> is_mat dim dim u ->
  (i < m)%nat -> (j < p)%nat ->
  let w k := exp (-0.5 * maha_pair dim (row x i) (row mu k) (floor_eigs s0) u) in
  entry (kernel_probabilities (_mvn_logpdf eigh x mu cov)) i j
  = w j / sum_n p w.
Proof.
  intros Hx Hmu He Hs Hu Hi Hj w.
  assert (Hshape : is_mat m p (_mvn_logpdf eigh x mu cov)).
  { destruct Hx as [<- _]. destruct Hmu as [<- _]. apply mvn_logpdf_shape. }
  rewrite (kernel_probabilities_entry _ m p i j Hshape Hi Hj).
  set (K := -0.5 * (INR dim * ln (2 * PI)
                    + sum_n dim (fun c => ln (nth c (floor_eigs s0) 0)))).
  assert (Hent : forall k, (k < p)%nat ->
            exp (entry (_mvn_logpdf eigh x mu cov) i k) = exp K * w k).
  { intros k Hk.
    rewrite (mvn_logpdf_entry eigh x mu cov s0 u m p dim) by assumption.
    unfold logpdf_pair, w, K. rewrite <- exp_plus. f_equal. lra. }
  rewrite (Hent j Hj).
  rewrite (sum_n_ext p _ (fun k => exp K * w k)) by exact Hent.
  rewrite sum_n_scale.
  assert (0 < sum_n p w)
    by (apply sum_n_pos; [lia | intros; apply exp_pos]).
  pose proof (exp_pos K).
  field. split; lra.
Qed.

Lemma kernel_weights_from_distances_witness :
  let x := [[1; 2]] in
  let mu := [[0; 0]; [1; 1]] in
  let cov := [[1; 0]; [0; 4]] in
  let w k := exp (-0.5 * maha_pair 2 (row x 0) (row mu k) (floor_eigs [1; 4])
                                   [[1; 0]; [0; 1]]) in
  entry (kernel_probabilities (_mvn_logpdf eigh_diagonal x mu cov)) 0 1
  = w 1%nat / sum_n 2 w.
Proof.
  intros x mu cov.
  apply (kernel_weights_from_distances eigh_diagonal x mu cov [1; 4]
           [[1; 0]; [0; 1]] 1 2 2 0 1).
  - split; [reflexivity | repeat constructor].
  - split; [reflexivity | repeat constructor].
  - reflexivity.
  - reflexivity.
  - split; [reflexivity | repeat constructor].
  - lia.
  - lia.
Defined.

(** ** [_compute_covariance] is idempotent *)

(** X18.  [_compute_covariance] is idempotent: run again on the state that
    a successful run has left, it returns as well and changes no attribute.
    The first run is the only one that can compute the data covariance. *)
Theorem compute_covariance_idempotent (cholesky : Mat -> option Mat)
    (st st' : kde) :
  _compute_covariance cholesky st = (st', Returned tt) ->
  _compute_covariance cholesky st' = (st', Returned tt).
Proof.
  intros H.
  destruct (compute_covariance_returned_fields cholesky st st' H)
    as [c [L [_ [_ [_ [_ [_ Hagain]]]]]]].
  exact Hagain.
Qed.

Lemma compute_covariance_idempotent_witness :
  exists st',
    _compute_covariance cholesky_1x1 (two_point_cv_kde "equal" [2])
    = (st', Returned tt) /\
    _compute_covariance cholesky_1x1 st' = (st', Returned tt).
Proof.
  destruct compute_covariance_two_points_equal as [st' [Hst _]].
  exists st'. split; [exact Hst|].
  exact (compute_covariance_idempotent cholesky_1x1
           (two_point_cv_kde "equal" [2]) st' Hst).
Defined.

(** ** The defaults of the cross-validated selection *)

(** X19.  The default number of folds.  For a (d,n) dataset of [n >= 2]
    points with [k = None] the selection splits the [n] rows of
    [dataset.T], the data points, into [k = dataset[0].size = n] folds: one
    leave-one-out fold per data point, never one per dimension.  (A dataset
    of a single point has no leave-one-out split: [kfold_split] raises
    [ValueError].) *)
Theorem default_folds_are_leave_one_out (st : kde) (nk : nat) :
  is_mat (d st) nk (dataset st) -> (0 < d st)%nat -> (2 <= nk)%nat ->
  let X := transpose (shape1 (dataset st)) (dataset st) in
  let k := length (row (dataset st) 0) in
  is_mat nk (d st) X /\ k = nk /\
  kfold_split X k
  = Some (map (fun j => (seq 0 j ++ seq (S j) (nk - S j), [j])) (seq 0 nk)).
Proof.
  intros Hm Hd Hn X k.
  assert (Hs : shape1 (dataset st) = nk) by (now apply (shape1_is_mat (d st))).
  assert (Hk : k = nk) by (unfold k; now apply (is_mat_row (d st) nk)).
  assert (HX : is_mat nk (d st) X).
  { unfold X. rewrite Hs. destruct Hm as [Hl _]. rewrite <- Hl.
    apply is_mat_transpose. }
  split; [exact HX|]. split; [exact Hk|].
  destruct HX as [HXl _]. rewrite Hk, <- HXl.
  apply kfold_split_loo_eq. lia.
Qed.

Lemma default_folds_are_leave_one_out_witness :
  let X := transpose (shape1 (dataset three_point_kde)) (dataset three_point_kde) in
  let k := length (row (dataset three_point_kde) 0) in
  is_mat 3 (d three_point_kde) X /\ k = 3%nat /\
  kfold_split X k
  = Some (map (fun j => (seq 0 j ++ seq (S j) (3 - S j), [j])) (seq 0 3)).
Proof.
  apply (default_folds_are_leave_one_out three_point_kde 3).
  - split; [reflexivity | repeat constructor].
  - cbn. lia.
  - lia.
Defined.

(** X20.  The starting point of the optimiser for type [diagonal] is
    Silverman's rule of thumb, one bandwidth per dimension: for a dimension
    whose standard deviation is not zero,
    [h0 = 0.9 * min(IQR/1.34, std) * neff^(-1/5)], the refined factor
    multiplied back by the standard deviation. *)
Theorem diagonal_initial_guess_rule_of_thumb
    (eigh : Mat -> Vec * Mat) (st : kde) (h0 : Vec)
    (nll : Vec -> Mat -> Mat -> R) (j : nat) :
  select_bw_type eigh st "diagonal" = Some (h0, nll) ->
  (j < length (dataset st))%nat ->
  np_std1 (row (dataset st) j) <> 0 ->
  let r := row (dataset st) j in
  length h0 = length (dataset st) /\
  nth j h0 0
  = 0.9 * Rmin ((np_quantile r 3 4 - np_quantile r 1 4) / 1.34) (np_std1 r)
    * Rpower (neff st) (-1 / 5).
Proof.
  intros Hsel Hj Hsd r.
  unfold select_bw_type in Hsel.
  change (String.eqb "diagonal" "diagonal") with true in Hsel. cbv iota in Hsel.
  injection Hsel as <- _.
  assert (Hlen : length (silverman_factor_ref st) = length (dataset st)).
  { unfold silverman_factor_ref.
    rewrite zipw_length, !length_map, zipw_length, !length_map. lia. }
  split.
  - rewrite zipw_length, length_map, Hlen. apply Nat.min_id.
  - rewrite zipw_nth by (rewrite ?length_map, ?Hlen; lia).
    rewrite (nth_map_in _ _ j []) by assumption.
    rewrite (silverman_entry st j Hj). cbv zeta. fold (row (dataset st) j).
    fold r. field. exact Hsd.
Qed.

Lemma diagonal_initial_guess_rule_of_thumb_witness :
  let r := row (dataset two_point_kde) 0 in
  length (zipw Rmult (map np_std1 (dataset two_point_kde))
                     (silverman_factor_ref two_point_kde))
  = length (dataset two_point_kde) /\
  nth 0 (zipw Rmult (map np_std1 (dataset two_point_kde))
                    (silverman_factor_ref two_point_kde)) 0
  = 0.9 * Rmin ((np_quantile r 3 4 - np_quantile r 1 4) / 1.34) (np_std1 r)
    * Rpower (neff two_point_kde) (-1 / 5).
Proof.
  apply (diagonal_initial_guess_rule_of_thumb eigh_diagonal two_point_kde _
           (negloglike_diagonal eigh_diagonal) 0).
  - reflexivity.
  - cbn. lia.
  - change (row (dataset two_point_kde) 0) with [0; 1].
    pose proof np_std1_01_pos. lra.
Defined.

(** ** A single fold *)

(** X21.  A cross-validated selection asked for a single fold fails like
    one asked for none: with a valid bandwidth type and [k = 1] on a
    non-empty dataset there is no block left to train on,
    [np.concatenate] of an empty list raises [ValueError], and by then
    [bw_type] has been overwritten with the requested type while every
    other attribute is the old one. *)
Theorem set_bandwidth_cv_single_fold
    (eigh : Mat -> Vec * Mat) (cholesky : Mat -> option Mat)
    (minimize : (Vec -> R) -> Vec -> Vec * R)
    (st : kde) (ty : string) (nk : nat) :
  cv_type ty ->
  is_mat (d st) nk (dataset st) -> (0 < d st)%nat -> (0 < nk)%nat ->
  kfold_split (transpose (shape1 (dataset st)) (dataset st)) 1 = None /\
  set_bandwidth eigh cholesky minimize st (BwStr "cv") ty (Some 1%nat)
  = (set_bw_type st (Some ty), Raised ValueError).
Proof.
  intros Hty _ _ _.
  assert (Hk : forall X : Mat, kfold_split X 1 = None)
    by (intros X; apply kfold_split_too_few; lia).
  split; [apply Hk|].
  unfold set_bandwidth.
  change (is_str (BwStr "cv") "cv") with true. cbv iota.
  assert (Hsel : exists h0 nll, select_bw_type eigh st ty = Some (h0, nll)).
  { unfold select_bw_type.
    destruct Hty as [-> | [-> | ->]]; cbn; eauto. }
  destruct Hsel as [h0 [nll ->]].
  cbn [dataset set_bw_type]. now rewrite Hk.
Qed.

Lemma set_bandwidth_cv_single_fold_witness :
  kfold_split (transpose (shape1 (dataset (two_point_cv_kde "equal" [2])))
                         (dataset (two_point_cv_kde "equal" [2]))) 1 = None /\
  set_bandwidth eigh_diagonal cholesky_1x1 minimize_at_start
                (two_point_cv_kde "equal" [2]) (BwStr "cv") "diagonal" (Some 1%nat)
  = (set_bw_type (two_point_cv_kde "equal" [2]) (Some "diagonal"%string),
     Raised ValueError).
Proof.
  apply (set_bandwidth_cv_single_fold eigh_diagonal cholesky_1x1 minimize_at_start
           (two_point_cv_kde "equal" [2]) "diagonal" 2).
  - left. reflexivity.
  - split; [reflexivity | repeat constructor].
  - cbn. lia.
  - lia.
Defined.
